(** * EFT-Scheduler: the per-server timeline model and the placement decision

    A shallow embedding of [final.py]: the prediction model [ServerSched]
    (a min-heap of [(end_time, cores_used)] pairs kept with Python's
    [heapq]), the helper [state_penalty_seconds], and the two event
    handlers of [main]'s loop ([JOBN] and [JCPL]).

    Python integers are unbounded, so they are [Z]; Python floats are
    IEEE binary64, so they are the kernel's primitive floats; strings are
    byte strings compared lexicographically (UTF-8 keeps the code-point
    order Python compares by); the dictionary [sched_by_srv] is a [gmap]
    keyed by [(type, id)].

    The handlers are modelled at two levels.  At the level of events a
    handler receives the replies of the remote system already parsed (the
    rows of a [GETS], the line that answers [SCHD]) and returns the requests
    it sends together with the models it leaves, or the exception that ends
    the session.  In-place mutation of a model held in the dictionary is an
    update of the map at its key.  The module [wire], further down, is the
    transport itself: [send], [recv_line], [expect_ok], [parse_server_row],
    [gets_all], [gets_capable] and [main] with its loop, on the text of the
    two streams; a turn of that loop is proved to do what the event-level
    [step] says. *)

From Stdlib Require Import ZArith Lia Bool Floats OrderedTypeEx.
From stdpp Require Import gmap strings list fin_maps sorting pretty.

#[local] Open Scope Z_scope.

(** ** Timeline entries and Python's tuple order on them *)

(** One heap item: the pair [(end_time, cores_used)]. *)
Abbreviation entry := (Z * Z)%type.

(** [a < b] on 2-tuples of ints: the first position where the tuples differ
    decides; equal tuples are not below one another. *)
Definition entry_ltb (a b : entry) : bool :=
  if negb (a.1 =? b.1) then a.1 <? b.1
  else if negb (a.2 =? b.2) then a.2 <? b.2
  else false.

(** ** [heapq]: the array-based binary min-heap of the Python library

    [heapq.heappush] and [heapq.heappop] as CPython's [heapq.py] writes
    them.  A heap is a list [h] with [h[(k-1)>>1] <= h[k]] for every
    [k > 0].  The [while] loops recurse on a bound of their iteration count
    (the position for [_siftdown], the length for [_siftup]); the bound is
    never exhausted before the loop's own exit test fires. *)
Module heapq.

(** [while pos > startpos: ...] of [_siftdown], with [newitem] held aside. *)
Fixpoint siftdown_loop (bound : nat) (heap : list entry) (newitem : entry)
    (startpos pos : nat) : list entry :=
  match bound with
  | O => <[pos := newitem]> heap
  | S bound' =>
      if (startpos <? pos)%nat then
        let parentpos := ((pos - 1) / 2)%nat in
        let parent := heap !!! parentpos in
        if entry_ltb newitem parent
        then siftdown_loop bound' (<[pos := parent]> heap) newitem startpos parentpos
        else <[pos := newitem]> heap
      else <[pos := newitem]> heap
  end.

(** [_siftdown(heap, startpos, pos)]: move the item at [pos] towards the
    root until its parent is not above it. *)
Definition siftdown (heap : list entry) (startpos pos : nat) : list entry :=
  siftdown_loop pos heap (heap !!! pos) startpos pos.

(** [while childpos < endpos: ...] of [_siftup]: the hole at [pos] moves
    down to a leaf, the smaller child moving up each time.  Returns the
    list and the leaf position. *)
Fixpoint siftup_loop (bound : nat) (heap : list entry) (endpos pos : nat)
    : list entry * nat :=
  match bound with
  | O => (heap, pos)
  | S bound' =>
      let childpos := (2 * pos + 1)%nat in
      if (childpos <? endpos)%nat then
        let rightpos := (childpos + 1)%nat in
        let childpos :=
          if (rightpos <? endpos)%nat
             && negb (entry_ltb (heap !!! childpos) (heap !!! rightpos))
          then rightpos else childpos in
        siftup_loop bound' (<[pos := heap !!! childpos]> heap) endpos childpos
      else (heap, pos)
  end.

(** [_siftup(heap, pos)]. *)
Definition siftup (heap : list entry) (pos : nat) : list entry :=
  let endpos := length heap in
  let startpos := pos in
  let newitem := heap !!! pos in
  let '(heap, pos) := siftup_loop endpos heap endpos pos in
  siftdown (<[pos := newitem]> heap) startpos pos.

(** [heappush(heap, item)]. *)
Definition heappush (heap : list entry) (item : entry) : list entry :=
  siftdown (heap ++ [item]) 0 (length (heap ++ [item]) - 1).

(** [lastelt = heap.pop()]: the list without its last item, and that item;
    [None] is the [IndexError] of an empty list. *)
Definition pop_last (heap : list entry) : option (list entry * entry) :=
  match last heap with
  | Some lastelt => Some (removelast heap, lastelt)
  | None => None
  end.

(** [heappop(heap)]: the returned item and the heap left. *)
Definition heappop (heap : list entry) : option (entry * list entry) :=
  match pop_last heap with
  | None => None
  | Some (heap, lastelt) =>
      match heap with
      | returnitem :: _ => Some (returnitem, siftup (<[0%nat := lastelt]> heap) 0)
      | [] => Some (lastelt, [])
      end
  end.

End heapq.

(** The heap invariant, as a check: every item is not below its parent. *)
Definition heap_ok (h : list entry) : bool :=
  forallb (fun k => negb (entry_ltb (h !!! k) (h !!! ((k - 1) / 2)%nat)))
          (seq 1 (length h - 1)).

(** ** [ServerSched]: the predicted timeline of one server *)

Record ServerSched := mkServerSched {
  cores_total : Z;
  heap : list entry
}.

(** [ServerSched(cores_total)]. *)
Definition ServerSched_init (cores_total : Z) : ServerSched :=
  mkServerSched cores_total [].

(** [while self.heap and self.heap[0][0] <= now: heapq.heappop(self.heap)];
    each iteration removes one item, so the length bounds the loop. *)
Fixpoint prune_loop (bound : nat) (h : list entry) (now : Z) : list entry :=
  match bound with
  | O => h
  | S bound' =>
      match h with
      | first :: _ =>
          if first.1 <=? now then
            match heapq.heappop h with
            | Some (_, h') => prune_loop bound' h' now
            | None => h
            end
          else h
      | [] => h
      end
  end.

Definition prune_to_time (self : ServerSched) (now : Z) : ServerSched :=
  mkServerSched (cores_total self) (prune_loop (length (heap self)) (heap self) now).

(** Python's [sum] over ints: a left fold from 0. *)
Definition py_sum (l : list Z) : Z := fold_left Z.add l 0.

Definition running_cores (self : ServerSched) : Z :=
  py_sum (map snd (heap self)).

(** [sorted] on a list of entries: ascending in the tuple order.  The order
    is total and equal tuples are the same tuple, so the result is the one
    ascending arrangement of the list; it is computed here by insertion. *)
Fixpoint sorted_insert (x : entry) (l : list entry) : list entry :=
  match l with
  | [] => [x]
  | y :: l' => if entry_ltb x y then x :: l else y :: sorted_insert x l'
  end.

Fixpoint sorted (l : list entry) : list entry :=
  match l with
  | [] => []
  | x :: l' => sorted_insert x (sorted l')
  end.

(** [for end_t, c in tmp: ...] of [earliest_start_for]. *)
Fixpoint release_loop (tmp : list entry) (t avail_now c_need : Z) : Z :=
  match tmp with
  | [] => t
  | (end_t, c) :: tmp' =>
      let t := if t <? end_t then end_t else t in
      let avail_now := avail_now + c in
      if c_need <=? avail_now then t
      else release_loop tmp' t avail_now c_need
  end.

(** [earliest_start_for(now, c_need)]: the returned time, and the model as
    the call leaves it (it prunes). *)
Definition earliest_start_for (self : ServerSched) (now c_need : Z)
    : Z * ServerSched :=
  let self := prune_to_time self now in
  let avail := cores_total self - running_cores self in
  if c_need <=? avail then (now, self)
  else
    let tmp := sorted (heap self) in
    (release_loop tmp now avail c_need, self).

(** [add_job(start_t, c_need, est)]: the returned end time and the model. *)
Definition add_job (self : ServerSched) (start_t c_need est : Z)
    : Z * ServerSched :=
  let end_t := start_t + est in
  (end_t, mkServerSched (cores_total self) (heapq.heappush (heap self) (end_t, c_need))).

(** ** Parsed replies, the catalog and the options of [main] *)

(** A row of a [GETS] reply as [parse_server_row] returns it (the dict's
    keys, prefixed). *)
Record ServerRow := mkRow {
  row_type : string;
  row_id : Z;
  row_state : string;
  row_curStartTime : Z;
  row_cores : Z;
  row_mem : Z;
  row_disk : Z;
  row_wJobs : Z;
  row_rJobs : Z
}.

(** What [read_system_info] returns: three dicts keyed by server type. *)
Record SystemInfo := mkInfo {
  type_boot : gmap string Z;
  type_rate : gmap string float;
  type_cores : gmap string Z
}.

(** The two options of [main] the decision reads. *)
Record Args := mkArgs {
  cost_bias : float;
  fallback_boot_penalty : Z
}.

(** The exceptions the handlers can end in. *)
Inductive exception :=
| KeyError        (* [sched_by_srv[key]] on a key that is not tracked *)
| TypeError       (* unpacking [best_tuple] when it is still [None] *)
| OverflowError   (* [float * int] with an int too large for a float *)
| RuntimeError.   (* [expect_ok]: the reply was not [OK] *)

Inductive result (A : Type) :=
| Ok (a : A)
| Raise (e : exception).
Arguments Ok {A} a.
Arguments Raise {A} e.

(** Sequencing: an exception ends the computation. *)
#[global] Instance result_bind : MBind result := λ A B k r,
  match r with
  | Ok a => k a
  | Raise e => Raise e
  end.

Definition expect_ok (reply : string) : result unit :=
  if String.eqb reply "OK" then Ok tt else Raise RuntimeError.

(** [state_penalty_seconds(state, boot_seconds)]. *)
Definition state_penalty_seconds (state : string) (boot_seconds : Z) : Z :=
  if String.eqb state "active" || String.eqb state "idle" then 0
  else Z.max 0 boot_seconds.

(** The conversion Python applies to the int operand of [float * int]:
    the nearest binary64 value, ties to even; an int beyond the range of a
    float raises [OverflowError]. *)
Definition float_of_int (z : Z) : result float :=
  let f := SF2Prim (binary_normalize prec emax z 0 false) in
  if PrimFloat.is_infinity f then Raise OverflowError else Ok f.

(** ** The scheduler state and the placement decision *)

(** [sched_by_srv]: one model per [(type, id)]. *)
Abbreviation SchedMap := (gmap (string * Z) ServerSched).

(** [type_cores.get(s["type"], s["cores"])]. *)
Definition total_cores_of (info : SystemInfo) (s : ServerRow) : Z :=
  default (row_cores s) (type_cores info !! row_type s).

(** The models [main] builds from the first [GETS All]. *)
Definition init_models (info : SystemInfo) (rows : list ServerRow) : SchedMap :=
  fold_left
    (fun sched_by_srv s =>
       <[(row_type s, row_id s) := ServerSched_init (total_cores_of info s)]> sched_by_srv)
    rows ∅.

(** A [JOBN] line, parsed. *)
Record Job := mkJob {
  job_id : Z;
  submit : Z;
  j_cores : Z;
  j_mem : Z;
  j_disk : Z;
  j_est : Z
}.

(** The fast path's filter:
    [s["state"] in ("active","idle") and s["wJobs"] == 0 and s["cores"] >= j_cores]. *)
Definition is_instant (j : Job) (s : ServerRow) : bool :=
  (String.eqb (row_state s) "active" || String.eqb (row_state s) "idle")
  && (row_wJobs s =? 0)
  && (j_cores j <=? row_cores s).

(** The fast path's key [(cores_total, type, id)] and Python's [<] on it. *)
Abbreviation fast_key := (Z * string * Z)%type.

Definition fast_key_ltb (a b : fast_key) : bool :=
  let '(ca, ta, ia) := a in
  let '(cb, tb, ib) := b in
  if negb (ca =? cb) then ca <? cb
  else if negb (String.eqb ta tb) then String.ltb ta tb
  else if negb (ia =? ib) then ia <? ib
  else false.

(** [min(items, key=lambda x: (x[0], x[1], x[2]))]: the first item no later
    item is below. *)
Definition py_min (first : fast_key) (rest : list fast_key) : fast_key :=
  fold_left (fun best x => if fast_key_ltb x best then x else best) rest first.

(** The general path's tuple
    [(finish, start, rate_bias, cores_total, type, id)]. *)
Record Cand := mkCand {
  c_finish : Z;
  c_start : Z;
  c_rate_bias : float;
  c_cores_total : Z;
  c_type : string;
  c_id : Z
}.

(** [cand < best_tuple] on these 6-tuples. *)
Definition cand_ltb (a b : Cand) : bool :=
  if negb (c_finish a =? c_finish b) then c_finish a <? c_finish b
  else if negb (c_start a =? c_start b) then c_start a <? c_start b
  else if negb (PrimFloat.eqb (c_rate_bias a) (c_rate_bias b))
       then PrimFloat.ltb (c_rate_bias a) (c_rate_bias b)
  else if negb (c_cores_total a =? c_cores_total b)
       then c_cores_total a <? c_cores_total b
  else if negb (String.eqb (c_type a) (c_type b)) then String.ltb (c_type a) (c_type b)
  else if negb (c_id a =? c_id b) then c_id a <? c_id b
  else false.

(** One iteration of [for s in caps: ...] in the general path: the model of
    [s] is fetched (created when it is not tracked), queried (which prunes
    it in place), and the candidate tuple competes with [best_tuple]. *)
Definition consider (info : SystemInfo) (args : Args) (now : Z) (j : Job)
    (acc : SchedMap * option Cand) (s : ServerRow)
    : result (SchedMap * option Cand) :=
  let '(sched_by_srv, best_tuple) := acc in
  let stype := row_type s in
  let sid := row_id s in
  let sched :=
    match sched_by_srv !! (stype, sid) with
    | Some sched => sched
    | None => ServerSched_init (total_cores_of info s)
    end in
  let '(start, sched) := earliest_start_for sched now (j_cores j) in
  let sched_by_srv := <[(stype, sid) := sched]> sched_by_srv in
  let boot_sec := default (fallback_boot_penalty args) (type_boot info !! stype) in
  let start := start + state_penalty_seconds (row_state s) boot_sec in
  let finish := start + j_est j in
  let rate := default PrimFloat.zero (type_rate info !! stype) in
  est ← float_of_int (j_est j);
  let rate_bias := PrimFloat.mul (PrimFloat.mul (cost_bias args) rate) est in
  let cand := mkCand finish start rate_bias (total_cores_of info s) stype sid in
  let best_tuple :=
    match best_tuple with
    | None => Some cand
    | Some best => if cand_ltb cand best then Some cand else Some best
    end in
  Ok (sched_by_srv, best_tuple).

Fixpoint consider_all (info : SystemInfo) (args : Args) (now : Z) (j : Job)
    (caps : list ServerRow) (acc : SchedMap * option Cand)
    : result (SchedMap * option Cand) :=
  match caps with
  | [] => Ok acc
  | s :: caps' =>
      acc' ← consider info args now j acc s;
      consider_all info args now j caps' acc'
  end.

(** The requests a handler sends that carry a query or a decision. *)
Inductive command :=
| GETS_Capable (c m d : Z)
| GETS_All
| SCHD (job : Z) (stype : string) (sid : Z)
| QUIT.

(** What the remote system answers while one [JOBN] is handled: the rows of
    [GETS Capable], the rows of [GETS All] (asked for only when the former
    are none) and the line that answers [SCHD]. *)
Record Replies := mkReplies {
  capable_rows : list ServerRow;
  all_rows : list ServerRow;
  schd_reply : string
}.

(** [sched_by_srv[(stype, sid)].add_job(start, j_cores, j_est)]. *)
Definition record_job (sched_by_srv : SchedMap) (stype : string) (sid : Z)
    (start : Z) (j : Job) : result SchedMap :=
  match sched_by_srv !! (stype, sid) with
  | Some sched =>
      Ok (<[(stype, sid) := (add_job sched start (j_cores j) (j_est j)).2]> sched_by_srv)
  | None => Raise KeyError
  end.

(** The two-phase decision over the candidate list [caps]: the commands
    sent, and the models it leaves or the exception it ends in. *)
Definition decide_placement (info : SystemInfo) (args : Args)
    (sched_by_srv : SchedMap) (j : Job) (caps : list ServerRow)
    (reply : string) : list command * result SchedMap :=
  let now := submit j in
  match filter (fun s => is_instant j s = true) caps with
  | s0 :: instant' =>
      let key s := (total_cores_of info s, row_type s, row_id s) in
      let best := py_min (key s0) (map key instant') in
      let '(_, stype, sid) := best in
      ([SCHD (job_id j) stype sid],
       _ ← expect_ok reply;
       record_job sched_by_srv stype sid now j)
  | [] =>
      match consider_all info args now j caps (sched_by_srv, None) with
      | Raise e => ([], Raise e)
      | Ok (_, None) => ([], Raise TypeError)
      | Ok (sched_by_srv, Some best_tuple) =>
          let chosen_start := c_start best_tuple in
          let stype := c_type best_tuple in
          let sid := c_id best_tuple in
          ([SCHD (job_id j) stype sid],
           _ ← expect_ok reply;
           record_job sched_by_srv stype sid chosen_start j)
      end
  end.

(** The [JOBN] branch of the loop. *)
Definition handle_JOBN (info : SystemInfo) (args : Args)
    (sched_by_srv : SchedMap) (j : Job) (r : Replies)
    : list command * result SchedMap :=
  let ask := GETS_Capable (j_cores j) (j_mem j) (j_disk j) in
  match capable_rows r with
  | [] =>
      let '(sent, res) :=
        decide_placement info args sched_by_srv j (all_rows r) (schd_reply r) in
      (ask :: GETS_All :: sent, res)
  | caps =>
      let '(sent, res) :=
        decide_placement info args sched_by_srv j caps (schd_reply r) in
      (ask :: sent, res)
  end.

(** The [JCPL] branch of the loop. *)
Definition handle_JCPL (sched_by_srv : SchedMap) (t : Z) (stype : string)
    (sid : Z) : SchedMap :=
  let key := (stype, sid) in
  match sched_by_srv !! key with
  | Some sched => <[key := prune_to_time sched t]> sched_by_srv
  | None => sched_by_srv
  end.

(** The loop's variables, and one event line, parsed. *)
Record State := mkState {
  sched_by_srv : SchedMap;
  now : Z
}.

Inductive event :=
| JOBN (j : Job) (r : Replies)
| JCPL (t job : Z) (stype : string) (sid : Z)
| NONE
| OTHER.

(** One turn of [while True: ...]: the commands sent and, unless an
    exception ends the session, the next state ([None] after [break]). *)
Definition step (info : SystemInfo) (args : Args) (st : State) (ev : event)
    : list command * result (option State) :=
  match ev with
  | JOBN j r =>
      let '(sent, res) := handle_JOBN info args (sched_by_srv st) j r in
      (sent, m ← res; Ok (Some (mkState m (submit j))))
  | JCPL t _ stype sid =>
      ([], Ok (Some (mkState (handle_JCPL (sched_by_srv st) t stype sid) t)))
  | NONE => ([QUIT], Ok None)
  | OTHER => ([], Ok (Some st))
  end.

(** * Notions the statements use *)

(** ** The heap invariant, position by position *)

(** [(k - 1) >> 1]: the parent of position [k]. *)
Definition parent (k : nat) : nat := (k - 1) / 2.

(** No item is below its parent ([heap_ok] decides it). *)
Definition heap_inv (h : list entry) : Prop :=
  ∀ k, (0 < k < length h)%nat → entry_ltb (h !!! k) (h !!! parent k) = false.

(** The loop invariant of [_siftdown]: all edges of the heap hold but the
    one into [pos], and the parent of [pos] is not above the children of
    [pos]. *)
Definition heap_but (h : list entry) (pos : nat) : Prop :=
  (∀ k, (0 < k < length h)%nat → k ≠ pos →
        entry_ltb (h !!! k) (h !!! parent k) = false) ∧
  (∀ k, (0 < pos)%nat → (0 < k < length h)%nat → parent k = pos →
        entry_ltb (h !!! k) (h !!! parent pos) = false).

(** The loop invariant of [_siftup]: a hole at [pos]; every edge that does
    not touch [pos] holds, and the parent of [pos] is not above the children
    of [pos]. *)
Definition hole_inv (h : list entry) (pos : nat) : Prop :=
  (∀ k, (0 < k < length h)%nat → k ≠ pos → parent k ≠ pos →
        entry_ltb (h !!! k) (h !!! parent k) = false) ∧
  (∀ k, (0 < pos)%nat → (0 < k < length h)%nat → parent k = pos →
        entry_ltb (h !!! k) (h !!! parent pos) = false).

(** [a <= b] in the tuple order. *)
Definition entry_le (a b : entry) : Prop := entry_ltb b a = false.

(** The entry ends after [now]: pruning to [now] keeps it. *)
Definition ends_after (now : Z) (e : entry) : Prop := now < e.1.

#[global] Instance ends_after_dec now e : Decision (ends_after now e).
Proof. unfold ends_after. apply _. Defined.

(** Non-decreasing end time. *)
Definition end_time_le (a b : entry) : Prop := a.1 ≤ b.1.

(** ** The spec's words for [earliestStartFor]

    Written after section 4.1 of the specification, not after the code:
    the entries retained by a prune, their occupied cores, the simulated
    clock after a prefix of releases, and the first prefix whose freed
    cores meet the demand. *)

(** "discard all entries with end time <= now". *)
Definition spec_retained (now : Z) (entries : list entry) : list entry :=
  filter (ends_after now) entries.

(** "sum of cores occupied across all retained entries". *)
Definition spec_runningCores (entries : list entry) : Z :=
  foldr (λ e acc, e.2 + acc) 0 entries.

(** "advancing a simulated clock to each entry's end time (never going
    backward)": the clock after the entries [released]. *)
Definition spec_clock (now : Z) (released : list entry) : Z :=
  foldr (λ e t, Z.max e.1 t) now released.

(** "availability meets coresNeeded" once [released] have freed their cores. *)
Definition spec_sufficient (avail coresNeeded : Z) (released : list entry) : bool :=
  coresNeeded <=? avail + spec_runningCores released.

(** "return the simulated clock value at the first point availability meets
    coresNeeded.  If no prefix of releases suffices, return the clock value
    after the last entry." *)
Definition spec_release (order : list entry) (now avail coresNeeded : Z) : Z :=
  match find (λ n, spec_sufficient avail coresNeeded (take n order))
             (seq 1 (length order)) with
  | Some n => spec_clock now (take n order)
  | None => spec_clock now order
  end.

(** [earliestStartFor(now, coresNeeded)] on a model holding [entries], the
    retained ones being released in the order [order]. *)
Definition spec_earliestStartFor (totalCapacity : Z) (entries order : list entry)
    (now coresNeeded : Z) : Z :=
  let avail := totalCapacity - spec_runningCores (spec_retained now entries) in
  if coresNeeded <=? avail then now
  else spec_release order now avail coresNeeded.

(** ** Sequences of calls on one model *)

(** [add_job] for each [(start_t, c_need, est)] of [jobs], in turn. *)
Definition add_jobs (self : ServerSched) (jobs : list (Z * Z * Z)) : ServerSched :=
  fold_left (λ self '(start_t, c_need, est), (add_job self start_t c_need est).2)
            jobs self.

(** [prune_to_time] at each of [times], in turn. *)
Definition prune_all (self : ServerSched) (times : list Z) : ServerSched :=
  fold_left prune_to_time times self.

(** The end time [add_job] gives a job. *)
Definition job_end (job : Z * Z * Z) : Z :=
  let '(start_t, _, est) := job in start_t + est.

(** ** Python's [<] on tuples as a lexicographic product *)

(** A comparison pair [(==, <)] that behaves as a strict weak order on the
    values satisfying [P]. *)
Record StrictWeak {A : Type} (P : A → Prop) (eqb ltb : A → A → bool) : Prop := {
  sw_refl : ∀ a, P a → eqb a a = true;
  sw_sym : ∀ a b, P a → P b → eqb a b = true → eqb b a = true;
  sw_eq_trans : ∀ a b c, P a → P b → P c →
    eqb a b = true → eqb b c = true → eqb a c = true;
  sw_lt_neq : ∀ a b, P a → P b → ltb a b = true → eqb a b = false;
  sw_lt_trans : ∀ a b c, P a → P b → P c →
    ltb a b = true → ltb b c = true → ltb a c = true;
  sw_lt_eq : ∀ a b c, P a → P b → P c →
    ltb a b = true → eqb b c = true → ltb a c = true;
  sw_eq_lt : ∀ a b c, P a → P b → P c →
    eqb a b = true → ltb b c = true → ltb a c = true;
  sw_total : ∀ a b, P a → P b →
    eqb a b = false → ltb a b = true ∨ ltb b a = true
}.

(** [x == y] and [x < y] on tuples [(head, rest)]: the first position where
    the tuples differ decides. *)
Definition tuple_eqb {A B} (eqa : A → A → bool) (eqr : B → B → bool)
    (x y : A * B) : bool :=
  eqa x.1 y.1 && eqr x.2 y.2.

Definition tuple_ltb {A B} (eqa lta : A → A → bool) (ltr : B → B → bool)
    (x y : A * B) : bool :=
  if negb (eqa x.1 y.1) then lta x.1 y.1 else ltr x.2 y.2.

(** The empty tuple. *)
Definition unit_eqb (_ _ : unit) : bool := true.
Definition unit_ltb (_ _ : unit) : bool := false.

(** ** Floats that are not NaN *)





(** ** Candidates of the general path *)

Definition row_key (s : ServerRow) : string * Z := (row_type s, row_id s).

(** The model the general path consults for [s]. *)
Definition model_of (info : SystemInfo) (m : SchedMap) (s : ServerRow) : ServerSched :=
  match m !! row_key s with
  | Some sched => sched
  | None => ServerSched_init (total_cores_of info s)
  end.

(** The tuple the general path builds for [s] from the models [m], with
    [est] the job's estimate as a float. *)
Definition cand_of (info : SystemInfo) (args : Args) (j : Job) (est : float)
    (m : SchedMap) (s : ServerRow) : Cand :=
  let start :=
    (earliest_start_for (model_of info m s) (submit j) (j_cores j)).1
    + state_penalty_seconds (row_state s)
        (default (fallback_boot_penalty args) (type_boot info !! row_type s)) in
  mkCand (start + j_est j) start
    (PrimFloat.mul
       (PrimFloat.mul (cost_bias args)
          (default PrimFloat.zero (type_rate info !! row_type s))) est)
    (total_cores_of info s) (row_type s) (row_id s).

(** The models after the general path has queried every row of [caps]. *)
Definition queried (info : SystemInfo) (now : Z) (m0 : SchedMap)
    (caps : list ServerRow) (acc : SchedMap) : SchedMap :=
  fold_left
    (λ acc s, <[row_key s := prune_to_time (model_of info m0 s) now]> acc)
    caps acc.

(** Keeping the smaller of two items, the earlier one on a tie. *)
Definition pick {A} (ltb : A → A → bool) (best x : A) : A :=
  if ltb x best then x else best.

Definition cand_tuple (c : Cand) :=
  (c_finish c, (c_start c, (c_rate_bias c, (c_cores_total c, (c_type c, (c_id c, tt)))))).


Definition cand_tuple_ltb :=
  tuple_ltb Z.eqb Z.ltb (tuple_ltb Z.eqb Z.ltb (tuple_ltb PrimFloat.eqb PrimFloat.ltb
    (tuple_ltb Z.eqb Z.ltb (tuple_ltb String.eqb String.ltb
      (tuple_ltb Z.eqb Z.ltb unit_ltb))))).


Definition cand_key (c : Cand) : string * Z := (c_type c, c_id c).

(** The best tuple after the rows [caps], starting from [best]. *)
Definition best_after (info : SystemInfo) (args : Args) (j : Job) (est : float)
    (m0 : SchedMap) (caps : list ServerRow) (best : option Cand) : option Cand :=
  fold_left
    (λ best s,
       match best with
       | None => Some (cand_of info args j est m0 s)
       | Some b => Some (pick cand_ltb b (cand_of info args j est m0 s))
       end)
    caps best.

(** ** Scenario B of the specification *)

(** The catalog of the scenario: "big" has 8 cores and boots in 60 s,
    "small" has 4 cores and boots in 0 s; the hourly rates are [rates]. *)
Definition scenarioB_info (rates : gmap string float) : SystemInfo :=
  mkInfo {[ "big" := 60; "small" := 0 ]} rates {[ "big" := 8; "small" := 4 ]}.

(** The job of the scenario: 2 cores, submitted at 100, estimate 50. *)
Definition scenarioB_job : Job := mkJob 7 100 2 100 100 50.

(** The rows the remote system reports: "big" inactive, "small" idle with
    0 free cores. *)
Definition scenarioB_big : ServerRow := mkRow "big" 0 "inactive" 0 8 16000 64000 0 0.
Definition scenarioB_small : ServerRow := mkRow "small" 0 "idle" 0 0 4000 16000 0 1.

(** The models: nothing on "big", one prior job [(end_t, cores)] on "small". *)
Definition scenarioB_models (prior : entry) : SchedMap :=
  {[ ("big", 0) := ServerSched_init 8; ("small", 0) := mkServerSched 4 [prior] ]}.

(** A catalog with rates, and the default options of [main]
    ([--cost_bias 0.0001], [--fallback_boot_penalty 80]). *)
Definition scenarioB_rates : gmap string float :=
  {[ "big" := 0.5%float; "small" := 0.25%float ]}.
Definition default_args : Args := mkArgs 0x1.a36e2eb1c432dp-14%float 80.

(** ** A cost bias that is not a number *)




(** ** The fast path *)

Definition fast_key_of (info : SystemInfo) (s : ServerRow) : fast_key :=
  (total_cores_of info s, row_type s, row_id s).

Definition fast_tuple (k : fast_key) := (k.1.1, (k.1.2, (k.2, tt))).

Definition fast_tuple_eqb :=
  tuple_eqb Z.eqb (tuple_eqb String.eqb (tuple_eqb Z.eqb unit_eqb)).

Definition fast_tuple_ltb :=
  tuple_ltb Z.eqb Z.ltb (tuple_ltb String.eqb String.ltb (tuple_ltb Z.eqb Z.ltb unit_ltb)).

(** ** Every model [main] builds is a heap *)

(** Every tracked model satisfies the heap invariant. *)
Definition models_ok (m : SchedMap) : Prop :=
  map_Forall (λ _ sched, heap_inv (heap sched)) m.


(** ** The session, and notions about the models across it *)

(** The variables of [main] when the loop starts: the models built from the
    first [GETS All], and [now = 0]. *)
Definition main_init (info : SystemInfo) (rows : list ServerRow) : State :=
  mkState (init_models info rows) 0.

(** [while True: ...] over the events the remote system sends, one per
    turn: the commands sent, and the state after the last event ([None]
    after [break]) or the exception that ended the session. *)
Fixpoint run (info : SystemInfo) (args : Args) (st : State) (evs : list event)
    : list command * result (option State) :=
  match evs with
  | [] => ([], Ok (Some st))
  | ev :: evs' =>
      let '(sent, res) := step info args st ev in
      match res with
      | Ok (Some st') =>
          let '(sent', res') := run info args st' evs' in
          (sent ++ sent', res')
      | _ => (sent, res)
      end
  end.

(** The heap of the model tracked under [k]; no entry when none is. *)
Definition heap_of (m : SchedMap) (k : string * Z) : list entry :=
  match m !! k with
  | Some sched => heap sched
  | None => []
  end.

(** [h] holds the entries of [h0], or those of them that end after [now]. *)
Definition pruned_or_same (now : Z) (h0 h : list entry) : Prop :=
  h = h0 ∨ h ≡ₚ filter (ends_after now) h0.

(** Every model of [m] is still tracked in [m'], with the same capacity. *)
Definition keeps_models (m m' : SchedMap) : Prop :=
  ∀ k sched, m !! k = Some sched →
    ∃ sched', m' !! k = Some sched' ∧ cores_total sched' = cores_total sched.

(** The candidate list of a [JOBN] turn: the rows of [GETS Capable], or
    those of [GETS All] when the former are none. *)
Definition candidates (r : Replies) : list ServerRow :=
  match capable_rows r with
  | [] => all_rows r
  | caps => caps
  end.
(** Cores free at time [t] in the model's own bookkeeping: the capacity minus
    the cores of the entries that end after [t]. *)
Definition free_at (self : ServerSched) (t : Z) : Z :=
  cores_total self - spec_runningCores (spec_retained t (heap self)).

(** The cores of the entries of [l] released by time [t]. *)
Definition released_by (t : Z) (l : list entry) : Z :=
  spec_runningCores (filter (λ e, ¬ ends_after t e) l).


(** * The transport *)

(** The functions of [final.py] that talk to the remote system, and [main]
    on top of them.  A [str] is the byte string of its UTF-8 encoding, which
    is what crosses the socket; the input is taken to be valid UTF-8.

    Two builtins are not defined here but taken as parameters, so that what
    is proved holds whatever they do: [str.split()] with no argument, and
    [int()] on a [str] ([None] standing for its [ValueError]).  The f-string
    of an [int] is its decimal numeral, stdpp's [pretty]. *)
Module wire.

Definition LF : Ascii.ascii := Ascii.ascii_of_nat 10.

(** ["\n"]. *)
Definition nl : string := String LF "".

(** The two text streams [make_rw] makes of the socket, and standard
    output: what is still to be read from [fin], what has been written to
    [fout], what has been printed. *)
Record Conn := mkConn {
  fin : string;
  fout : string;
  stdout : string
}.

(** The exceptions of the transport, and those of the handlers. *)
Inductive failure :=
| ConnectionError              (* [recv_line]: the stream has ended *)
| IndexError                   (* [parts[i]] beyond the fields of a line *)
| ValueError                   (* [int()] on a field that is no number *)
| Raised (e : exception).

Inductive outcome (A : Type) :=
| Return (a : A)
| Throw (e : failure).
Arguments Return {A} a.
Arguments Throw {A} e.

#[global] Instance outcome_bind : MBind outcome := λ A B k r,
  match r with
  | Return a => k a
  | Throw e => Throw e
  end.

(** A computation on the streams: what was read, written and printed stays
    so when an exception is raised. *)
Definition io (A : Type) : Type := Conn → outcome A * Conn.

#[global] Instance io_ret : MRet io := λ A a c, (Return a, c).

#[global] Instance io_bind : MBind io := λ A B k m c,
  match m c with
  | (Return a, c') => k a c'
  | (Throw e, c') => (Throw e, c')
  end.

Definition raise {A} (e : failure) : io A := λ c, (Throw e, c).

(** An expression that touches no stream. *)
Definition pure {A} (r : outcome A) : io A := λ c, (r, c).

(** A call into the handlers' code. *)
Definition lift {A} (r : result A) : outcome A :=
  match r with
  | Ok a => Return a
  | Raise e => Throw (Raised e)
  end.

(** [print(a, b)] *)
Definition print (a b : string) : io unit := λ c,
  (Return tt, mkConn (fin c) (fout c) (stdout c +:+ a +:+ " " +:+ b +:+ nl)).

(** [fout.write(s); fout.flush()] *)
Definition write (s : string) : io unit := λ c,
  (Return tt, mkConn (fin c) (fout c +:+ s) (stdout c)).

(** [str.readline] on text: up to and including the first ["\n"], or all
    that is left when there is none; and what follows. *)
Fixpoint readline_of (s : string) : string * string :=
  match s with
  | EmptyString => (EmptyString, EmptyString)
  | String a s' =>
      if Ascii.eqb a LF then (String a EmptyString, s')
      else let '(line, rest) := readline_of s' in (String a line, rest)
  end.

(** [fin.readline()] *)
Definition readline : io string := λ c,
  let '(line, rest) := readline_of (fin c) in
  (Return line, mkConn rest (fout c) (stdout c)).

(** [line.rstrip("\n")]: without its trailing newlines. *)
Fixpoint rstrip_nl (s : string) : string :=
  match s with
  | EmptyString => EmptyString
  | String a s' =>
      match rstrip_nl s' with
      | EmptyString => if Ascii.eqb a LF then EmptyString else String a EmptyString
      | r => String a r
      end
  end.

(** [send(fout, line, verbose)] *)
Definition send (line : string) (verbose : bool) : io unit :=
  (if verbose then print ">>" line else mret tt);;
  write (line +:+ nl).

(** [recv_line(fin, verbose)] *)
Definition recv_line (verbose : bool) : io string :=
  line ← readline;
  if String.eqb line "" then raise ConnectionError
  else
    let line := rstrip_nl line in
    (if verbose then print "<<" line else mret tt);;
    mret line.

(** [expect_ok(fin, verbose)] *)
Definition expect_ok (verbose : bool) : io unit :=
  line ← recv_line verbose;
  if negb (String.eqb line "OK") then raise (Raised RuntimeError)
  else mret tt.

(** [f[i]] on a list. *)
Definition item (f : list string) (i : nat) : outcome string :=
  match f !! i with
  | Some x => Return x
  | None => Throw IndexError
  end.

(** [[recv_line(fin, verbose) for _ in range(n)]] *)
Fixpoint recv_lines (verbose : bool) (n : nat) : io (list string) :=
  match n with
  | O => mret []
  | S n' =>
      line ← recv_line verbose;
      lines ← recv_lines verbose n';
      mret (line :: lines)
  end.

Section builtins.

Variable split : string → list string.
Variable int : string → option Z.

(** [int(s)] *)
Definition to_int (s : string) : outcome Z :=
  match int s with
  | Some z => Return z
  | None => Throw ValueError
  end.

(** [int(f[i])] *)
Definition int_item (f : list string) (i : nat) : outcome Z :=
  x ← item f i; to_int x.

(** [parse_server_row(line)]: the dict's items are evaluated in order. *)
Definition parse_server_row (line : string) : outcome ServerRow :=
  let f := split line in
  type ← item f 0;
  id ← int_item f 1;
  state ← item f 2;
  curStartTime ← int_item f 3;
  cores ← int_item f 4;
  mem ← int_item f 5;
  disk ← int_item f 6;
  wJobs ← int_item f 7;
  rJobs ← int_item f 8;
  Return (mkRow type id state curStartTime cores mem disk wJobs rJobs).

(** [[parse_server_row(r) for r in rows]] *)
Fixpoint parse_rows (rows : list string) : outcome (list ServerRow) :=
  match rows with
  | [] => Return []
  | r :: rows' =>
      s ← parse_server_row r;
      ss ← parse_rows rows';
      Return (s :: ss)
  end.

(** [gets_all(fin, fout, verbose)] *)
Definition gets_all (verbose : bool) : io (list ServerRow) :=
  send "GETS All" verbose;;
  header ← recv_line verbose;
  let parts := split header in
  p0 ← pure (item parts 0);
  if negb (String.eqb p0 "DATA") then raise (Raised RuntimeError)
  else
    n ← pure (int_item parts 1);
    send "OK" verbose;;
    rows ← recv_lines verbose (Z.to_nat n);
    send "OK" verbose;;
    dot ← recv_line verbose;
    if negb (String.eqb dot ".") then raise (Raised RuntimeError)
    else pure (parse_rows rows).

(** [gets_capable(fin, fout, c, m, d, verbose)] *)
Definition gets_capable (c m d : Z) (verbose : bool) : io (list ServerRow) :=
  send ("GETS Capable " +:+ pretty c +:+ " " +:+ pretty m +:+ " " +:+ pretty d) verbose;;
  header ← recv_line verbose;
  let parts := split header in
  p0 ← pure (item parts 0);
  if negb (String.eqb p0 "DATA") then raise (Raised RuntimeError)
  else
    n ← pure (int_item parts 1);
    send "OK" verbose;;
    rows ← recv_lines verbose (Z.to_nat n);
    send "OK" verbose;;
    dot ← recv_line verbose;
    if negb (String.eqb dot ".") then raise (Raised RuntimeError)
    else pure (parse_rows rows).

(** [send(fout, f"SCHD {job_id} {stype} {sid}", verbose); expect_ok(fin, verbose)] *)
Definition schd (job_id : Z) (stype : string) (sid : Z) (verbose : bool) : io unit :=
  send ("SCHD " +:+ pretty job_id +:+ " " +:+ stype +:+ " " +:+ pretty sid) verbose;;
  expect_ok verbose.

(** The [JOBN] branch of the loop, after [kind] is known. *)
Definition on_JOBN (info : SystemInfo) (args : Args) (verbose : bool)
    (sched_by_srv : SchedMap) (parts : list string) : io (option State) :=
  job_id ← pure (int_item parts 1);
  now ← pure (int_item parts 2);
  j_cores ← pure (int_item parts 3);
  j_mem ← pure (int_item parts 4);
  j_disk ← pure (int_item parts 5);
  j_est ← pure (int_item parts 6);
  let j := mkJob job_id now j_cores j_mem j_disk j_est in
  caps ← gets_capable j_cores j_mem j_disk verbose;
  caps ← match caps with
         | [] => gets_all verbose
         | _ => mret caps
         end;
  match filter (fun s => is_instant j s = true) caps with
  | s0 :: instant' =>
      let key s := (total_cores_of info s, row_type s, row_id s) in
      let best := py_min (key s0) (map key instant') in
      let '(_, stype, sid) := best in
      schd job_id stype sid verbose;;
      sched_by_srv ← pure (lift (record_job sched_by_srv stype sid now j));
      mret (Some (mkState sched_by_srv now))
  | [] =>
      '(sched_by_srv, best_tuple) ←
        pure (lift (consider_all info args now j caps (sched_by_srv, None)));
      match best_tuple with
      | None => raise (Raised TypeError)
      | Some best_tuple =>
          let chosen_start := c_start best_tuple in
          let stype := c_type best_tuple in
          let sid := c_id best_tuple in
          schd job_id stype sid verbose;;
          sched_by_srv ← pure (lift (record_job sched_by_srv stype sid chosen_start j));
          mret (Some (mkState sched_by_srv now))
      end
  end.

(** The [JCPL] branch. *)
Definition on_JCPL (sched_by_srv : SchedMap) (parts : list string)
    : io (option State) :=
  now ← pure (int_item parts 1);
  stype ← pure (item parts 3);
  sid ← pure (int_item parts 4);
  mret (Some (mkState (handle_JCPL sched_by_srv now stype sid) now)).

(** One turn of [while True: ...]: the next state, [None] after [break]. *)
Definition turn (info : SystemInfo) (args : Args) (verbose : bool) (st : State)
    : io (option State) :=
  send "REDY" verbose;;
  line ← recv_line verbose;
  let parts := split line in
  kind ← pure (item parts 0);
  if String.eqb kind "JOBN" then on_JOBN info args verbose (sched_by_srv st) parts
  else if String.eqb kind "JCPL" then on_JCPL (sched_by_srv st) parts
  else if String.eqb kind "NONE" then
    send "QUIT" verbose;;
    _ ← recv_line verbose;
    mret None
  else mret (Some st).

(** [while True: ...] for at most [fuel] turns: [None] when the loop has
    ended by [break], the state reached when the turns are used up. *)
Fixpoint loop (fuel : nat) (info : SystemInfo) (args : Args) (verbose : bool)
    (st : State) : io (option State) :=
  match fuel with
  | O => mret (Some st)
  | S fuel' =>
      next ← turn info args verbose st;
      match next with
      | None => mret None
      | Some st' => loop fuel' info args verbose st'
      end
  end.

(** [main], from the handshake on: [user] and [verbose] are the options
    [--user] and [not --quiet], [info] is what [read_system_info] returned. *)
Definition main (fuel : nat) (info : SystemInfo) (args : Args) (user : string)
    (verbose : bool) : io (option State) :=
  send "HELO" verbose;; expect_ok verbose;;
  send ("AUTH " +:+ user) verbose;; expect_ok verbose;;
  rows ← gets_all verbose;
  loop fuel info args verbose (main_init info rows).

End builtins.

End wire.

(** ** The builtins on ASCII text, for examples *)

(** [c.isspace()] for an ASCII character. *)
Definition ascii_space (a : Ascii.ascii) : bool :=
  let n := Ascii.nat_of_ascii a in
  ((9 <=? n)%nat && (n <=? 13)%nat) || ((28 <=? n)%nat && (n <=? 32)%nat).

(** [s.split()] on ASCII text: the maximal runs of non-space characters. *)
Fixpoint ascii_split_from (word : option string) (s : string) : list string :=
  match s with
  | EmptyString =>
      match word with
      | Some w => [w]
      | None => []
      end
  | String a s' =>
      if ascii_space a then
        match word with
        | Some w => w :: ascii_split_from None s'
        | None => ascii_split_from None s'
        end
      else ascii_split_from (Some (default EmptyString word +:+ String a EmptyString)) s'
  end.

Definition ascii_split (s : string) : list string := ascii_split_from None s.

(** The digits of a numeral, most significant first; a single ["_"] may
    stand between two digits. *)
Fixpoint ascii_digits (acc : Z) (after_digit : bool) (s : string) : option Z :=
  match s with
  | EmptyString => if after_digit then Some acc else None
  | String a s' =>
      let n := Ascii.nat_of_ascii a in
      if (48 <=? n)%nat && (n <=? 57)%nat
      then ascii_digits (10 * acc + Z.of_nat (n - 48)) true s'
      else if (n =? 95)%nat && after_digit then ascii_digits acc false s'
      else None
  end.

(** [int(s)] on ASCII text: one numeral with spaces around it, a sign
    before its digits. *)
Definition ascii_int (s : string) : option Z :=
  match ascii_split s with
  | [String a w' as w] =>
      if (Ascii.nat_of_ascii a =? 45)%nat then Z.opp <$> ascii_digits 0 false w'
      else if (Ascii.nat_of_ascii a =? 43)%nat then ascii_digits 0 false w'
      else ascii_digits 0 false w
  | _ => None
  end.

(** ** Notions about the streams *)

(** A text with no newline in it. *)
Fixpoint one_line (s : string) : bool :=
  match s with
  | EmptyString => true
  | String a s' => negb (Ascii.eqb a wire.LF) && one_line s'
  end.

(** The text of lines, each ended by a newline. *)
Fixpoint unlines (ls : list string) : string :=
  match ls with
  | [] => EmptyString
  | l :: ls' => l +:+ wire.nl +:+ unlines ls'
  end.

(** From [c] to [c'] input was only consumed and output only appended. *)
Definition continues (c c' : wire.Conn) : Prop :=
  (∃ read, wire.fin c = read +:+ wire.fin c') ∧
  (∃ written, wire.fout c' = wire.fout c +:+ written) ∧
  (∃ printed, wire.stdout c' = wire.stdout c +:+ printed).

(** The same traffic, whatever was printed. *)
Definition same_traffic (c c' : wire.Conn) : Prop :=
  wire.fin c = wire.fin c' ∧ wire.fout c = wire.fout c'.

(** The line a command is sent as. *)
Definition render (cmd : command) : string :=
  match cmd with
  | GETS_Capable c m d =>
      "GETS Capable " +:+ pretty c +:+ " " +:+ pretty m +:+ " " +:+ pretty d
  | GETS_All => "GETS All"
  | SCHD job stype sid => "SCHD " +:+ pretty job +:+ " " +:+ stype +:+ " " +:+ pretty sid
  | QUIT => "QUIT"
  end.

(** What [verbose] prints for a line: the tag, a space, the line. *)
Definition echo (verbose : bool) (tag line : string) : string :=
  if verbose then tag +:+ " " +:+ line +:+ wire.nl else EmptyString.

(** Whatever the streams, [m] leaves them related by [R] to what they were. *)
Definition preserves {A} (R : wire.Conn → wire.Conn → Prop) (m : wire.io A) : Prop :=
  ∀ c, R c (m c).2.

(** [m] and [m'] do the same on the same traffic. *)
Definition agree {A} (m m' : wire.io A) : Prop :=
  ∀ c c', same_traffic c c' →
    (m c).1 = (m' c').1 ∧ same_traffic (m c).2 (m' c').2.

(** What [expect_ok] makes of a reply line, as an outcome on the streams. *)
Definition lift_unit (reply : string) : wire.outcome unit :=
  wire.lift (expect_ok reply).

(** ** A session, for examples *)

(** What the remote system sends in a short session: the two replies of the
    handshake, the reply to [GETS All] (two servers), one job with the reply
    to [GETS Capable] and to [SCHD], its completion, and the end. *)
Definition example_rows : list string :=
  ["big 0 inactive -1 8 16000 64000 0 0"; "small 0 idle 0 4 4000 16000 0 0"].

Definition example_job_lines : list string :=
  ["JOBN 7 100 2 100 100 50"; "DATA 1 124"; "small 0 idle 0 4 4000 16000 0 0"; ".";
   "OK"].

Definition example_session : string :=
  unlines (["OK"; "OK"; "DATA 2 124"] ++ example_rows ++ ["."] ++ example_job_lines
           ++ ["JCPL 150 7 small 0"; "NONE"; "QUIT"]).

Definition example_parsed : list ServerRow :=
  [mkRow "big" 0 "inactive" (-1) 8 16000 64000 0 0;
   mkRow "small" 0 "idle" 0 4 4000 16000 0 0].




(** * The timeline model *)

(** ** The tuple order on entries *)

Ltac entry_cmp :=
  unfold entry_ltb in *; simpl in *;
  repeat match goal with
    | |- context [Z.eqb ?a ?b] => destruct (Z.eqb_spec a b)
    | H : context [Z.eqb ?a ?b] |- _ => destruct (Z.eqb_spec a b)
    | |- context [Z.ltb ?a ?b] => destruct (Z.ltb_spec a b)
    | H : context [Z.ltb ?a ?b] |- _ => destruct (Z.ltb_spec a b)
    end; simpl in *; try congruence; try lia.

Lemma entry_ltb_irrefl (a : entry) : entry_ltb a a = false.
Proof. destruct a. entry_cmp. Qed.

Lemma entry_ltb_asym (a b : entry) : entry_ltb a b = true → entry_ltb b a = false.
Proof. destruct a, b. entry_cmp. Qed.

Lemma entry_le_trans (a b c : entry) :
  entry_ltb b a = false → entry_ltb c b = false → entry_ltb c a = false.
Proof. destruct a, b, c. entry_cmp. Qed.

Lemma entry_lt_le_trans (a b c : entry) :
  entry_ltb a b = true → entry_ltb c b = false → entry_ltb c a = false.
Proof. destruct a, b, c. entry_cmp. Qed.

Lemma entry_le_antisym (a b : entry) :
  entry_ltb a b = false → entry_ltb b a = false → a = b.
Proof. destruct a, b. entry_cmp; intros; f_equal; lia. Qed.

Lemma entry_le_fst (a b : entry) : entry_ltb b a = false → a.1 ≤ b.1.
Proof. destruct a, b. entry_cmp. Qed.

Lemma parent_cases k : (0 < k)%nat → k = (2 * parent k + 1)%nat ∨ k = (2 * parent k + 2)%nat.
Proof.
  intros Hk. unfold parent.
  pose proof (Nat.div_mod_eq (k - 1) 2) as E.
  pose proof (Nat.mod_upper_bound (k - 1) 2). lia.
Qed.

Lemma parent_lt k : (0 < k)%nat → (parent k < k)%nat.
Proof. intros Hk. destruct (parent_cases k Hk); lia. Qed.

Lemma parent_child p k : (0 < k)%nat → parent k = p → k = (2 * p + 1)%nat ∨ k = (2 * p + 2)%nat.
Proof. intros Hk <-. by apply parent_cases. Qed.

Lemma parent_left p : parent (2 * p + 1) = p.
Proof.
  unfold parent. replace (2 * p + 1 - 1)%nat with (p * 2)%nat by lia.
  by rewrite Nat.div_mul.
Qed.

Lemma parent_right p : parent (2 * p + 1 + 1) = p.
Proof.
  unfold parent. replace (2 * p + 1 + 1 - 1)%nat with (1 + p * 2)%nat by lia.
  by rewrite Nat.div_add.
Qed.

(** ** The heap invariant *)

Lemma heap_ok_inv h : heap_ok h = true ↔ heap_inv h.
Proof.
  unfold heap_ok, heap_inv. rewrite forallb_forall. split.
  - intros H k Hk. specialize (H k). rewrite negb_true_iff in H.
    apply H, in_seq. lia.
  - intros H k Hk%in_seq. rewrite negb_true_iff. apply H. lia.
Qed.

Lemma heap_inv_nil : heap_inv [].
Proof. intros k Hk. simpl in Hk. lia. Qed.

(** The root of a heap is below no item. *)
Lemma heap_inv_root h k :
  heap_inv h → (k < length h)%nat → entry_ltb (h !!! k) (h !!! 0%nat) = false.
Proof.
  intros Hh. induction (lt_wf k) as [k _ IH]. intros Hk.
  destruct (decide (k = 0%nat)) as [->|Hk0]; [apply entry_ltb_irrefl|].
  assert (parent k < k)%nat by (apply parent_lt; lia).
  eapply entry_le_trans; [apply IH; [done|lia] | apply Hh; lia].
Qed.

Lemma heap_inv_min root h x :
  heap_inv (root :: h) → x ∈ root :: h → entry_ltb x root = false.
Proof.
  intros Hh [k Hk]%list_elem_of_lookup.
  pose proof (lookup_lt_Some _ _ _ Hk) as Hlt.
  apply list_lookup_total_correct in Hk as <-.
  by apply (heap_inv_root _ k Hh).
Qed.

(** ** [_siftdown] *)

Ltac lookup_norm :=
  repeat first
    [ rewrite list_lookup_total_insert_eq by (rewrite ?length_insert; lia)
    | rewrite list_lookup_total_insert_ne by lia ].

(** The loop re-establishes the invariant: with the hole at [pos] and
    [newitem] not above the children of [pos], the list it returns is a
    heap. *)
Lemma siftdown_loop_inv bound : ∀ h newitem pos,
  (pos ≤ bound)%nat → (pos < length h)%nat →
  heap_but (<[pos := newitem]> h) pos →
  heap_inv (heapq.siftdown_loop bound h newitem 0 pos).
Proof.
  assert (Hexit : ∀ h newitem pos, (pos < length h)%nat →
     heap_but (<[pos := newitem]> h) pos →
     (0 < pos → entry_ltb newitem (h !!! parent pos) = false)%nat →
     heap_inv (<[pos := newitem]> h)).
  { intros h newitem pos Hpos [H1 _] Hp k Hk.
    destruct (decide (k = pos)) as [->|Hne]; [|by apply H1].
    rewrite length_insert in Hk. assert (parent pos < pos)%nat by (apply parent_lt; lia).
    lookup_norm. apply Hp. lia. }
  induction bound as [|bound IH]; intros h newitem pos Hb Hpos Hbut;
    cbn [heapq.siftdown_loop].
  { apply Hexit; [done..|lia]. }
  destruct (Nat.ltb_spec 0 pos) as [H0|H0]; [|apply Hexit; [done..|lia]].
  fold (parent pos).
  destruct (entry_ltb newitem (h !!! parent pos)) eqn:Hlt; [|by apply Hexit].
  pose proof (parent_lt pos H0) as Hpp.
  apply IH; [lia | rewrite length_insert; lia |].
  destruct Hbut as [H1 H2]. rewrite length_insert in H1, H2.
  set (P := h !!! parent pos) in *.
  split; rewrite !length_insert.
  - intros k Hk Hkp.
    destruct (decide (k = pos)) as [->|Hne].
    { lookup_norm. by apply entry_ltb_asym. }
    pose proof (parent_lt k (proj1 Hk)) as Hpk.
    specialize (H1 k Hk Hne). revert H1. lookup_norm. intros H1.
    destruct (decide (parent k = parent pos)) as [Epp|Npp].
    { rewrite Epp in *. lookup_norm. revert H1. lookup_norm. fold P.
      intros H1. eapply entry_lt_le_trans; eauto. }
    destruct (decide (parent k = pos)) as [Ep|Np].
    { rewrite Ep. lookup_norm.
      specialize (H2 k H0 Hk Ep). revert H2. by lookup_norm. }
    lookup_norm. revert H1. by lookup_norm.
  - intros k Hpp0 Hk Ek.
    pose proof (parent_lt _ Hpp0) as Hppp.
    assert (Hpar : entry_ltb P (h !!! parent (parent pos)) = false).
    { specialize (H1 (parent pos)). revert H1. lookup_norm. intros H1. apply H1; lia. }
    destruct (decide (k = pos)) as [->|Hne]; lookup_norm; [done|].
    pose proof (parent_lt k (proj1 Hk)) as Hpk.
    specialize (H1 k Hk Hne). revert H1. rewrite Ek. lookup_norm. fold P. intros H1.
    eapply entry_le_trans; eauto.
Qed.

(** The loop only moves items: its result holds the items of the list with
    [newitem] at [pos]. *)
Lemma siftdown_loop_perm bound : ∀ h newitem pos,
  (pos ≤ bound)%nat → (pos < length h)%nat →
  heapq.siftdown_loop bound h newitem 0 pos ≡ₚ <[pos := newitem]> h.
Proof.
  induction bound as [|bound IH]; intros h newitem pos Hb Hpos;
    cbn [heapq.siftdown_loop]; [done|].
  destruct (Nat.ltb_spec 0 pos) as [H0|H0]; [|done].
  fold (parent pos).
  destruct (entry_ltb newitem (h !!! parent pos)) eqn:Hlt; [|done].
  pose proof (parent_lt pos H0) as Hpp.
  rewrite IH by (rewrite ?length_insert; lia).
  rewrite <- (list_insert_insert_eq h pos (h !!! parent pos) newitem).
  apply Permutation_insert_swap.
  - apply list_lookup_insert_eq. lia.
  - rewrite list_lookup_insert_ne by lia. apply list_lookup_lookup_total_lt. lia.
Qed.

Lemma siftdown_inv h pos :
  (pos < length h)%nat → heap_but h pos → heap_inv (heapq.siftdown h 0 pos).
Proof.
  intros Hpos Hbut. apply siftdown_loop_inv; [done..|].
  rewrite list_insert_id; [done|]. by apply list_lookup_lookup_total_lt.
Qed.

Lemma siftdown_perm h pos :
  (pos < length h)%nat → heapq.siftdown h 0 pos ≡ₚ h.
Proof.
  intros Hpos. unfold heapq.siftdown. rewrite siftdown_loop_perm by done.
  rewrite list_insert_id; [done|]. by apply list_lookup_lookup_total_lt.
Qed.

(** ** [_siftup] *)

(** The hole reaches a leaf, the invariant holds there, and putting any
    item into the hole gives the items of the list with that item at
    [pos]. *)
Lemma siftup_loop_spec bound : ∀ h pos,
  (length h ≤ bound + pos)%nat → (pos < length h)%nat → hole_inv h pos →
  ∃ h' pos',
    heapq.siftup_loop bound h (length h) pos = (h', pos') ∧
    length h' = length h ∧ (pos' < length h)%nat ∧
    (length h ≤ 2 * pos' + 1)%nat ∧ hole_inv h' pos' ∧
    ∀ newitem, <[pos' := newitem]> h' ≡ₚ <[pos := newitem]> h.
Proof.
  induction bound as [|bound IH]; intros h pos Hb Hpos Hh;
    cbn [heapq.siftup_loop].
  { exists h, pos. split; [done|]. do 2 (split; [done|]). split; [lia|done]. }
  destruct (Nat.ltb_spec (2 * pos + 1) (length h)) as [Hc|Hc];
    [|exists h, pos; split; [done|]; do 2 (split; [done|]); split; [lia|done]].
  remember ((2 * pos + 1 + 1 <? length h)%nat
            && negb (entry_ltb (h !!! (2 * pos + 1)%nat) (h !!! (2 * pos + 1 + 1)%nat)))
    as b eqn:Eb.
  symmetry in Eb.
  set (c := if b then (2 * pos + 1 + 1)%nat else (2 * pos + 1)%nat).
  assert (Hcpar : parent c = pos).
  { unfold c. destruct b; [apply parent_right|apply parent_left]. }
  assert (Hclt : (pos < c < length h)%nat).
  { unfold c. destruct b; [|lia].
    apply andb_true_iff in Eb as [Eb%Nat.ltb_lt _]. lia. }
  (* the chosen child is not above its sibling *)
  assert (Hsmall : ∀ k, (0 < k < length h)%nat → parent k = pos →
            entry_ltb (h !!! k) (h !!! c) = false).
  { intros k Hk Ek. destruct (parent_child pos k (proj1 Hk) Ek) as [->| ->].
    - unfold c. destruct b; [|apply entry_ltb_irrefl].
      apply andb_true_iff in Eb as [_ Eb]. by apply negb_true_iff in Eb.
    - replace (2 * pos + 2)%nat with (2 * pos + 1 + 1)%nat in * by lia.
      unfold c. destruct b; [apply entry_ltb_irrefl|].
      apply andb_false_iff in Eb as [Eb%Nat.ltb_ge|Eb%negb_false_iff]; [lia|].
      by apply entry_ltb_asym. }
  destruct (IH (<[pos := h !!! c]> h) c) as (h' & pos' & E & Hlen & Hp' & Hleaf & Hinv & Hperm).
  - rewrite length_insert. lia.
  - rewrite length_insert. lia.
  - destruct Hh as [H1 H2]. split; rewrite !length_insert.
    + intros k Hk Hkc Hpk.
      pose proof (parent_lt k (proj1 Hk)) as Hlt.
      destruct (decide (k = pos)) as [->|Hne].
      { lookup_norm. apply H2; [lia|lia|done]. }
      destruct (decide (parent k = pos)) as [Ep|Np].
      { rewrite Ep. lookup_norm. by apply Hsmall. }
      lookup_norm. by apply H1.
    + intros k _ Hk Ek. rewrite Hcpar.
      pose proof (parent_lt k (proj1 Hk)) as Hlt.
      lookup_norm. rewrite <- Ek. apply H1; [done|lia|lia].
  - exists h', pos'. rewrite length_insert in *.
    split; [exact E|]. do 4 (split; [done|]).
    intros newitem. rewrite Hperm.
    rewrite <- (list_insert_insert_eq h pos (h !!! c) newitem).
    apply Permutation_insert_swap.
    + apply list_lookup_insert_eq. lia.
    + rewrite list_lookup_insert_ne by lia. apply list_lookup_lookup_total_lt. lia.
Qed.

Lemma siftup_spec h :
  (0 < length h)%nat → hole_inv h 0 →
  heap_inv (heapq.siftup h 0) ∧ heapq.siftup h 0 ≡ₚ h.
Proof.
  intros Hlen Hh. unfold heapq.siftup.
  destruct (siftup_loop_spec (length h) h 0) as (h' & pos' & -> & Hl & Hp & Hleaf & Hinv & Hperm);
    [lia|done|done|].
  split.
  - apply siftdown_inv; [rewrite length_insert; lia|].
    destruct Hinv as [H1 H2]. split; rewrite !length_insert.
    + intros k Hk Hne. pose proof (parent_lt k (proj1 Hk)).
      assert (parent k ≠ pos').
      { intros Ek. destruct (parent_child pos' k (proj1 Hk) Ek); lia. }
      lookup_norm. by apply H1.
    + intros k _ Hk Ek. destruct (parent_child pos' k (proj1 Hk) Ek); lia.
  - rewrite siftdown_perm by (rewrite length_insert; lia).
    rewrite Hperm. rewrite list_insert_id; [done|].
    apply list_lookup_lookup_total_lt. lia.
Qed.

(** ** [heappush] and [heappop] *)

Lemma heappush_perm h item : heapq.heappush h item ≡ₚ item :: h.
Proof.
  unfold heapq.heappush. rewrite siftdown_perm by (rewrite length_app; simpl; lia).
  by rewrite Permutation_app_comm.
Qed.

Lemma heappush_inv h item : heap_inv h → heap_inv (heapq.heappush h item).
Proof.
  intros Hh. unfold heapq.heappush.
  assert (El : (length (h ++ [item]) - 1 = length h)%nat)
    by (rewrite length_app; simpl; lia).
  rewrite El. apply siftdown_inv; [rewrite length_app; simpl; lia|].
  split; rewrite length_app; simpl.
  - intros k Hk Hne. pose proof (parent_lt k (proj1 Hk)).
    rewrite !lookup_total_app_l by lia. apply Hh. lia.
  - intros k _ Hk Ek. pose proof (parent_lt k (proj1 Hk)). lia.
Qed.

Lemma heap_inv_app h l : heap_inv (h ++ l) → heap_inv h.
Proof.
  intros Hh k Hk. pose proof (parent_lt k (proj1 Hk)).
  specialize (Hh k). rewrite length_app in Hh.
  rewrite !lookup_total_app_l in Hh by lia. apply Hh. lia.
Qed.

Lemma heappop_nil : heapq.heappop [] = None.
Proof. done. Qed.

(** [heappop] of a heap returns its first item and leaves a heap holding the
    other items. *)
Lemma heappop_spec root h :
  heap_inv (root :: h) →
  ∃ h', heapq.heappop (root :: h) = Some (root, h') ∧ heap_inv h' ∧ h' ≡ₚ h.
Proof.
  intros Hh. unfold heapq.heappop, heapq.pop_last.
  destruct (last (root :: h)) as [lastelt|] eqn:El;
    [|apply last_None in El; done].
  apply last_Some in El as [rest El]. rewrite El, removelast_last.
  destruct rest as [|r rest]; simplify_eq/=.
  { exists []. split; [done|]. split; [apply heap_inv_nil|done]. }
  destruct (siftup_spec (<[0%nat := lastelt]> (r :: rest))) as [Hi Hp].
  - simpl. lia.
  - rewrite app_comm_cons in Hh. apply heap_inv_app in Hh.
    split; simpl length.
    + intros k Hk Hne Hpar. pose proof (parent_lt k (proj1 Hk)).
      rewrite !list_lookup_total_insert_ne by lia. apply Hh. simpl. lia.
    + intros k Hlt. lia.
  - eexists. split; [reflexivity|]. split; [done|].
    rewrite Hp. simpl. by rewrite Permutation_app_comm.
Qed.

(** ** [prune_to_time] *)


(** With a bound of at least the length, the loop stops by its own test:
    what is left is a heap holding exactly the entries that end after
    [now]. *)
Lemma prune_loop_spec bound : ∀ h now,
  (length h ≤ bound)%nat → heap_inv h →
  heap_inv (prune_loop bound h now) ∧
  prune_loop bound h now ≡ₚ filter (ends_after now) h.
Proof.
  induction bound as [|bound IH]; intros h now Hb Hh.
  { destruct h; [done|simpl in Hb; lia]. }
  destruct h as [|root h]; [done|]. cbn [prune_loop].
  destruct (Z.leb_spec root.1 now) as [Hle|Hgt].
  - destruct (heappop_spec root h Hh) as (h' & -> & Hh' & Hp).
    destruct (IH h' now) as [Hi Hperm]; [|done|].
    { rewrite (Permutation_length Hp). simpl in Hb. lia. }
    split; [done|]. rewrite Hperm, Hp.
    rewrite filter_cons_False; [done|]. unfold ends_after. lia.
  - split; [done|].
    assert (Hall : Forall (ends_after now) (root :: h)).
    { apply Forall_forall. intros x Hx.
      apply (heap_inv_min root h x Hh), entry_le_fst in Hx.
      unfold ends_after. lia. }
    clear -Hall. induction Hall as [|x l Hx _ IHl]; [done|].
    rewrite filter_cons_True by done. by f_equiv.
Qed.

Lemma prune_to_time_spec self now :
  heap_inv (heap self) →
  heap_inv (heap (prune_to_time self now)) ∧
  heap (prune_to_time self now) ≡ₚ filter (ends_after now) (heap self).
Proof. intros Hh. by apply prune_loop_spec. Qed.

(** ** [sum] and [sorted] *)

Lemma fold_left_add_shift l a : fold_left Z.add l a = a + fold_left Z.add l 0.
Proof.
  revert a. induction l as [|x l IH]; intros a; cbn [fold_left]; [lia|].
  rewrite (IH (a + x)), (IH (0 + x)). lia.
Qed.

Lemma py_sum_cons x l : py_sum (x :: l) = x + py_sum l.
Proof. unfold py_sum. cbn [fold_left]. apply fold_left_add_shift. Qed.

Lemma py_sum_perm l1 l2 : l1 ≡ₚ l2 → py_sum l1 = py_sum l2.
Proof.
  induction 1; rewrite ?py_sum_cons; lia || congruence.
Qed.

Lemma running_cores_perm s1 s2 :
  heap s1 ≡ₚ heap s2 → running_cores s1 = running_cores s2.
Proof. intros Hp. unfold running_cores. apply py_sum_perm. by rewrite Hp. Qed.

#[global] Instance entry_le_trans_inst : Transitive entry_le.
Proof. intros a b c. unfold entry_le. apply entry_le_trans. Qed.

#[global] Instance entry_le_antisym_inst : AntiSymm (=) entry_le.
Proof. intros a b H1 H2. by apply entry_le_antisym. Qed.

Lemma entry_le_total a b : entry_ltb a b = false → entry_le b a.
Proof. done. Qed.

Lemma sorted_insert_perm x l : sorted_insert x l ≡ₚ x :: l.
Proof.
  induction l as [|y l IH]; simpl; [done|].
  destruct (entry_ltb x y); [done|]. rewrite IH. apply perm_swap.
Qed.

Lemma sorted_perm l : sorted l ≡ₚ l.
Proof.
  induction l as [|x l IH]; simpl; [done|].
  by rewrite sorted_insert_perm, IH.
Qed.

Lemma sorted_insert_Sorted x l :
  Sorted entry_le l → Sorted entry_le (sorted_insert x l).
Proof.
  induction 1 as [|y l Hl IH Hy]; simpl; [by repeat constructor|].
  destruct (entry_ltb x y) eqn:E.
  - constructor; [by constructor|]. constructor. by apply entry_ltb_asym.
  - constructor; [done|].
    destruct Hy as [|z l Hz]; simpl; [by repeat constructor|].
    destruct (entry_ltb x z); by constructor.
Qed.

Lemma sorted_Sorted l : Sorted entry_le (sorted l).
Proof.
  induction l as [|x l IH]; simpl; [constructor|]. by apply sorted_insert_Sorted.
Qed.

(** [sorted] reads the list as a multiset. *)
Lemma sorted_perm_eq l1 l2 : l1 ≡ₚ l2 → sorted l1 = sorted l2.
Proof.
  intros Hp. apply (Sorted_unique entry_le); [apply sorted_Sorted..|].
  by rewrite !sorted_perm.
Qed.

(** ** The release walk *)

Lemma release_loop_ge tmp : ∀ t avail c_need, t ≤ release_loop tmp t avail c_need.
Proof.
  induction tmp as [|[end_t c] tmp IH]; intros t avail c_need; simpl; [lia|].
  destruct (Z.leb_spec c_need (avail + c)); destruct (Z.ltb_spec t end_t); try lia.
  - etrans; [|apply IH]. lia.
  - apply IH.
Qed.

Lemma release_loop_mono_t tmp : ∀ t t' avail c_need,
  t ≤ t' → release_loop tmp t avail c_need ≤ release_loop tmp t' avail c_need.
Proof.
  induction tmp as [|[end_t c] tmp IH]; intros t t' avail c_need Ht; simpl; [lia|].
  destruct (Z.leb_spec c_need (avail + c));
    destruct (Z.ltb_spec t end_t); destruct (Z.ltb_spec t' end_t); try lia;
    apply IH; lia.
Qed.

Lemma release_loop_mono_need tmp : ∀ t avail k k',
  k ≤ k' → release_loop tmp t avail k ≤ release_loop tmp t avail k'.
Proof.
  induction tmp as [|[end_t c] tmp IH]; intros t avail k k' Hk; simpl; [lia|].
  destruct (Z.leb_spec k (avail + c)); destruct (Z.leb_spec k' (avail + c));
    try lia; [apply release_loop_ge|by apply IH].
Qed.

(** One more entry of non-negative size, its cores taken from what is
    available now, can only delay the walk. *)
Lemma release_loop_insert l : ∀ e c t avail k,
  0 ≤ c → avail < k →
  release_loop l t avail k ≤ release_loop (sorted_insert (e, c) l) t (avail - c) k.
Proof.
  induction l as [|[e' c'] l IH]; intros e c t avail k Hc Hk.
  { simpl. replace (avail - c + c) with avail by lia.
    destruct (Z.leb_spec k avail); destruct (Z.ltb_spec t e); lia. }
  cbn [sorted_insert]. destruct (entry_ltb (e, c) (e', c')).
  - change (release_loop ((e, c) :: (e', c') :: l) t (avail - c) k)
      with (let t1 := if t <? e then e else t in
            if k <=? avail - c + c then t1
            else release_loop ((e', c') :: l) t1 (avail - c + c) k).
    replace (avail - c + c) with avail by lia. cbv zeta.
    destruct (Z.leb_spec k avail); [lia|].
    apply release_loop_mono_t. destruct (Z.ltb_spec t e); lia.
  - simpl.
    destruct (Z.leb_spec k (avail + c')); destruct (Z.leb_spec k (avail - c + c'));
      try lia.
    + apply release_loop_ge.
    + replace (avail - c + c') with (avail + c' - c) by lia. apply IH; lia.
Qed.


Lemma spec_runningCores_py_sum l : spec_runningCores l = py_sum (map snd l).
Proof.
  induction l as [|e l IH]; [done|].
  cbn [map]. rewrite py_sum_cons, <- IH. done.
Qed.

Lemma spec_runningCores_perm l1 l2 :
  l1 ≡ₚ l2 → spec_runningCores l1 = spec_runningCores l2.
Proof. intros Hp. rewrite !spec_runningCores_py_sum. apply py_sum_perm. by rewrite Hp. Qed.

Lemma spec_clock_shift released : ∀ now (e : entry),
  spec_clock now (e :: released) = spec_clock (Z.max now e.1) released.
Proof.
  unfold spec_clock.
  induction released as [|x l IH]; intros now e; cbn [foldr] in *; [lia|].
  rewrite <- IH. lia.
Qed.

Lemma find_seq_succ (f g : nat → bool) n len :
  (∀ m, f (S m) = g m) →
  find f (seq (S n) len) = S <$> find g (seq n len).
Proof.
  intros Hfg. revert n. induction len as [|len IH]; intros n; [done|].
  cbn [seq find]. rewrite Hfg. destruct (g n); [done|]. apply IH.
Qed.

Lemma spec_sufficient_cons avail need (e : entry) released :
  spec_sufficient avail need (e :: released)
  = spec_sufficient (avail + e.2) need released.
Proof. unfold spec_sufficient, spec_runningCores. cbn [foldr]. f_equal. lia. Qed.

Lemma spec_release_cons (e : entry) order t avail need :
  spec_release (e :: order) t avail need
  = if need <=? avail + e.2 then Z.max t e.1
    else spec_release order (Z.max t e.1) (avail + e.2) need.
Proof.
  unfold spec_release. cbn [length seq find].
  rewrite firstn_cons, take_0, spec_sufficient_cons.
  unfold spec_sufficient at 1. cbn [spec_runningCores foldr].
  rewrite Z.add_0_r.
  destruct (Z.leb_spec need (avail + e.2)) as [Hs|Hs].
  { cbv iota. rewrite firstn_cons, take_0. unfold spec_clock. cbn [foldr]. lia. }
  rewrite (find_seq_succ _ (λ m, spec_sufficient (avail + e.2) need (take m order)))
    by (intros m; rewrite firstn_cons; apply spec_sufficient_cons).
  destruct (find _ _) as [m|]; cbn [fmap option_fmap option_map].
  - by rewrite firstn_cons, spec_clock_shift.
  - by rewrite spec_clock_shift.
Qed.

(** The loop of [earliest_start_for] is the spec's release walk. *)
Lemma release_loop_spec order : ∀ t avail c_need,
  release_loop order t avail c_need = spec_release order t avail c_need.
Proof.
  induction order as [|[end_t c] order IH]; intros t avail c_need; [done|].
  rewrite spec_release_cons. cbn [release_loop fst snd].
  assert (Et : (if t <? end_t then end_t else t) = Z.max t end_t)
    by (destruct (Z.ltb_spec t end_t); lia).
  rewrite Et, IH. done.
Qed.

(** ** Ties in the release order *)

Lemma Sorted_entry_le_end l : Sorted entry_le l → Sorted end_time_le l.
Proof.
  induction 1 as [|x l Hl IH Hx]; constructor; [done|].
  destruct Hx as [|y l Hy]; constructor. by apply entry_le_fst.
Qed.

Lemma release_loop_swap T c1 c2 l t avail k :
  0 ≤ c1 → 0 ≤ c2 →
  release_loop ((T, c1) :: (T, c2) :: l) t avail k
  = release_loop ((T, c2) :: (T, c1) :: l) t avail k.
Proof.
  intros H1 H2. cbn [release_loop].
  replace (avail + c2 + c1) with (avail + c1 + c2) by lia.
  destruct (Z.ltb_spec t T) as [Ht|Ht].
  - rewrite Z.ltb_irrefl.
    destruct (Z.leb_spec k (avail + c1)); destruct (Z.leb_spec k (avail + c2));
      destruct (Z.leb_spec k (avail + c1 + c2)); try lia; done.
  - destruct (Z.ltb_spec t T); [lia|].
    destruct (Z.leb_spec k (avail + c1)); destruct (Z.leb_spec k (avail + c2));
      destruct (Z.leb_spec k (avail + c1 + c2)); try lia; done.
Qed.

Lemma release_loop_sorted_insert l : ∀ (x : entry) t avail k,
  Forall (end_time_le x) l → 0 ≤ x.2 → Forall (λ e : entry, 0 ≤ e.2) l →
  release_loop (sorted_insert x l) t avail k = release_loop (x :: l) t avail k.
Proof.
  induction l as [|y l IH]; intros x t avail k Hx Hc Hl; [done|].
  cbn [sorted_insert]. destruct (entry_ltb x y) eqn:E; [done|].
  apply Forall_cons in Hx as [Hxy Hx]. apply Forall_cons in Hl as [Hy Hl].
  assert (Eend : y.1 = x.1).
  { unfold end_time_le in Hxy. destruct x, y. entry_cmp. }
  destruct x as [e c], y as [e' c']. simpl in Eend, Hc, Hy. subst e'.
  rewrite <- release_loop_swap by done.
  cbn [release_loop]. destruct (k <=? avail + c'); [done|].
  rewrite IH by done. done.
Qed.

Lemma release_loop_sorted l :
  Sorted end_time_le l → Forall (λ e : entry, 0 ≤ e.2) l →
  ∀ t avail k, release_loop (sorted l) t avail k = release_loop l t avail k.
Proof.
  induction 1 as [|x l Hl IH Hx]; intros Hc t avail k; [done|].
  apply Forall_cons in Hc as [Hcx Hc]. cbn [sorted].
  assert (Hall : Forall (end_time_le x) l).
  { assert (Transitive end_time_le) by (intros a b c; unfold end_time_le; lia).
    assert (Hs : StronglySorted end_time_le (x :: l))
      by (by apply Sorted_StronglySorted, Sorted_cons).
    by inversion Hs. }
  rewrite release_loop_sorted_insert; [| |done|].
  - destruct x as [e c]. cbn [release_loop]. by rewrite IH.
  - by rewrite sorted_perm.
  - by rewrite sorted_perm.
Qed.

(** ** Reachable models keep the heap invariant *)

Lemma add_job_inv self start_t c_need est :
  heap_inv (heap self) → heap_inv (heap (add_job self start_t c_need est).2).
Proof. apply heappush_inv. Qed.

Lemma add_job_perm self start_t c_need est :
  heap (add_job self start_t c_need est).2 ≡ₚ (start_t + est, c_need) :: heap self.
Proof. apply heappush_perm. Qed.

Lemma earliest_start_for_model self now c_need :
  (earliest_start_for self now c_need).2 = prune_to_time self now.
Proof. unfold earliest_start_for. by destruct (_ <=? _). Qed.

Lemma earliest_start_for_time self now c_need :
  (earliest_start_for self now c_need).1 =
  let pruned := prune_to_time self now in
  let avail := cores_total self - running_cores pruned in
  if c_need <=? avail then now
  else release_loop (sorted (heap pruned)) now avail c_need.
Proof. unfold earliest_start_for. cbn [cores_total prune_to_time]. by destruct (_ <=? _). Qed.

(** ** The claims about [ServerSched] *)

(** C2: after [prune_to_time(t)] every retained entry ends strictly after
    [t], and exactly the entries ending at or before [t] are gone: the heap
    left is the multiset of the entries with [t < end_t], the heap before is
    that multiset together with the entries with [end_t <= t], the capacity
    is untouched and the list is still a heap. *)
Theorem prune_to_time_discards_exactly (self : ServerSched) (t : Z) :
  heap_ok (heap self) = true →
  Forall (λ e : entry, t < e.1) (heap (prune_to_time self t)) ∧
  heap (prune_to_time self t) ≡ₚ filter (ends_after t) (heap self) ∧
  heap self ≡ₚ heap (prune_to_time self t)
               ++ filter (λ e : entry, ¬ ends_after t e) (heap self) ∧
  cores_total (prune_to_time self t) = cores_total self ∧
  heap_ok (heap (prune_to_time self t)) = true.
Proof.
  intros Hok%heap_ok_inv.
  destruct (prune_to_time_spec self t Hok) as [Hinv Hperm].
  split; [|split; [done|split; [|split; [done|by apply heap_ok_inv]]]].
  - rewrite Hperm. apply Forall_forall. by intros x [Hx _]%list_elem_of_filter.
  - rewrite Hperm. symmetry. apply filter_app_complement.
Qed.

Lemma prune_to_time_discards_exactly_witness :
  let self := mkServerSched 8 [(1, 4); (3, 1); (2, 2); (5, 1)] in
  heap (prune_to_time self 2) ≡ₚ filter (ends_after 2) (heap self).
Proof.
  intros self. apply (prune_to_time_discards_exactly self 2). reflexivity.
Defined.

(** C10: [earliest_start_for(now, c_need)] never answers a time before
    [now] (whatever the list in [heap] is), and when pruning to [now] leaves
    no entry it answers [now] itself, also for a [c_need] above
    [cores_total]. *)
Theorem earliest_start_for_not_before_now (self : ServerSched) (now c_need : Z) :
  now ≤ (earliest_start_for self now c_need).1 ∧
  (heap (prune_to_time self now) = [] →
   (earliest_start_for self now c_need).1 = now).
Proof.
  rewrite earliest_start_for_time. cbv zeta. split.
  - destruct (_ <=? _); [lia|apply release_loop_ge].
  - intros ->. by destruct (_ <=? _).
Qed.

(** C4: on one model and one [now], [earliest_start_for(now, k)] does not
    decrease when [k] grows; and for one [k] it does not decrease when a job
    of [c >= 0] cores is added to the model by [add_job]. *)
Theorem earliest_start_for_monotone (self : ServerSched) (now k : Z) :
  heap_ok (heap self) = true →
  (∀ k', k ≤ k' →
     (earliest_start_for self now k).1 ≤ (earliest_start_for self now k').1) ∧
  (∀ start_t c est, 0 ≤ c →
     (earliest_start_for self now k).1
     ≤ (earliest_start_for (add_job self start_t c est).2 now k).1).
Proof.
  intros Hok%heap_ok_inv. split.
  - intros k' Hk. rewrite !earliest_start_for_time. cbv zeta.
    destruct (Z.leb_spec k (cores_total self - running_cores (prune_to_time self now)));
      destruct (Z.leb_spec k' (cores_total self - running_cores (prune_to_time self now)));
      try lia.
    + apply release_loop_ge.
    + by apply release_loop_mono_need.
  - intros start_t c est Hc. rewrite !earliest_start_for_time. cbv zeta.
    set (self' := (add_job self start_t c est).2).
    destruct (prune_to_time_spec self now Hok) as [_ Hp].
    destruct (prune_to_time_spec self' now (add_job_inv _ _ _ _ Hok)) as [_ Hp'].
    unfold self' at 2 in Hp'. rewrite add_job_perm in Hp'.
    change (cores_total self') with (cores_total self).
    destruct (decide (ends_after now (start_t + est, c))) as [Hin|Hout].
    + rewrite filter_cons_True in Hp' by done. rewrite <- Hp in Hp'.
      assert (Er : running_cores (prune_to_time self' now)
                   = c + running_cores (prune_to_time self now)).
      { unfold running_cores. rewrite (py_sum_perm _ _ (Permutation_map snd Hp')).
        apply py_sum_cons. }
      rewrite Er, (sorted_perm_eq _ _ Hp'). cbn [sorted].
      set (avail := cores_total self - running_cores (prune_to_time self now)).
      replace (cores_total self - (c + running_cores (prune_to_time self now)))
        with (avail - c) by (unfold avail; lia).
      destruct (Z.leb_spec k avail); destruct (Z.leb_spec k (avail - c)); try lia.
      * apply release_loop_ge.
      * by apply release_loop_insert.
    + rewrite filter_cons_False in Hp' by done. rewrite <- Hp in Hp'.
      rewrite (running_cores_perm _ _ Hp'), (sorted_perm_eq _ _ Hp'). done.
Qed.

Lemma earliest_start_for_monotone_witness :
  let self := mkServerSched 4 [(200, 4)] in
  (earliest_start_for self 100 2).1 ≤ (earliest_start_for self 100 3).1 ∧
  (earliest_start_for self 100 2).1
  ≤ (earliest_start_for (add_job self 100 1 50).2 100 2).1.
Proof.
  intros self.
  destruct (earliest_start_for_monotone self 100 2 eq_refl) as [H1 H2].
  split; [apply H1; lia|apply H2; lia].
Defined.

(** C1: [earliest_start_for(now, c_need)] is the [earliestStartFor] of the
    specification.  The call leaves the model pruned to [now] (the entries
    [retained], same capacity, still a heap); it answers [now] when
    [cores_total] minus the retained cores meets [c_need]; otherwise its
    answer is the spec's release walk over the retained entries in an order
    of non-decreasing end time (the one [sorted] gives).  When no retained
    entry has a negative core count, every order of non-decreasing end time
    gives that same answer: ties in the end time do not matter. *)
Theorem earliest_start_for_as_specified (self : ServerSched) (now c_need : Z) :
  heap_ok (heap self) = true →
  let retained := spec_retained now (heap self) in
  let result := earliest_start_for self now c_need in
  heap result.2 ≡ₚ retained ∧
  cores_total result.2 = cores_total self ∧
  heap_ok (heap result.2) = true ∧
  (c_need ≤ cores_total self - spec_runningCores retained → result.1 = now) ∧
  (∃ order, order ≡ₚ retained ∧ Sorted end_time_le order ∧
     result.1 = spec_earliestStartFor (cores_total self) (heap self) order now c_need) ∧
  (Forall (λ e : entry, 0 ≤ e.2) retained →
   ∀ order, order ≡ₚ retained → Sorted end_time_le order →
     result.1 = spec_earliestStartFor (cores_total self) (heap self) order now c_need).
Proof.
  intros Hok%heap_ok_inv retained result.
  destruct (prune_to_time_spec self now Hok) as [Hinv Hp].
  fold (spec_retained now (heap self)) in Hp. fold retained in Hp.
  assert (Erun : running_cores (prune_to_time self now) = spec_runningCores retained).
  { rewrite spec_runningCores_py_sum. unfold running_cores.
    apply py_sum_perm. by apply Permutation_map. }
  assert (Etime : ∀ order, sorted order = sorted retained →
            (∀ t a k, release_loop (sorted order) t a k = release_loop order t a k) →
            result.1 = spec_earliestStartFor (cores_total self) (heap self) order now c_need).
  { intros order Es Hr. unfold result. rewrite earliest_start_for_time. cbv zeta.
    unfold spec_earliestStartFor. fold retained. rewrite Erun.
    destruct (_ <=? _); [done|].
    by rewrite <- release_loop_spec, <- Hr, Es, (sorted_perm_eq _ _ Hp). }
  unfold result. rewrite earliest_start_for_model. fold result.
  split; [done|]. split; [done|]. split; [by apply heap_ok_inv|]. split; [|split].
  - intros Hle. unfold result. rewrite earliest_start_for_time. cbv zeta.
    rewrite Erun. by destruct (Z.leb_spec c_need (cores_total self - spec_runningCores retained)); [|lia].
  - exists (sorted retained). split; [apply sorted_perm|].
    split; [apply Sorted_entry_le_end, sorted_Sorted|].
    apply Etime; [apply sorted_perm_eq, sorted_perm|].
    intros t a k. by rewrite (sorted_perm_eq _ _ (sorted_perm retained)).
  - intros Hc order Ho Hs. apply Etime; [by apply sorted_perm_eq|].
    apply release_loop_sorted; [done|]. by rewrite Ho.
Qed.

Lemma earliest_start_for_as_specified_witness :
  let self := mkServerSched 4 [(150, 1); (300, 2); (200, 1)] in
  (earliest_start_for self 160 3).1
  = spec_earliestStartFor 4 (heap self) [(200, 1); (300, 2)] 160 3.
Proof.
  intros self.
  destruct (earliest_start_for_as_specified self 160 3 eq_refl)
    as (_ & _ & _ & _ & _ & H).
  assert (E : spec_retained 160 (heap self) = [(300, 2); (200, 1)]) by reflexivity.
  apply H; rewrite ?E.
  - repeat constructor; simpl; lia.
  - apply perm_swap.
  - repeat constructor; unfold end_time_le; simpl; lia.
Defined.

Lemma prune_all_empties times : ∀ self,
  heap_inv (heap self) →
  (∀ e, e ∈ heap self → ∃ t, t ∈ times ∧ e.1 ≤ t) →
  heap (prune_all self times) = [].
Proof.
  induction times as [|t times IH]; intros self Hinv Hcov.
  { unfold prune_all. cbn [fold_left].
    destruct (heap self) as [|e h] eqn:E; [done|].
    destruct (Hcov e) as (t & Ht & _); [left|]. by apply elem_of_nil in Ht. }
  unfold prune_all. cbn [fold_left]. apply IH.
  - by apply prune_to_time_spec.
  - intros e He. destruct (prune_to_time_spec self t Hinv) as [_ Hp].
    rewrite Hp in He. apply list_elem_of_filter in He as [Hgt He].
    destruct (Hcov e He) as (t' & Ht' & Hle). unfold ends_after in Hgt.
    apply elem_of_cons in Ht' as [->|Ht']; [lia|]. eauto.
Qed.

Lemma add_jobs_spec jobs : ∀ self,
  heap_inv (heap self) →
  heap_inv (heap (add_jobs self jobs)) ∧
  ∀ e, e ∈ heap (add_jobs self jobs) → e ∈ heap self ∨ e.1 ∈ map job_end jobs.
Proof.
  induction jobs as [|[[s c] d] jobs IH]; intros self Hinv; [by split; auto|].
  unfold add_jobs. cbn [fold_left]. fold (add_jobs (add_job self s c d).2 jobs).
  destruct (IH (add_job self s c d).2) as [Hi He]; [by apply add_job_inv|].
  split; [done|]. intros e Hin. destruct (He e Hin) as [H|H].
  - rewrite add_job_perm in H. apply elem_of_cons in H as [->|H]; [|by left].
    right. left.
  - right. by right.
Qed.

(** C7: on a fresh model, after [add_job] for each job of [jobs] and then
    [prune_to_time] at each job's end time, taken in the order the jobs end,
    [running_cores()] is 0. *)
Theorem add_then_prune_at_each_end (total : Z) (jobs : list (Z * Z * Z)) (times : list Z) :
  times ≡ₚ map job_end jobs → Sorted Z.le times →
  running_cores (prune_all (add_jobs (ServerSched_init total) jobs) times) = 0.
Proof.
  intros Hp _.
  destruct (add_jobs_spec jobs (ServerSched_init total) heap_inv_nil) as [Hinv Hin].
  unfold running_cores. rewrite (prune_all_empties times); [done|done|].
  intros e He. exists e.1. split; [|lia].
  destruct (Hin e He) as [H|H]; [by apply elem_of_nil in H|]. by rewrite Hp.
Qed.

Lemma add_then_prune_at_each_end_witness :
  running_cores
    (prune_all (add_jobs (ServerSched_init 8) [(10, 4, 40); (0, 2, 30); (5, 1, 25)])
               [30; 30; 50]) = 0.
Proof.
  apply add_then_prune_at_each_end.
  - apply (Permutation_app_comm [30; 30] [50]).
  - repeat constructor; lia.
Defined.

(** * The placement decision *)

(** ** Lexicographic products of strict weak orders *)

Lemma StrictWeak_unit : StrictWeak (λ _, True) unit_eqb unit_ltb.
Proof. by split; auto. Qed.

Lemma StrictWeak_Z : StrictWeak (λ _, True) Z.eqb Z.ltb.
Proof.
  split; intros; rewrite ?Z.eqb_eq, ?Z.ltb_lt, ?Z.eqb_neq in *; lia.
Qed.

(** Tuples of comparable fields are comparable. *)
Lemma StrictWeak_tuple {A B} PA PB (eqa lta : A → A → bool) (eqr ltr : B → B → bool) :
  StrictWeak PA eqa lta → StrictWeak PB eqr ltr →
  StrictWeak (λ x, PA x.1 ∧ PB x.2) (tuple_eqb eqa eqr) (tuple_ltb eqa lta ltr).
Proof.
  intros HA HB. unfold tuple_eqb, tuple_ltb.
  split.
  - intros [a r] [Ha Hr]; simpl in *.
    by rewrite (sw_refl _ _ _ HA), (sw_refl _ _ _ HB).
  - intros [a r] [b s] [Ha Hr] [Hb Hs]; simpl in *.
    intros [E1 E2]%andb_true_iff.
    by rewrite (sw_sym _ _ _ HA a b), (sw_sym _ _ _ HB r s).
  - intros [a r] [b s] [c u] [Ha Hr] [Hb Hs] [Hc Hu]; simpl in *.
    intros [E1 E2]%andb_true_iff [E3 E4]%andb_true_iff.
    by rewrite (sw_eq_trans _ _ _ HA a b c), (sw_eq_trans _ _ _ HB r s u).
  - intros [a r] [b s] [Ha Hr] [Hb Hs]; simpl in *.
    destruct (eqa a b) eqn:E; simpl; [|done].
    intros Hlt. by rewrite (sw_lt_neq _ _ _ HB r s).
  - intros [a r] [b s] [c u] [Ha Hr] [Hb Hs] [Hc Hu]; simpl in *.
    destruct (eqa a b) eqn:E1; destruct (eqa b c) eqn:E2; simpl; intros L1 L2.
    + rewrite (sw_eq_trans _ _ _ HA a b c) by done. simpl.
      by apply (sw_lt_trans _ _ _ HB r s u).
    + pose proof (sw_eq_lt _ _ _ HA a b c Ha Hb Hc E1 L2) as L.
      by rewrite (sw_lt_neq _ _ _ HA a c).
    + pose proof (sw_lt_eq _ _ _ HA a b c Ha Hb Hc L1 E2) as L.
      by rewrite (sw_lt_neq _ _ _ HA a c).
    + pose proof (sw_lt_trans _ _ _ HA a b c Ha Hb Hc L1 L2) as L.
      by rewrite (sw_lt_neq _ _ _ HA a c).
  - intros [a r] [b s] [c u] [Ha Hr] [Hb Hs] [Hc Hu]; simpl in *.
    intros L1 [E3 E4]%andb_true_iff.
    destruct (eqa a b) eqn:E1; simpl in *.
    + rewrite (sw_eq_trans _ _ _ HA a b c) by done. simpl.
      by apply (sw_lt_eq _ _ _ HB r s u).
    + pose proof (sw_lt_eq _ _ _ HA a b c Ha Hb Hc L1 E3) as L.
      by rewrite (sw_lt_neq _ _ _ HA a c).
  - intros [a r] [b s] [c u] [Ha Hr] [Hb Hs] [Hc Hu]; simpl in *.
    intros [E1 E2]%andb_true_iff L2.
    destruct (eqa b c) eqn:E3; simpl in *.
    + rewrite (sw_eq_trans _ _ _ HA a b c) by done. simpl.
      by apply (sw_eq_lt _ _ _ HB r s u).
    + pose proof (sw_eq_lt _ _ _ HA a b c Ha Hb Hc E1 L2) as L.
      by rewrite (sw_lt_neq _ _ _ HA a c).
  - intros [a r] [b s] [Ha Hr] [Hb Hs]; simpl in *.
    destruct (eqa a b) eqn:E; simpl.
    + rewrite (sw_sym _ _ _ HA a b) by done. simpl.
      by apply (sw_total _ _ _ HB).
    + intros _.
      assert (eqa b a = false) as ->.
      { destruct (eqa b a) eqn:E'; [|done].
        by rewrite (sw_sym _ _ _ HA b a) in E. }
      simpl. by apply (sw_total _ _ _ HA).
Qed.

(** A strict weak order is asymmetric. *)
Lemma sw_asym {A} P (eqb ltb : A → A → bool) :
  StrictWeak P eqb ltb →
  ∀ a b, P a → P b → ltb a b = true → ltb b a = false.
Proof.
  intros H a b Ha Hb L. destruct (ltb b a) eqn:L'; [|done].
  pose proof (sw_lt_trans _ _ _ H a b a Ha Hb Ha L L') as Laa.
  apply (sw_lt_neq _ _ _ H) in Laa; [|done..].
  by rewrite (sw_refl _ _ _ H) in Laa.
Qed.

(** ** Strings *)

Lemma String_ltb_lt s1 s2 : String.ltb s1 s2 = true ↔ String_as_OT.lt s1 s2.
Proof.
  rewrite <- String_as_OT.cmp_lt. unfold String.ltb, String_as_OT.cmp.
  destruct (String.compare s1 s2); split; congruence.
Qed.

(** Python's [==] and [<] on strings. *)
Lemma StrictWeak_string : StrictWeak (λ _, True) String.eqb String.ltb.
Proof.
  split; intros *; rewrite ?String.eqb_eq, ?String.eqb_neq, ?String_ltb_lt.
  - done.
  - done.
  - intros _ _ _. congruence.
  - intros _ _ H ->. by apply String_as_OT.lt_not_eq in H.
  - intros _ _ _. apply String_as_OT.lt_trans.
  - by intros _ _ _ H <-.
  - by intros _ _ _ -> H.
  - intros _ _ Hne.
    destruct (String_as_OT.compare a b) as [H|H|H]; [by left|done|by right].
Qed.







(** ** The least item of a fold

    [min] and the general path's loop both keep the smaller of the best so
    far and the next item; under a strict weak order nothing of the list is
    below what they end with. *)
Section MinFold.
Context {A : Type} (P : A → Prop) (eqb ltb : A → A → bool).
Hypothesis SW : StrictWeak P eqb ltb.

Lemma sw_le_trans a b c :
  P a → P b → P c → ltb b a = false → ltb c b = false → ltb c a = false.
Proof.
  intros Ha Hb Hc Hba Hcb. destruct (ltb c a) eqn:Hca; [|done]. exfalso.
  destruct (eqb a b) eqn:Eab.
  - pose proof (sw_lt_eq _ _ _ SW c a b Hc Ha Hb Hca Eab). congruence.
  - destruct (sw_total _ _ _ SW a b Ha Hb Eab) as [L|L]; [|congruence].
    pose proof (sw_lt_trans _ _ _ SW c a b Hc Ha Hb Hca L). congruence.
Qed.

Lemma fold_pick_elem l : ∀ b, fold_left (pick ltb) l b ∈ b :: l.
Proof.
  induction l as [|y l IH]; intros b; cbn [fold_left]; [left|].
  specialize (IH (pick ltb b y)).
  apply elem_of_cons in IH as [->|IH]; [|by do 2 right].
  unfold pick. destruct (ltb y b); [right; left|left].
Qed.

Lemma fold_pick_least l : ∀ b, P b → Forall P l →
  ∀ x, x ∈ b :: l → ltb x (fold_left (pick ltb) l b) = false.
Proof.
  induction l as [|y l IH]; intros b Hb Hl x Hx; cbn [fold_left].
  { apply list_elem_of_singleton in Hx as ->.
    destruct (ltb b b) eqn:E; [|done].
    apply (sw_lt_neq _ _ _ SW) in E; [|done..].
    by rewrite (sw_refl _ _ _ SW) in E. }
  apply Forall_cons in Hl as [Hy Hl].
  assert (Hb' : P (pick ltb b y)) by (unfold pick; by destruct (ltb y b)).
  pose proof (IH _ Hb' Hl) as Hmin.
  set (m := fold_left (pick ltb) l (pick ltb b y)) in *.
  assert (Hm : P m).
  { pose proof (fold_pick_elem l (pick ltb b y)) as Hin. fold m in Hin.
    apply elem_of_cons in Hin as [->|Hin]; [done|].
    by eapply Forall_forall in Hin. }
  assert (Hpm : ltb (pick ltb b y) m = false) by (apply Hmin; left).
  apply elem_of_cons in Hx as [->|Hx]; [|apply elem_of_cons in Hx as [->|Hx]].
  - unfold pick in Hpm. destruct (ltb y b) eqn:E; [|done].
    apply (sw_le_trans m y b); try done. by apply (sw_asym _ _ _ SW).
  - unfold pick in Hpm. destruct (ltb y b) eqn:E; [done|].
    by apply (sw_le_trans m b y).
  - apply Hmin. by right.
Qed.
End MinFold.

(** ** The order on candidate tuples *)

Lemma cand_ltb_tuple a b : cand_ltb a b = cand_tuple_ltb (cand_tuple a) (cand_tuple b).
Proof. reflexivity. Qed.




Lemma StrictWeak_preimage {A B} (f : A → B) P (eqb ltb : B → B → bool) :
  StrictWeak P eqb ltb →
  StrictWeak (λ a, P (f a)) (λ a b, eqb (f a) (f b)) (λ a b, ltb (f a) (f b)).
Proof.
  intros [H1 H2 H3 H4 H5 H6 H7 H8]. split.
  - intros a. apply H1.
  - intros a b. apply H2.
  - intros a b c. apply H3.
  - intros a b. apply H4.
  - intros a b c. apply H5.
  - intros a b c. apply H6.
  - intros a b c. apply H7.
  - intros a b. apply H8.
Qed.






(** ** The general path's loop *)

Lemma consider_spec info args j est m0 m best s :
  float_of_int (j_est j) = Ok est →
  m !! row_key s = m0 !! row_key s →
  consider info args (submit j) j (m, best) s =
  Ok (<[row_key s := prune_to_time (model_of info m0 s) (submit j)]> m,
      match best with
      | None => Some (cand_of info args j est m0 s)
      | Some b => Some (pick cand_ltb b (cand_of info args j est m0 s))
      end).
Proof.
  intros Hest Hm. unfold consider.
  change (m !! (row_type s, row_id s)) with (m !! row_key s). rewrite Hm.
  fold (model_of info m0 s).
  rewrite (surjective_pairing (earliest_start_for _ _ _)).
  rewrite earliest_start_for_model, Hest. cbn [mbind result_bind].
  unfold cand_of, pick, row_key. destruct best as [b|]; [|done].
  by destruct (cand_ltb _ b).
Qed.

(** With distinct [(type, id)] the loop sees every candidate's model as it
    was before the loop: it leaves every queried model pruned and the
    smallest tuple in [best_tuple]. *)
Lemma consider_all_spec info args j est m0 caps : ∀ m best,
  float_of_int (j_est j) = Ok est →
  NoDup (map row_key caps) →
  (∀ s, s ∈ caps → m !! row_key s = m0 !! row_key s) →
  consider_all info args (submit j) j caps (m, best) =
  Ok (queried info (submit j) m0 caps m, best_after info args j est m0 caps best).
Proof.
  induction caps as [|s caps IH]; intros m best Hest Hd Hm; [done|].
  cbn [map] in Hd. apply NoDup_cons in Hd as [Hs Hd].
  cbn [consider_all]. rewrite (consider_spec _ _ _ est m0) by (auto; apply Hm; left).
  cbn [mbind result_bind]. rewrite IH; [done|done|done|].
  intros s' Hs'. rewrite lookup_insert_ne; [apply Hm; by right|].
  intros E. apply Hs. rewrite E. apply list_elem_of_In, in_map. by apply list_elem_of_In.
Qed.

Lemma best_after_cons info args j est m0 s caps :
  best_after info args j est m0 (s :: caps) None =
  Some (fold_left (pick cand_ltb) (map (cand_of info args j est m0) caps)
                  (cand_of info args j est m0 s)).
Proof.
  unfold best_after. cbn [fold_left].
  generalize (cand_of info args j est m0 s) as b.
  induction caps as [|s' caps IH]; intros b; [done|]. cbn [fold_left map]. apply IH.
Qed.


Lemma queried_cons info now m0 s caps acc :
  queried info now m0 (s :: caps) acc
  = queried info now m0 caps
      (<[row_key s := prune_to_time (model_of info m0 s) now]> acc).
Proof. done. Qed.

Lemma queried_lookup_other info now m0 caps : ∀ acc k,
  k ∉ map row_key caps → queried info now m0 caps acc !! k = acc !! k.
Proof.
  induction caps as [|s caps IH]; intros acc k Hk; [done|].
  cbn [map] in Hk. apply not_elem_of_cons in Hk as [Hne Hk].
  rewrite queried_cons, IH by done. by apply lookup_insert_ne.
Qed.

Lemma queried_lookup info now m0 caps : ∀ acc s,
  NoDup (map row_key caps) → s ∈ caps →
  queried info now m0 caps acc !! row_key s
  = Some (prune_to_time (model_of info m0 s) now).
Proof.
  induction caps as [|s0 caps IH]; intros acc s Hd Hs; [by apply elem_of_nil in Hs|].
  cbn [map] in Hd. apply NoDup_cons in Hd as [Hs0 Hd]. rewrite queried_cons.
  apply elem_of_cons in Hs as [->|Hs]; [|by apply IH].
  rewrite queried_lookup_other by done. apply lookup_insert_eq.
Qed.

Lemma decide_placement_general info args m j caps reply est :
  filter (λ s, is_instant j s = true) caps = [] →
  float_of_int (j_est j) = Ok est →
  NoDup (map row_key caps) →
  decide_placement info args m j caps reply =
  match best_after info args j est m caps None with
  | None => ([], Raise TypeError)
  | Some best_tuple =>
      ([SCHD (job_id j) (c_type best_tuple) (c_id best_tuple)],
       _ ← expect_ok reply;
       record_job (queried info (submit j) m caps m) (c_type best_tuple)
         (c_id best_tuple) (c_start best_tuple) j)
  end.
Proof.
  intros Hf Hest Hd. unfold decide_placement. rewrite Hf.
  rewrite (consider_all_spec _ _ _ est m) by done. done.
Qed.



Lemma elem_of_map_1 {A B} (f : A → B) (l : list A) x : x ∈ l → f x ∈ map f l.
Proof. intros Hx. apply list_elem_of_In, in_map. by apply list_elem_of_In. Qed.

Lemma elem_of_map_inv {A B} (f : A → B) (l : list A) y :
  y ∈ map f l → ∃ x, y = f x ∧ x ∈ l.
Proof.
  intros Hy%list_elem_of_In%in_map_iff. destruct Hy as (x & <- & Hx).
  exists x. split; [done|]. by apply list_elem_of_In.
Qed.




(** ** Scenario B *)

Lemma earliest_start_for_empty total now k :
  earliest_start_for (ServerSched_init total) now k = (now, ServerSched_init total).
Proof.
  unfold earliest_start_for. cbn. by destruct (k <=? total - 0).
Qed.

Lemma earliest_start_for_single total e c now k :
  now < e → total - c < k → k ≤ total →
  earliest_start_for (mkServerSched total [(e, c)]) now k
  = (e, mkServerSched total [(e, c)]).
Proof.
  intros He Hk Hk'. unfold earliest_start_for, prune_to_time.
  cbn [heap cores_total length prune_loop fst].
  destruct (Z.leb_spec e now); [lia|].
  unfold running_cores, py_sum. cbn [heap map snd fold_left cores_total sorted sorted_insert release_loop].
  rewrite Z.add_0_l.
  destruct (Z.leb_spec k (total - c)); [lia|].
  destruct (Z.ltb_spec now e); [|lia].
  destruct (Z.leb_spec k (total - c + c)); [done|lia].
Qed.

Lemma scenarioB_eval (rates : gmap string float) (args : Args) (e c : Z) caps :
  160 < e → 3 ≤ c →
  caps = [scenarioB_big; scenarioB_small] ∨ caps = [scenarioB_small; scenarioB_big] →
  best_after (scenarioB_info rates) args scenarioB_job 50%float
             (scenarioB_models (e, c)) caps None
  = Some (cand_of (scenarioB_info rates) args scenarioB_job 50%float
             (scenarioB_models (e, c)) scenarioB_big) ∧
  c_start (cand_of (scenarioB_info rates) args scenarioB_job 50%float
             (scenarioB_models (e, c)) scenarioB_big) = 160 ∧
  c_finish (cand_of (scenarioB_info rates) args scenarioB_job 50%float
             (scenarioB_models (e, c)) scenarioB_big) = 210.
Proof.
  intros He Hc Hcaps.
  assert (Eb : model_of (scenarioB_info rates) (scenarioB_models (e, c)) scenarioB_big
               = ServerSched_init 8) by reflexivity.
  assert (Es : model_of (scenarioB_info rates) (scenarioB_models (e, c)) scenarioB_small
               = mkServerSched 4 [(e, c)]) by reflexivity.
  set (cb := cand_of (scenarioB_info rates) args scenarioB_job 50%float
               (scenarioB_models (e, c)) scenarioB_big).
  set (cs := cand_of (scenarioB_info rates) args scenarioB_job 50%float
               (scenarioB_models (e, c)) scenarioB_small).
  assert (Ebs : c_start cb = 160).
  { unfold cb, cand_of. cbn [c_start]. rewrite Eb, earliest_start_for_empty. reflexivity. }
  assert (Ebf : c_finish cb = 210).
  { unfold cb, cand_of. cbn [c_finish]. rewrite Eb, earliest_start_for_empty. reflexivity. }
  assert (Esf : c_finish cs = e + 50).
  { unfold cs, cand_of. cbn [c_finish]. rewrite Es.
    rewrite earliest_start_for_single by (cbn; lia).
    cbn [fst]. change (state_penalty_seconds _ _) with 0. cbn. lia. }
  assert (L1 : cand_ltb cs cb = false).
  { unfold cand_ltb. rewrite Esf, Ebf.
    destruct (Z.eqb_spec (e + 50) 210); [lia|]. cbn [negb]. apply Z.ltb_ge. lia. }
  assert (L2 : cand_ltb cb cs = true).
  { unfold cand_ltb. rewrite Esf, Ebf.
    destruct (Z.eqb_spec 210 (e + 50)); [lia|]. cbn [negb]. apply Z.ltb_lt. lia. }
  split; [|done].
  destruct Hcaps as [-> | ->]; rewrite best_after_cons; cbn [map fold_left];
    fold cb cs; unfold pick; by rewrite ?L1, ?L2.
Qed.



(** C6, amended: in scenario B, when the prior job on "small" holds at
    least 3 of its 4 cores and ends after time 160, and nothing is recorded
    on "big", the job (2 cores, submitted at 100, estimate 50) is placed on
    "big" with predicted start 160 and predicted finish 210, whatever the
    hourly rates, the options and the order of the two rows; the model of
    "big" then holds [(210, 2)] and the model of "small" is unchanged. *)
Theorem scenarioB_placed_on_big (rates : gmap string float) (args : Args)
    (e c : Z) (caps : list ServerRow) :
  160 < e → 3 ≤ c →
  caps = [scenarioB_big; scenarioB_small] ∨ caps = [scenarioB_small; scenarioB_big] →
  ∃ best m',
    best_after (scenarioB_info rates) args scenarioB_job 50%float
               (scenarioB_models (e, c)) caps None = Some best ∧
    c_type best = "big" ∧ c_start best = 160 ∧ c_finish best = 210 ∧
    decide_placement (scenarioB_info rates) args (scenarioB_models (e, c))
      scenarioB_job caps "OK" = ([SCHD 7 "big" 0], Ok m') ∧
    m' !! ("big", 0) = Some (mkServerSched 8 [(210, 2)]) ∧
    m' !! ("small", 0) = Some (mkServerSched 4 [(e, c)]).
Proof.
  intros He Hc Hcaps.
  destruct (scenarioB_eval rates args e c caps He Hc Hcaps) as (Hbest & Hs & Hf).
  set (info := scenarioB_info rates) in *.
  set (m := scenarioB_models (e, c)) in *.
  set (best := cand_of info args scenarioB_job 50 m scenarioB_big) in *.
  assert (Hd : NoDup (map row_key caps)).
  { destruct Hcaps as [-> | ->]; apply (bool_decide_unpack _); vm_compute; exact I. }
  assert (Hfil : filter (λ s, is_instant scenarioB_job s = true) caps = [])
    by (by destruct Hcaps as [-> | ->]).
  assert (Hqb : queried info 100 m caps m !! ("big", 0) = Some (ServerSched_init 8)).
  { change ("big", 0) with (row_key scenarioB_big).
    rewrite queried_lookup; [done|done|]. destruct Hcaps as [-> | ->]; set_solver. }
  assert (Hqs : queried info 100 m caps m !! ("small", 0)
                = Some (mkServerSched 4 [(e, c)])).
  { change ("small", 0) with (row_key scenarioB_small).
    rewrite queried_lookup; [|done|destruct Hcaps as [-> | ->]; set_solver].
    f_equal. change (model_of info m scenarioB_small) with (mkServerSched 4 [(e, c)]).
    unfold prune_to_time. cbn [heap cores_total length prune_loop fst].
    destruct (Z.leb_spec e 100); [lia|done]. }
  exists best. eexists. split; [done|]. split; [done|]. split; [done|]. split; [done|].
  split; [|split].
  - rewrite (decide_placement_general _ _ _ _ _ _ 50%float) by done.
    rewrite Hbest. change (submit scenarioB_job) with 100. rewrite Hs.
    change (c_type best) with "big". change (c_id best) with 0.
    change (expect_ok "OK") with (Ok tt). cbn [mbind result_bind].
    unfold record_job. rewrite Hqb. reflexivity.
  - by rewrite lookup_insert_eq.
  - by rewrite lookup_insert_ne.
Qed.

Lemma scenarioB_placed_on_big_witness :
  ∃ best m',
    best_after (scenarioB_info scenarioB_rates) default_args scenarioB_job 50%float
               (scenarioB_models (300, 4)) [scenarioB_big; scenarioB_small] None
      = Some best ∧
    c_type best = "big" ∧ c_start best = 160 ∧ c_finish best = 210 ∧
    decide_placement (scenarioB_info scenarioB_rates) default_args
      (scenarioB_models (300, 4)) scenarioB_job
      [scenarioB_big; scenarioB_small] "OK" = ([SCHD 7 "big" 0], Ok m') ∧
    m' !! ("big", 0) = Some (mkServerSched 8 [(210, 2)]) ∧
    m' !! ("small", 0) = Some (mkServerSched 4 [(300, 4)]).
Proof.
  apply (scenarioB_placed_on_big scenarioB_rates default_args 300 4); [lia|lia|].
  left. reflexivity.
Defined.

(** C6 as stated fails: with a prior job on "small" that holds its 4 cores
    until exactly 160, "small" frees capacity no earlier than "big" is up,
    both tuples have start 160 and finish 210, and the tie goes to "small"
    (the smaller cost bias; with equal rates, the smaller capacity). *)
Lemma scenarioB_prior_job_ending_at_160 :
  decide_placement (scenarioB_info scenarioB_rates) default_args
    (scenarioB_models (160, 4)) scenarioB_job
    [scenarioB_big; scenarioB_small] "OK"
  = ([SCHD 7 "small" 0],
     Ok {[ ("big", 0) := ServerSched_init 8;
           ("small", 0) := mkServerSched 4 [(160, 4); (210, 2)] ]}).
Proof. vm_compute. exact eq_refl. Qed.

(** ** The fast path *)
Lemma StrictWeak_fast_key :
  StrictWeak (λ _, True) (λ a b, fast_tuple_eqb (fast_tuple a) (fast_tuple b)) fast_key_ltb.
Proof.
  pose proof (StrictWeak_tuple _ _ _ _ _ _ StrictWeak_Z StrictWeak_unit) as H3.
  pose proof (StrictWeak_tuple _ _ _ _ _ _ StrictWeak_string H3) as H2.
  pose proof (StrictWeak_tuple _ _ _ _ _ _ StrictWeak_Z H2) as H1.
  pose proof (StrictWeak_preimage fast_tuple _ _ _ H1) as H.
  assert (E : ∀ a b, fast_key_ltb a b = fast_tuple_ltb (fast_tuple a) (fast_tuple b))
    by (by intros [[??]?] [[??]?]).
  destruct H as [R S T N LT LE EL TO]. split.
  - intros a _. by apply R.
  - intros a b _ _. by apply S.
  - intros a b c _ _ _. by apply T.
  - intros a b _ _. rewrite E. by apply N.
  - intros a b c _ _ _. rewrite !E. by apply LT.
  - intros a b c _ _ _. rewrite !E. by apply LE.
  - intros a b c _ _ _. rewrite !E. by apply EL.
  - intros a b _ _. rewrite !E. by apply TO.
Qed.

Lemma py_min_pick first rest : py_min first rest = fold_left (pick fast_key_ltb) rest first.
Proof. done. Qed.

(** What [fast_key_ltb b a = false] says: [a] is not above [b]. *)
Lemma fast_key_le_spec (a b : fast_key) :
  fast_key_ltb b a = false →
  a.1.1 < b.1.1 ∨
  (a.1.1 = b.1.1 ∧ (String.ltb a.1.2 b.1.2 = true ∨ (a.1.2 = b.1.2 ∧ a.2 ≤ b.2))).
Proof.
  destruct a as [[ca ta] ia], b as [[cb tb] ib]. unfold fast_key_ltb. simpl.
  destruct (Z.eqb_spec cb ca) as [->|Hc]; simpl; [|rewrite Z.ltb_ge; lia].
  destruct (String.eqb_spec tb ta) as [->|Ht]; simpl.
  - destruct (Z.eqb_spec ib ia) as [->|Hi]; simpl; [intros _|rewrite Z.ltb_ge; intros].
    + right. split; [done|]. right. split; [done|lia].
    + right. split; [done|]. right. split; [done|lia].
  - intros Hlt. right. split; [done|]. left.
    destruct (sw_total _ _ _ StrictWeak_string tb ta I I) as [L|L]; [|congruence|done].
    by apply String.eqb_neq.
Qed.

Lemma decide_placement_fast info args m j caps reply s0 instant :
  filter (λ s, is_instant j s = true) caps = s0 :: instant →
  decide_placement info args m j caps reply =
  let best := py_min (fast_key_of info s0) (map (fast_key_of info) instant) in
  ([SCHD (job_id j) best.1.2 best.2],
   _ ← expect_ok reply; record_job m best.1.2 best.2 (submit j) j).
Proof.
  intros Ef. unfold decide_placement. rewrite Ef. cbv zeta.
  change (λ s, (total_cores_of info s, row_type s, row_id s)) with (fast_key_of info).
  change ((total_cores_of info s0, row_type s0, row_id s0)) with (fast_key_of info s0).
  by destruct (py_min _ _) as [[? ?] ?].
Qed.

(** X12: the fast path, when some candidate is immediately runnable: the
    decision is the least key among exactly those candidates; the job is
    recorded when the reply is [OK] and the chosen server is tracked. *)
Lemma fast_path_selects_smallest (info : SystemInfo) (args : Args) (m : SchedMap)
    (j : Job) (caps : list ServerRow) (reply : string) :
  filter (λ s, is_instant j s = true) caps ≠ [] →
  ∃ s, s ∈ filter (λ s, is_instant j s = true) caps ∧
    (∀ s', s' ∈ caps → is_instant j s' = true →
       total_cores_of info s < total_cores_of info s' ∨
       (total_cores_of info s = total_cores_of info s' ∧
        (String.ltb (row_type s) (row_type s') = true ∨
         (row_type s = row_type s' ∧ row_id s ≤ row_id s')))) ∧
    decide_placement info args m j caps reply =
      ([SCHD (job_id j) (row_type s) (row_id s)],
       _ ← expect_ok reply; record_job m (row_type s) (row_id s) (submit j) j) ∧
    (∀ sched, reply = "OK" → m !! (row_type s, row_id s) = Some sched →
       (decide_placement info args m j caps reply).2 =
       Ok (<[(row_type s, row_id s) :=
              mkServerSched (cores_total sched)
                (heapq.heappush (heap sched) (submit j + j_est j, j_cores j))]> m)).
Proof.
  intros Hne.
  destruct (filter (λ s, is_instant j s = true) caps) as [|s0 instant] eqn:Ef; [done|].
  pose proof (decide_placement_fast info args m j caps reply _ _ Ef) as Hdec.
  rewrite py_min_pick in Hdec. cbv zeta in Hdec.
  pose proof (fold_pick_elem fast_key_ltb (map (fast_key_of info) instant)
                (fast_key_of info s0)) as Hin.
  change (fast_key_of info s0 :: map (fast_key_of info) instant)
    with (map (fast_key_of info) (s0 :: instant)) in Hin.
  apply elem_of_map_inv in Hin as (s & E & Hs).
  assert (Hmin : ∀ s', s' ∈ s0 :: instant →
            fast_key_ltb (fast_key_of info s') (fast_key_of info s) = false).
  { intros s' Hs'. rewrite <- E.
    apply (fold_pick_least _ _ _ StrictWeak_fast_key); [done|by apply Forall_true|].
    change (fast_key_of info s0 :: map (fast_key_of info) instant)
      with (map (fast_key_of info) (s0 :: instant)). by apply elem_of_map_1. }
  rewrite E in Hdec. cbn [fst snd fast_key_of] in Hdec.
  exists s. split; [done|]. split; [|split].
  - intros s' Hs' Hi. apply (fast_key_le_spec (fast_key_of info s) (fast_key_of info s')).
    apply Hmin. rewrite <- Ef. by apply list_elem_of_filter.
  - done.
  - intros sched -> Hm. rewrite Hdec. cbn [snd]. change (expect_ok "OK") with (Ok tt).
    cbn [mbind result_bind]. unfold record_job. by rewrite Hm.
Qed.

(** C5, the failing input: only "big" is tracked, and [GETS Capable]
    reports an idle "small" with 4 free cores and no queued job.  The fast
    path sends [SCHD 7 small 0] and then raises [KeyError] on
    [sched_by_srv[("small", 0)]]: the job is not recorded.  The general path
    on the same untracked server (reported with 0 free cores) creates its
    model and records the job. *)
Theorem fast_path_untracked_server_raises :
  let info := scenarioB_info scenarioB_rates in
  let tracked : SchedMap := {[ ("big", 0) := ServerSched_init 8 ]} in
  let idle_small := mkRow "small" 0 "idle" 0 4 4000 16000 0 0 in
  let busy_small := mkRow "small" 0 "idle" 0 0 4000 16000 0 1 in
  decide_placement info default_args tracked scenarioB_job [idle_small] "OK"
    = ([SCHD 7 "small" 0], Raise KeyError) ∧
  decide_placement info default_args tracked scenarioB_job [busy_small] "OK"
    = ([SCHD 7 "small" 0],
       Ok {[ ("big", 0) := ServerSched_init 8;
             ("small", 0) := mkServerSched 4 [(150, 2)] ]}).
Proof. split; vm_compute; exact eq_refl. Qed.

(** ** Completion events *)

(** C8: a [JCPL] event for a [(type, id)] with no tracked model sends
    nothing, raises nothing and leaves [sched_by_srv] as it was: no model
    and no entry is created, none is changed (the loop's [now] takes the
    event's time, as for every [JCPL]). *)
Theorem JCPL_for_untracked_server_is_noop (info : SystemInfo) (args : Args)
    (st : State) (t job : Z) (stype : string) (sid : Z) :
  sched_by_srv st !! (stype, sid) = None →
  step info args st (JCPL t job stype sid)
  = ([], Ok (Some (mkState (sched_by_srv st) t))) ∧
  handle_JCPL (sched_by_srv st) t stype sid = sched_by_srv st.
Proof.
  intros Hnone. unfold step, handle_JCPL. by rewrite Hnone.
Qed.

Lemma JCPL_for_untracked_server_is_noop_witness :
  step (scenarioB_info scenarioB_rates) default_args
       (mkState (scenarioB_models (300, 4)) 100) (JCPL 120 3 "medium" 0)
  = ([], Ok (Some (mkState (scenarioB_models (300, 4)) 120))).
Proof.
  apply (JCPL_for_untracked_server_is_noop (scenarioB_info scenarioB_rates)
           default_args (mkState (scenarioB_models (300, 4)) 100)).
  reflexivity.
Defined.

(** ** No candidates *)

Lemma consider_result info args now j acc s :
  (∃ m' b, consider info args now j acc s = Ok (m', Some b)) ∨
  consider info args now j acc s = Raise OverflowError.
Proof.
  unfold consider. destruct acc as [m best].
  destruct (earliest_start_for _ _ _) as [start sched].
  unfold float_of_int. destruct (PrimFloat.is_infinity _); [by right|left].
  cbn [mbind result_bind]. destruct best as [b|]; [|by eauto].
  destruct (cand_ltb _ b); by eauto.
Qed.

Lemma consider_all_result info args now j caps : ∀ m b,
  (∃ m' b', consider_all info args now j caps (m, Some b) = Ok (m', Some b')) ∨
  consider_all info args now j caps (m, Some b) = Raise OverflowError.
Proof.
  induction caps as [|s caps IH]; intros m b; [by left; eauto|].
  cbn [consider_all].
  destruct (consider_result info args now j (m, Some b) s) as [(m' & b' & ->)| ->];
    [|by right].
  cbn [mbind result_bind]. apply IH.
Qed.

Lemma decide_placement_not_TypeError info args m j caps reply :
  caps ≠ [] → (decide_placement info args m j caps reply).2 ≠ Raise TypeError.
Proof.
  intros Hne. unfold decide_placement.
  destruct (filter _ caps) as [|s0 instant].
  - destruct caps as [|s caps]; [done|]. cbn [consider_all].
    destruct (consider_result info args (submit j) j (m, None) s)
      as [(m' & b' & ->)| ->]; [|done].
    cbn [mbind result_bind].
    destruct (consider_all_result info args (submit j) j caps m' b')
      as [(m'' & b'' & ->)| ->]; [|done].
    cbn [snd]. unfold expect_ok, record_job.
    destruct (String.eqb reply "OK"); [|done]. cbn [mbind result_bind].
    by destruct (_ !! _).
  - destruct (py_min _ _) as [[? stype] sid]. cbn [snd].
    unfold expect_ok, record_job.
    destruct (String.eqb reply "OK"); [|done]. cbn [mbind result_bind].
    by destruct (_ !! _).
Qed.

(** C9, amended: when [GETS Capable] answers no row, the handler asks
    [GETS All] and runs the two-phase decision over that list, with the same
    outcome as if those rows had been the candidates; and when that list is
    not empty, the decision does not end in the [TypeError] of an empty
    candidate list. *)
Theorem empty_capable_set_widens_to_all (info : SystemInfo) (args : Args)
    (m : SchedMap) (j : Job) (r : Replies) :
  capable_rows r = [] →
  handle_JOBN info args m j r =
    (GETS_Capable (j_cores j) (j_mem j) (j_disk j) :: GETS_All ::
       (decide_placement info args m j (all_rows r) (schd_reply r)).1,
     (decide_placement info args m j (all_rows r) (schd_reply r)).2) ∧
  (all_rows r ≠ [] → (handle_JOBN info args m j r).2 ≠ Raise TypeError).
Proof.
  intros Hcap. unfold handle_JOBN. rewrite Hcap.
  destruct (decide_placement info args m j (all_rows r) (schd_reply r))
    as [sent res] eqn:E.
  split; [done|]. intros Hne. cbn [snd].
  pose proof (decide_placement_not_TypeError info args m j (all_rows r) (schd_reply r) Hne)
    as H. by rewrite E in H.
Qed.

Lemma empty_capable_set_widens_to_all_witness :
  (handle_JOBN (scenarioB_info scenarioB_rates) default_args
     (scenarioB_models (300, 4)) scenarioB_job
     (mkReplies [] [scenarioB_big; scenarioB_small] "OK")).2 ≠ Raise TypeError.
Proof.
  apply (empty_capable_set_widens_to_all (scenarioB_info scenarioB_rates) default_args
           (scenarioB_models (300, 4)) scenarioB_job
           (mkReplies [] [scenarioB_big; scenarioB_small] "OK")).
  - reflexivity.
  - discriminate.
Defined.

(** C9 as stated fails: when [GETS All] answers no row either, the loop
    over the candidates never runs, [best_tuple] is still [None], and
    unpacking it raises [TypeError]. *)
Lemma empty_capable_set_and_no_server_raises :
  handle_JOBN (scenarioB_info scenarioB_rates) default_args ∅ scenarioB_job
    (mkReplies [] [] "OK")
  = ([GETS_Capable 2 100 100; GETS_All], Raise TypeError).
Proof. reflexivity. Qed.

(** ** Every model [main] builds is a heap *)

Lemma init_models_ok info rows : models_ok (init_models info rows).
Proof.
  unfold init_models.
  assert (H : ∀ m, models_ok m →
    models_ok (fold_left
      (λ sched_by_srv s,
         <[(row_type s, row_id s) := ServerSched_init (total_cores_of info s)]> sched_by_srv)
      rows m)).
  { induction rows as [|s rows IH]; intros m Hm; [done|]. cbn [fold_left].
    apply IH. apply map_Forall_insert_2; [apply heap_inv_nil|done]. }
  apply H, map_Forall_empty.
Qed.

Lemma record_job_ok m stype sid start j m' :
  models_ok m → record_job m stype sid start j = Ok m' → models_ok m'.
Proof.
  intros Hm. unfold record_job. destruct (m !! (stype, sid)) as [sched|] eqn:E; [|done].
  intros [= <-]. apply map_Forall_insert_2; [|done].
  apply add_job_inv. by apply (Hm _ _ E).
Qed.

Lemma consider_ok info args now j m best s m' best' :
  models_ok m → consider info args now j (m, best) s = Ok (m', best') → models_ok m'.
Proof.
  intros Hm. unfold consider.
  rewrite (surjective_pairing (earliest_start_for _ _ _)), earliest_start_for_model.
  destruct (float_of_int (j_est j)); [|done]. cbn [mbind result_bind].
  intros [= <- _]. apply map_Forall_insert_2; [|done].
  apply prune_to_time_spec.
  destruct (m !! (row_type s, row_id s)) as [sched|] eqn:E;
    [by apply (Hm _ _ E)|apply heap_inv_nil].
Qed.

Lemma consider_all_ok info args now j caps : ∀ m best m' best',
  models_ok m → consider_all info args now j caps (m, best) = Ok (m', best') →
  models_ok m'.
Proof.
  induction caps as [|s caps IH]; intros m best m' best' Hm; cbn [consider_all].
  { by intros [= <- _]. }
  destruct (consider info args now j (m, best) s) as [[m1 b1]|] eqn:E; [|done].
  cbn [mbind result_bind]. apply IH. by eapply consider_ok.
Qed.

Lemma decide_placement_ok info args m j caps reply m' :
  models_ok m → (decide_placement info args m j caps reply).2 = Ok m' → models_ok m'.
Proof.
  intros Hm. unfold decide_placement. destruct (filter _ caps) as [|s0 instant].
  - destruct (consider_all _ _ _ _ _ _) as [[m1 [b|]]|] eqn:E; [|done..].
    cbn [snd]. destruct (expect_ok reply); [|done]. cbn [mbind result_bind].
    apply record_job_ok. by eapply consider_all_ok.
  - destruct (py_min _ _) as [[? stype] sid]. cbn [snd].
    destruct (expect_ok reply); [|done]. cbn [mbind result_bind].
    by apply record_job_ok.
Qed.

(** One turn of the loop keeps every model a heap. *)
Lemma step_models_ok info args st ev sent st' :
  models_ok (sched_by_srv st) →
  step info args st ev = (sent, Ok (Some st')) →
  models_ok (sched_by_srv st').
Proof.
  intros Hm. destruct ev as [j r|t job stype sid| |]; cbn [step].
  - destruct (handle_JOBN _ _ _ _ _) as [sent' res] eqn:E.
    destruct res as [m'|]; [|done]. cbn [mbind result_bind]. intros [= _ <-].
    cbn [sched_by_srv]. unfold handle_JOBN in E.
    destruct (capable_rows r) as [|s caps];
      [destruct (decide_placement info args (sched_by_srv st) j (all_rows r) (schd_reply r))
         as [s1 r1] eqn:E1
      |destruct (decide_placement info args (sched_by_srv st) j (s :: caps) (schd_reply r))
         as [s1 r1] eqn:E1];
      injection E as _ ->;
      (eapply decide_placement_ok; [exact Hm|by rewrite E1]).
  - intros [= _ <-]. cbn [sched_by_srv]. unfold handle_JCPL.
    destruct (sched_by_srv st !! (stype, sid)) as [sched|] eqn:E; [|done].
    apply map_Forall_insert_2; [|done]. apply prune_to_time_spec. by apply (Hm _ _ E).
  - done.
  - by intros [= _ <-].
Qed.

(** * Further properties of the timeline model *)

(** ** Free cores over time *)

Lemma spec_runningCores_cons (e : entry) l :
  spec_runningCores (e :: l) = e.2 + spec_runningCores l.
Proof. done. Qed.

Lemma spec_runningCores_app l1 l2 :
  spec_runningCores (l1 ++ l2) = spec_runningCores l1 + spec_runningCores l2.
Proof.
  induction l1 as [|e l1 IH]; [simpl; lia|].
  rewrite <- app_comm_cons, !spec_runningCores_cons, IH. lia.
Qed.

Lemma spec_runningCores_split t l :
  spec_runningCores l = spec_runningCores (filter (ends_after t) l) + released_by t l.
Proof.
  unfold released_by. rewrite <- spec_runningCores_app.
  apply spec_runningCores_perm. symmetry. apply filter_app_complement.
Qed.

Lemma released_by_nonneg t l :
  Forall (λ e : entry, 0 ≤ e.2) l → 0 ≤ released_by t l.
Proof.
  unfold released_by. induction 1 as [|e l He _ IH]; [done|].
  destruct (decide (ends_after t e)).
  - by rewrite filter_cons_False by tauto.
  - rewrite filter_cons_True by done. rewrite spec_runningCores_cons. lia.
Qed.

Lemma released_by_cons t (e : entry) l :
  released_by t (e :: l) = (if decide (e.1 ≤ t) then e.2 else 0) + released_by t l.
Proof.
  unfold released_by, ends_after. destruct (decide (e.1 ≤ t)).
  - rewrite filter_cons_True by lia. by rewrite spec_runningCores_cons.
  - rewrite filter_cons_False by lia. lia.
Qed.

Lemma released_by_none t l :
  Forall (λ e : entry, t < e.1) l → released_by t l = 0.
Proof.
  induction 1 as [|e l He _ IH]; [done|].
  rewrite released_by_cons, IH. destruct (decide (e.1 ≤ t)); lia.
Qed.

(** The walk over entries in end-time order, none of them negative, stops at
    the first time enough cores have been released. *)
Lemma release_loop_earliest L :
  StronglySorted end_time_le L → Forall (λ e : entry, 0 ≤ e.2) L →
  ∀ t a k, Forall (λ e : entry, t ≤ e.1) L → a < k →
    (∀ t', t' < release_loop L t a k → a + released_by t' L < k) ∧
    (k ≤ a + spec_runningCores L → k ≤ a + released_by (release_loop L t a k) L).
Proof.
  induction 1 as [|[e c] L Hs IH Hall]; intros Hc t a k Ht Hak.
  { split; [intros t' _; unfold released_by; simpl; lia|simpl; lia]. }
  apply Forall_cons in Hc as [Hc0 Hc]. apply Forall_cons in Ht as [Hte Ht].
  simpl in Hc0, Hte. cbn [release_loop].
  destruct (Z.ltb_spec t e) as [Hlt|Hge].
  - assert (Hrest : Forall (λ x : entry, e ≤ x.1) L)
      by (eapply Forall_impl; [exact Hall|by intros x Hx]).
    destruct (Z.leb_spec k (a + c)) as [Hk|Hk].
    + split.
      * intros t' Ht'. rewrite released_by_cons. cbn [fst snd].
        destruct (decide (e ≤ t')); [lia|].
        rewrite released_by_none; [lia|].
        eapply Forall_impl; [exact Hrest|]. intros x Hx. simpl in *. lia.
      * intros _. rewrite released_by_cons. cbn [fst snd].
        destruct (decide (e ≤ e)); [|lia].
        pose proof (released_by_nonneg e L Hc). lia.
    + destruct (IH Hc e (a + c) k Hrest Hk) as [H1 H2]. split.
      * intros t' Ht'. specialize (H1 t' Ht'). rewrite released_by_cons. cbn [fst snd].
        destruct (decide (e ≤ t')); lia.
      * rewrite spec_runningCores_cons. cbn [snd]. intros Hsum.
        rewrite released_by_cons. cbn [fst snd].
        pose proof (release_loop_ge L e (a + c) k).
        destruct (decide (e ≤ release_loop L e (a + c) k)); lia.
  - assert (e = t) as -> by lia.
    assert (Hrest : Forall (λ x : entry, t ≤ x.1) L)
      by (eapply Forall_impl; [exact Hall|by intros x Hx]).
    destruct (Z.leb_spec k (a + c)) as [Hk|Hk].
    + split.
      * intros t' Ht'. rewrite released_by_cons. cbn [fst snd].
        destruct (decide (t ≤ t')); [lia|].
        rewrite released_by_none; [lia|].
        eapply Forall_impl; [exact Hrest|]. intros x Hx. simpl in *. lia.
      * intros _. rewrite released_by_cons. cbn [fst snd].
        destruct (decide (t ≤ t)); [|lia].
        pose proof (released_by_nonneg t L Hc). lia.
    + destruct (IH Hc t (a + c) k Hrest Hk) as [H1 H2]. split.
      * intros t' Ht'. specialize (H1 t' Ht'). rewrite released_by_cons. cbn [fst snd].
        destruct (decide (t ≤ t')); lia.
      * rewrite spec_runningCores_cons. cbn [snd]. intros Hsum.
        rewrite released_by_cons. cbn [fst snd].
        pose proof (release_loop_ge L t (a + c) k).
        destruct (decide (t ≤ release_loop L t (a + c) k)); lia.
Qed.
Lemma free_at_pruned self now t :
  heap_inv (heap self) → now ≤ t →
  free_at self t
  = cores_total self - running_cores (prune_to_time self now)
    + released_by t (heap (prune_to_time self now)).
Proof.
  intros Hinv Hnt. destruct (prune_to_time_spec self now Hinv) as [_ Hp].
  unfold free_at, spec_retained.
  assert (E : filter (ends_after t) (heap self)
              = filter (ends_after t) (filter (ends_after now) (heap self))).
  { rewrite list_filter_filter_l; [done|]. unfold ends_after. intros x. lia. }
  rewrite E, <- (spec_runningCores_perm _ _ (filter_Permutation (ends_after t) _ _ Hp)).
  unfold running_cores. rewrite <- spec_runningCores_py_sum.
  rewrite (spec_runningCores_split t (heap (prune_to_time self now))). lia.
Qed.

#[global] Instance end_time_le_trans : Transitive end_time_le.
Proof. intros a b c. unfold end_time_le. lia. Qed.

Lemma released_by_perm t l1 l2 : l1 ≡ₚ l2 → released_by t l1 = released_by t l2.
Proof. intros Hp. unfold released_by. apply spec_runningCores_perm. by rewrite Hp. Qed.

(** X1: [earliest_start_for(now, c_need)] on a model whose entries hold no
    negative core count returns the earliest feasible time: at every time
    from [now] up to the answer fewer than [c_need] cores are free, and when
    the server has [c_need] cores at all, [c_need] cores are free at the
    answer.  (Free at [t]: the capacity minus the cores of the entries that
    end after [t].) *)
Theorem earliest_start_for_is_earliest (self : ServerSched) (now c_need : Z) :
  heap_ok (heap self) = true →
  Forall (λ e : entry, 0 ≤ e.2) (heap self) →
  (∀ t, now ≤ t < (earliest_start_for self now c_need).1 → free_at self t < c_need) ∧
  (c_need ≤ cores_total self →
   c_need ≤ free_at self (earliest_start_for self now c_need).1).
Proof.
  intros Hinv%heap_ok_inv Hc.
  destruct (prune_to_time_spec self now Hinv) as [_ Hp].
  set (P := heap (prune_to_time self now)) in *.
  assert (HcP : Forall (λ e : entry, 0 ≤ e.2) (sorted P)).
  { rewrite sorted_perm, Hp. apply Forall_forall. intros x [_ Hx]%list_elem_of_filter.
    by eapply Forall_forall in Hc. }
  assert (HtP : Forall (λ e : entry, now ≤ e.1) (sorted P)).
  { rewrite sorted_perm, Hp. apply Forall_forall. intros x [Hx _]%list_elem_of_filter.
    unfold ends_after in Hx. lia. }
  assert (HnP : released_by now P = 0).
  { apply released_by_none. rewrite Hp. apply Forall_forall.
    by intros x [Hx _]%list_elem_of_filter. }
  assert (Hsum : spec_runningCores (sorted P) = running_cores (prune_to_time self now)).
  { rewrite (spec_runningCores_perm _ _ (sorted_perm P)).
    by rewrite spec_runningCores_py_sum. }
  pose proof (release_loop_ge (sorted P) now
                (cores_total self - running_cores (prune_to_time self now)) c_need) as Hge.
  rewrite earliest_start_for_time. cbv zeta. fold P.
  destruct (Z.leb_spec c_need (cores_total self - running_cores (prune_to_time self now)))
    as [Hfit|Hshort].
  - split; [intros t Ht; lia|]. intros _.
    rewrite (free_at_pruned self now now) by (done || lia). fold P. lia.
  - destruct (release_loop_earliest (sorted P)
                (Sorted_StronglySorted _ _ (Sorted_entry_le_end _ (sorted_Sorted P)))
                HcP now _ c_need HtP Hshort) as [H1 H2].
    split.
    + intros t Ht. rewrite (free_at_pruned self now t) by (done || lia). fold P.
      rewrite <- (released_by_perm t _ _ (sorted_perm P)). apply H1. lia.
    + intros Htot. rewrite (free_at_pruned self now) by done. fold P.
      rewrite <- (released_by_perm _ _ _ (sorted_perm P)). apply H2. lia.
Qed.

Lemma earliest_start_for_is_earliest_witness :
  let self := mkServerSched 4 [(150, 1); (300, 2); (200, 1)] in
  free_at self 170 < 3 ∧ 3 ≤ free_at self (earliest_start_for self 160 3).1.
Proof.
  intros self.
  assert (Hc : Forall (λ e : entry, 0 ≤ e.2) (heap self))
    by (repeat constructor; simpl; lia).
  destruct (earliest_start_for_is_earliest self 160 3 eq_refl Hc) as [H1 H2].
  split; [apply H1; vm_compute; split; congruence|apply H2; simpl; lia].
Defined.
Lemma prune_loop_fixed bound h now :
  heap_inv h → Forall (ends_after now) h → prune_loop bound h now = h.
Proof.
  intros _ Hall. destruct bound as [|bound]; [done|].
  destruct Hall as [|e h He _]; [done|]. cbn [prune_loop].
  unfold ends_after in He. by destruct (Z.leb_spec e.1 now); [lia|].
Qed.

Lemma prune_to_time_all_after self now :
  heap_inv (heap self) → Forall (ends_after now) (heap (prune_to_time self now)).
Proof.
  intros Hinv. destruct (prune_to_time_spec self now Hinv) as [_ Hp].
  rewrite Hp. apply Forall_forall. by intros x [Hx _]%list_elem_of_filter.
Qed.

Lemma prune_to_time_earlier self t1 t2 :
  heap_inv (heap self) → t2 ≤ t1 →
  prune_to_time (prune_to_time self t1) t2 = prune_to_time self t1.
Proof.
  intros Hinv Hle. destruct (prune_to_time_spec self t1 Hinv) as [Hi _].
  unfold prune_to_time at 1. rewrite prune_loop_fixed; [by destruct (prune_to_time self t1)|done|].
  eapply Forall_impl; [by apply prune_to_time_all_after|].
  unfold ends_after. intros x. simpl. lia.
Qed.

(** X4: [earliest_start_for] only prunes: asking the same question again on
    the model the first call left gives the same answer and leaves the same
    model. *)
Theorem earliest_start_for_repeatable (self : ServerSched) (now c_need : Z) :
  heap_ok (heap self) = true →
  earliest_start_for (earliest_start_for self now c_need).2 now c_need
  = earliest_start_for self now c_need.
Proof.
  intros Hinv%heap_ok_inv. rewrite earliest_start_for_model.
  unfold earliest_start_for. by rewrite prune_to_time_earlier.
Qed.

Lemma earliest_start_for_repeatable_witness :
  let self := mkServerSched 4 [(150, 1); (300, 2); (200, 1)] in
  earliest_start_for (earliest_start_for self 160 3).2 160 3
  = earliest_start_for self 160 3.
Proof. intros self. apply earliest_start_for_repeatable. reflexivity. Defined.

(** X5: pruning at [t1] and then at [t2] leaves the entries that end after
    the later of the two; a second pruning at a time not after the first
    changes nothing at all. *)
Theorem prune_to_time_twice (self : ServerSched) (t1 t2 : Z) :
  heap_ok (heap self) = true →
  heap (prune_to_time (prune_to_time self t1) t2)
    ≡ₚ filter (ends_after (Z.max t1 t2)) (heap self) ∧
  (t2 ≤ t1 → prune_to_time (prune_to_time self t1) t2 = prune_to_time self t1).
Proof.
  intros Hinv%heap_ok_inv. split; [|by apply prune_to_time_earlier].
  destruct (prune_to_time_spec self t1 Hinv) as [Hi Hp].
  destruct (prune_to_time_spec (prune_to_time self t1) t2 Hi) as [_ Hp2].
  rewrite Hp2, Hp, list_filter_filter. apply reflexive_eq, list_filter_iff.
  unfold ends_after. intros x. lia.
Qed.

Lemma prune_to_time_twice_witness :
  let self := mkServerSched 8 [(1, 4); (3, 1); (2, 2); (5, 1)] in
  prune_to_time (prune_to_time self 3) 2 = prune_to_time self 3.
Proof.
  intros self. apply (prune_to_time_twice self 3 2); [reflexivity|lia].
Defined.

(** X6: [add_job(start_t, c_need, est)] returns [start_t + est], leaves the
    capacity alone, adds the one entry [(start_t + est, c_need)] to the
    entries held, raises [running_cores()] by [c_need], and keeps a heap a
    heap. *)
Theorem add_job_effect (self : ServerSched) (start_t c_need est : Z) :
  (add_job self start_t c_need est).1 = start_t + est ∧
  cores_total (add_job self start_t c_need est).2 = cores_total self ∧
  heap (add_job self start_t c_need est).2 ≡ₚ (start_t + est, c_need) :: heap self ∧
  running_cores (add_job self start_t c_need est).2 = running_cores self + c_need ∧
  (heap_ok (heap self) = true →
   heap_ok (heap (add_job self start_t c_need est).2) = true).
Proof.
  split; [done|]. split; [done|]. split; [apply add_job_perm|]. split.
  - unfold running_cores.
    rewrite (py_sum_perm _ _ (Permutation_map snd (add_job_perm self start_t c_need est))).
    cbn [map snd]. rewrite py_sum_cons. lia.
  - rewrite !heap_ok_inv. apply add_job_inv.
Qed.

Lemma release_loop_value L : ∀ t a k,
  release_loop L t a k = t ∨
  ∃ e, e ∈ L ∧ e.1 = release_loop L t a k ∧ t < release_loop L t a k.
Proof.
  induction L as [|[e c] L IH]; intros t a k; [by left|]. cbn [release_loop].
  destruct (Z.ltb_spec t e) as [Hlt|Hge].
  - right. destruct (k <=? a + c).
    + exists (e, c). split; [left|split; [done|lia]].
    + destruct (IH e (a + c) k) as [->|(x & Hx & E & Hl)].
      * exists (e, c). split; [left|split; [done|lia]].
      * exists x. split; [by right|split; [done|lia]].
  - destruct (k <=? a + c); [by left|].
    destruct (IH t (a + c) k) as [->|(x & Hx & E & Hl)]; [by left|right].
    exists x. split; [by right|done].
Qed.

(** X3: the time [earliest_start_for] returns is [now] itself or the end
    time of a recorded entry that ends after [now]. *)
Theorem earliest_start_for_answer (self : ServerSched) (now c_need : Z) :
  heap_ok (heap self) = true →
  (earliest_start_for self now c_need).1 = now ∨
  ∃ e, e ∈ heap self ∧ e.1 = (earliest_start_for self now c_need).1 ∧ now < e.1.
Proof.
  intros Hinv%heap_ok_inv. destruct (prune_to_time_spec self now Hinv) as [_ Hp].
  rewrite earliest_start_for_time. cbv zeta. destruct (_ <=? _); [by left|].
  destruct (release_loop_value (sorted (heap (prune_to_time self now))) now
              (cores_total self - running_cores (prune_to_time self now)) c_need)
    as [->|(e & He & E & Hl)]; [by left|right].
  exists e. rewrite sorted_perm, Hp in He. apply list_elem_of_filter in He as [_ He].
  split; [done|]. split; [done|lia].
Qed.

Lemma earliest_start_for_answer_witness :
  let self := mkServerSched 4 [(150, 1); (300, 2); (200, 1)] in
  (earliest_start_for self 160 3).1 = 160 ∨
  ∃ e, e ∈ heap self ∧ e.1 = (earliest_start_for self 160 3).1 ∧ 160 < e.1.
Proof. intros self. apply earliest_start_for_answer. reflexivity. Defined.
Lemma spec_runningCores_nonneg l :
  Forall (λ e : entry, 0 ≤ e.2) l → 0 ≤ spec_runningCores l.
Proof.
  induction 1 as [|e l He _ IH]; [done|]. rewrite spec_runningCores_cons. lia.
Qed.

(** When even all the entries together do not free enough, the walk ends
    after the last of them. *)
Lemma release_loop_all L : ∀ t a k,
  Forall (λ e : entry, 0 ≤ e.2) L → a + spec_runningCores L < k →
  ∀ e, e ∈ L → e.1 ≤ release_loop L t a k.
Proof.
  induction L as [|[e c] L IH]; intros t a k Hc Hk x Hx; [by apply elem_of_nil in Hx|].
  apply Forall_cons in Hc as [Hc0 Hc]. rewrite spec_runningCores_cons in Hk.
  cbn [fst snd] in *. pose proof (spec_runningCores_nonneg L Hc) as Hn.
  cbn [release_loop]. destruct (Z.leb_spec k (a + c)) as [?|_]; [lia|].
  apply elem_of_cons in Hx as [->|Hx].
  - cbn [fst]. etrans; [|apply release_loop_ge]. destruct (Z.ltb_spec t e); lia.
  - apply IH; [done|lia|done].
Qed.

Lemma filter_none_after t l :
  Forall (λ e : entry, e.1 ≤ t) l → filter (ends_after t) l = [].
Proof.
  induction 1 as [|e l He _ IH]; [done|].
  rewrite filter_cons_False; [done|]. unfold ends_after. lia.
Qed.

(** X2: on a model whose entries hold no negative core count, a request
    for more cores than the server has is not refused: [earliest_start_for]
    returns a time by which every recorded entry has ended, at which the
    whole capacity is free. *)
Theorem earliest_start_for_oversized (self : ServerSched) (now c_need : Z) :
  heap_ok (heap self) = true →
  Forall (λ e : entry, 0 ≤ e.2) (heap self) →
  cores_total self < c_need →
  (∀ e, e ∈ heap self → e.1 ≤ (earliest_start_for self now c_need).1) ∧
  free_at self (earliest_start_for self now c_need).1 = cores_total self.
Proof.
  intros Hinv%heap_ok_inv Hc Hk.
  destruct (prune_to_time_spec self now Hinv) as [_ Hp].
  assert (Hc' : Forall (λ e : entry, 0 ≤ e.2) (sorted (heap (prune_to_time self now)))).
  { rewrite sorted_perm, Hp. apply Forall_forall.
    intros x [_ Hx]%list_elem_of_filter. by eapply Forall_forall in Hc. }
  assert (Hall : ∀ e, e ∈ heap self → e.1 ≤ (earliest_start_for self now c_need).1).
  { intros e He. rewrite earliest_start_for_time. cbv zeta.
    assert (Er : running_cores (prune_to_time self now)
                 = spec_runningCores (sorted (heap (prune_to_time self now)))).
    { unfold running_cores. rewrite <- spec_runningCores_py_sum.
      apply spec_runningCores_perm. by rewrite sorted_perm. }
    pose proof (spec_runningCores_nonneg _ Hc') as Hn.
    destruct (Z.leb_spec c_need
                (cores_total self - running_cores (prune_to_time self now))) as [Hle|_];
      [lia|].
    destruct (decide (ends_after now e)) as [Ha|Ha].
    - apply release_loop_all; [done| |].
      + rewrite Er. lia.
      + rewrite sorted_perm, Hp. by apply list_elem_of_filter.
    - etrans; [|apply release_loop_ge]. unfold ends_after in Ha. lia. }
  split; [done|]. unfold free_at, spec_retained.
  rewrite filter_none_after; [unfold spec_runningCores; simpl; lia|].
  by apply Forall_forall.
Qed.

Lemma earliest_start_for_oversized_witness :
  let self := mkServerSched 4 [(150, 1); (300, 2); (200, 1)] in
  free_at self (earliest_start_for self 160 5).1 = 4.
Proof.
  intros self. apply (earliest_start_for_oversized self 160 5).
  - reflexivity.
  - repeat constructor; simpl; lia.
  - simpl. lia.
Defined.

(** X7: a job recorded by [add_job] takes [c_need] cores off the free cores
    at every time before its end [start_t + est], also at times before
    [start_t] (the model keeps no start time), and none from its end on. *)
Theorem add_job_holds_cores (self : ServerSched) (start_t c_need est t : Z) :
  free_at (add_job self start_t c_need est).2 t
  = free_at self t - (if decide (t < start_t + est) then c_need else 0).
Proof.
  unfold free_at, spec_retained. cbn [add_job snd cores_total heap].
  rewrite (spec_runningCores_perm _ _
    (filter_Permutation (ends_after t) _ _ (heappush_perm (heap self) (start_t + est, c_need)))).
  destruct (decide (t < start_t + est)) as [H|H].
  - rewrite filter_cons_True by done. rewrite spec_runningCores_cons. cbn [snd]. lia.
  - rewrite filter_cons_False by done. lia.
Qed.

Lemma fast_path_selects_smallest_witness :
  let caps := [mkRow "big" 0 "idle" 0 8 16000 64000 0 0;
               mkRow "small" 1 "active" 0 3 4000 16000 0 1;
               mkRow "small" 0 "booting" 0 4 4000 16000 0 0] in
  ∃ s, s ∈ filter (λ s, is_instant scenarioB_job s = true) caps ∧
    decide_placement (scenarioB_info scenarioB_rates) default_args
       (scenarioB_models (300, 4)) scenarioB_job caps "OK" =
      ([SCHD 7 (row_type s) (row_id s)],
       _ ← expect_ok "OK";
       record_job (scenarioB_models (300, 4)) (row_type s) (row_id s) 100 scenarioB_job).
Proof.
  intros caps.
  destruct (fast_path_selects_smallest (scenarioB_info scenarioB_rates) default_args
              (scenarioB_models (300, 4)) scenarioB_job caps "OK")
    as (s & Hs & _ & Hd & _).
  - discriminate.
  - exists s. split; [exact Hs|exact Hd].
Defined.
(** * Further properties of the decision and the loop *)

Lemma pruned_or_same_refl now h : pruned_or_same now h h.
Proof. by left. Qed.

Lemma pruned_or_same_trans now h0 h1 h2 :
  pruned_or_same now h0 h1 → pruned_or_same now h1 h2 → pruned_or_same now h0 h2.
Proof.
  intros [->|H1] [->|H2]; [by left|by right|by right|right].
  rewrite H2, H1, list_filter_filter. apply reflexive_eq, list_filter_iff. tauto.
Qed.

Lemma keeps_models_refl m : keeps_models m m.
Proof. intros k sched H. by exists sched. Qed.

Lemma keeps_models_trans m1 m2 m3 :
  keeps_models m1 m2 → keeps_models m2 m3 → keeps_models m1 m3.
Proof.
  intros H1 H2 k s Hk. destruct (H1 k s Hk) as (s2 & Hk2 & E2).
  destruct (H2 k s2 Hk2) as (s3 & Hk3 & E3). exists s3. split; [done|congruence].
Qed.

Lemma keeps_models_insert m k sched :
  (∀ sched0, m !! k = Some sched0 → cores_total sched = cores_total sched0) →
  keeps_models m (<[k := sched]> m).
Proof.
  intros Hc k' s Hk'. destruct (decide (k = k')) as [<-|Hne].
  - exists sched. rewrite lookup_insert_eq. split; [done|by apply Hc].
  - exists s. by rewrite lookup_insert_ne.
Qed.

Lemma heap_of_insert m k sched : heap_of (<[k := sched]> m) k = heap sched.
Proof. unfold heap_of. by rewrite lookup_insert_eq. Qed.

Lemma heap_of_insert_ne m k k' sched :
  k ≠ k' → heap_of (<[k := sched]> m) k' = heap_of m k'.
Proof. intros Hne. unfold heap_of. by rewrite lookup_insert_ne. Qed.

Lemma earliest_start_for_ge self now k : now ≤ (earliest_start_for self now k).1.
Proof.
  rewrite earliest_start_for_time. cbv zeta.
  destruct (_ <=? _); [lia|apply release_loop_ge].
Qed.

Lemma state_penalty_seconds_nonneg state boot : 0 ≤ state_penalty_seconds state boot.
Proof. unfold state_penalty_seconds. destruct (_ || _); lia. Qed.

(** What one iteration of the general path's loop does to the dictionary
    and to [best_tuple]. *)
Lemma consider_frame info args now j m best s m' best' :
  consider info args now j (m, best) s = Ok (m', best') →
  keeps_models m m' ∧
  is_Some (m' !! row_key s) ∧
  (∀ k, k ≠ row_key s → m' !! k = m !! k) ∧
  ∃ b', best' = Some b' ∧
    (best = Some b' ∨ (cand_key b' = row_key s ∧ now ≤ c_start b')).
Proof.
  unfold consider. fold (row_key s).
  set (sched0 := match m !! row_key s with
                 | Some sched => sched
                 | None => ServerSched_init (total_cores_of info s)
                 end).
  pose proof (earliest_start_for_ge sched0 now (j_cores j)) as Hge.
  pose proof (earliest_start_for_model sched0 now (j_cores j)) as Hmod.
  destruct (earliest_start_for sched0 now (j_cores j)) as [start sched].
  cbn [fst snd] in Hge, Hmod. subst sched.
  destruct (float_of_int (j_est j)) as [est|]; [|done]. cbn [mbind result_bind].
  intros [= <- <-]. split; [|split; [|split]].
  - apply keeps_models_insert. intros s0 E. unfold sched0. by rewrite E.
  - by rewrite lookup_insert_eq.
  - intros k Hk. by rewrite lookup_insert_ne.
  - pose proof (state_penalty_seconds_nonneg (row_state s)
      (default (fallback_boot_penalty args) (type_boot info !! row_type s))) as Hp.
    destruct best as [b|].
    + destruct (cand_ltb _ b); eexists; (split; [done|]); [right|by left].
      split; [done|]. cbn [c_start]. lia.
    + eexists. split; [done|]. right.
      split; [done|]. cbn [c_start]. lia.
Qed.

(** ... and to the heaps, when they are heaps: the model of [s] is pruned. *)
Lemma consider_heaps info args now j m best s m' best' :
  models_ok m →
  consider info args now j (m, best) s = Ok (m', best') →
  ∀ k, pruned_or_same now (heap_of m k) (heap_of m' k).
Proof.
  intros Hm. unfold consider. fold (row_key s).
  rewrite (surjective_pairing (earliest_start_for _ _ _)), earliest_start_for_model.
  destruct (float_of_int (j_est j)) as [est|]; [|done]. cbn [mbind result_bind].
  intros [= <- _] k. destruct (decide (row_key s = k)) as [<-|Hne].
  - rewrite heap_of_insert. unfold heap_of.
    destruct (m !! row_key s) as [sched|] eqn:E; [|by left].
    right. apply prune_to_time_spec. by apply (Hm _ _ E).
  - rewrite heap_of_insert_ne by done. by left.
Qed.

(** The whole loop, from any point of it. *)
Lemma consider_all_frame info args now j caps : ∀ m best m' best',
  consider_all info args now j caps (m, best) = Ok (m', best') →
  keeps_models m m' ∧
  (∀ s, s ∈ caps → is_Some (m' !! row_key s)) ∧
  (∀ k, k ∉ map row_key caps → m' !! k = m !! k) ∧
  (best' = best ∨
   ∃ b' s, best' = Some b' ∧ s ∈ caps ∧ cand_key b' = row_key s ∧ now ≤ c_start b') ∧
  (caps ≠ [] → is_Some best').
Proof.
  induction caps as [|s caps IH]; intros m best m' best'; cbn [consider_all].
  { intros [= <- <-]. split; [apply keeps_models_refl|].
    split; [by intros s Hs%elem_of_nil|]. split; [done|]. split; [by left|done]. }
  destruct (consider info args now j (m, best) s) as [[m1 b1]|] eqn:E; [|done].
  cbn [mbind result_bind]. intros Hall.
  destruct (consider_frame _ _ _ _ _ _ _ _ _ E) as (K1 & T1 & F1 & b & -> & B1).
  destruct (IH _ _ _ _ Hall) as (K2 & T2 & F2 & B2 & _).
  split; [by eapply keeps_models_trans|]. split; [|split; [|split]].
  - intros s' [->|Hs']%elem_of_cons; [|by apply T2].
    destruct T1 as [x Hx]. destruct (K2 _ _ Hx) as (x' & -> & _). done.
  - intros k Hk. cbn [map] in Hk. apply not_elem_of_cons in Hk as [Hne Hk].
    rewrite F2 by done. by apply F1.
  - destruct B2 as [->|(b' & s' & -> & Hs' & Ek & Hge)].
    + destruct B1 as [->|[Ek Hge]]; [by left|right].
      exists b, s. split; [done|]. split; [left|done].
    + right. exists b', s'. split; [done|]. split; [by right|done].
  - intros _. destruct B2 as [->|(b' & s' & -> & _)]; done.
Qed.

Lemma consider_all_heaps info args now j caps : ∀ m best m' best',
  models_ok m →
  consider_all info args now j caps (m, best) = Ok (m', best') →
  ∀ k, pruned_or_same now (heap_of m k) (heap_of m' k).
Proof.
  induction caps as [|s caps IH]; intros m best m' best' Hm; cbn [consider_all].
  { intros [= <- _] k. apply pruned_or_same_refl. }
  destruct (consider info args now j (m, best) s) as [[m1 b1]|] eqn:E; [|done].
  cbn [mbind result_bind]. intros Hall k.
  eapply pruned_or_same_trans; [by eapply consider_heaps|].
  eapply IH; [|done]. by eapply consider_ok.
Qed.

Lemma record_job_effect m stype sid start j m' :
  record_job m stype sid start j = Ok m' →
  ∃ sched, m !! (stype, sid) = Some sched ∧
    m' = <[(stype, sid) := (add_job sched start (j_cores j) (j_est j)).2]> m.
Proof.
  unfold record_job. destruct (m !! (stype, sid)) as [sched|]; [|done].
  intros [= <-]. by exists sched.
Qed.

(** How a decision comes out: nothing is sent and it ends in an exception,
    or one [SCHD] naming a candidate is sent; then the reply is checked, and
    the job is recorded on the models [m1] the decision has reached, at a
    start not before the submission. *)
Lemma decide_placement_cases info args m j caps reply :
  (∃ e, decide_placement info args m j caps reply = ([], Raise e) ∧
        (e = OverflowError ∨ (e = TypeError ∧ caps = []))) ∨
  (∃ s start m1, s ∈ caps ∧ submit j ≤ start ∧
     decide_placement info args m j caps reply =
       ([SCHD (job_id j) (row_type s) (row_id s)],
        _ ← expect_ok reply; record_job m1 (row_type s) (row_id s) start j) ∧
     ((is_instant j s = true ∧ m1 = m ∧ start = submit j) ∨
      (∃ best, filter (λ s, is_instant j s = true) caps = [] ∧
         consider_all info args (submit j) j caps (m, None) = Ok (m1, best)))).
Proof.
  destruct (filter (λ s, is_instant j s = true) caps) as [|s0 instant] eqn:Ef.
  - unfold decide_placement. rewrite Ef.
    destruct (consider_all info args (submit j) j caps (m, None)) as [[m1 best]|e] eqn:E.
    + destruct (consider_all_frame _ _ _ _ _ _ _ _ _ E) as (_ & _ & _ & B & N).
      destruct B as [->|(b & s & -> & Hs & Ek & Hge)].
      * left. exists TypeError. split; [done|]. right. split; [done|].
        destruct caps; [done|]. by destruct N.
      * right. exists s, (c_start b), m1. injection Ek as -> ->.
        split; [done|]. split; [done|]. split; [done|]. right. by exists (Some b).
    + left. exists e. split; [done|]. left.
      destruct caps as [|s caps]; [done|]. cbn [consider_all] in E.
      destruct (consider_result info args (submit j) j (m, None) s)
        as [(m' & b' & E1)|E1]; rewrite E1 in E; cbn [mbind result_bind] in E;
        [|congruence].
      destruct (consider_all_result info args (submit j) j caps m' b')
        as [(m'' & b'' & E2)|E2]; congruence.
  - rewrite (decide_placement_fast _ _ _ _ _ _ _ _ Ef). cbv zeta.
    rewrite py_min_pick.
    pose proof (fold_pick_elem fast_key_ltb (map (fast_key_of info) instant)
                  (fast_key_of info s0)) as Hin.
    change (fast_key_of info s0 :: map (fast_key_of info) instant)
      with (map (fast_key_of info) (s0 :: instant)) in Hin.
    apply elem_of_map_inv in Hin as (s & E & Hs). rewrite E.
    rewrite <- Ef in Hs. apply list_elem_of_filter in Hs as [Hi Hs].
    right. exists s, (submit j), m. split; [done|]. split; [lia|]. split; [done|].
    by left.
Qed.
Lemma handle_JOBN_decides info args m j r :
  handle_JOBN info args m j r =
  (GETS_Capable (j_cores j) (j_mem j) (j_disk j) ::
     match capable_rows r with [] => [GETS_All] | _ => [] end ++
     (decide_placement info args m j (candidates r) (schd_reply r)).1,
   (decide_placement info args m j (candidates r) (schd_reply r)).2).
Proof.
  unfold handle_JOBN, candidates. destruct (capable_rows r) as [|s caps].
  - by destruct (decide_placement _ _ _ _ _ _).
  - by destruct (decide_placement _ _ _ _ _ _).
Qed.

Lemma expect_ok_cases reply :
  (reply = "OK" ∧ expect_ok reply = Ok tt) ∨
  (reply ≠ "OK" ∧ expect_ok reply = Raise RuntimeError).
Proof.
  unfold expect_ok. destruct (String.eqb_spec reply "OK"); [by left|by right].
Qed.

(** X9: how the [JOBN] branch comes out.  It asks [GETS Capable] (and
    [GETS All] when that lists nothing), then either sends no [SCHD] and ends
    in [OverflowError], or in [TypeError] when there is no candidate at all;
    or it sends exactly one [SCHD], for this job and a server of the
    candidate list, and then ends in [RuntimeError] when the reply is not
    [OK], and otherwise in [KeyError] or with the job recorded. *)
Theorem handle_JOBN_outcome (info : SystemInfo) (args : Args) (m : SchedMap)
    (j : Job) (r : Replies) :
  ∃ tail,
    (handle_JOBN info args m j r).1 =
      GETS_Capable (j_cores j) (j_mem j) (j_disk j) ::
        match capable_rows r with [] => [GETS_All] | _ => [] end ++ tail ∧
    ((tail = [] ∧
      ((handle_JOBN info args m j r).2 = Raise OverflowError ∨
       ((handle_JOBN info args m j r).2 = Raise TypeError ∧ candidates r = []))) ∨
     (∃ s, s ∈ candidates r ∧
        tail = [SCHD (job_id j) (row_type s) (row_id s)] ∧
        ((schd_reply r ≠ "OK" ∧ (handle_JOBN info args m j r).2 = Raise RuntimeError) ∨
         (schd_reply r = "OK" ∧
          ((handle_JOBN info args m j r).2 = Raise KeyError ∨
           ∃ m', (handle_JOBN info args m j r).2 = Ok m'))))).
Proof.
  rewrite handle_JOBN_decides. cbn [fst snd].
  destruct (decide_placement_cases info args m j (candidates r) (schd_reply r))
    as [(e & -> & He)|(s & start & m1 & Hs & _ & -> & _)]; cbn [fst snd].
  - exists []. split; [done|]. left. split; [done|].
    destruct He as [->|[-> ?]]; [by left|by right].
  - eexists. split; [done|]. right. exists s. split; [done|]. split; [done|].
    destruct (expect_ok_cases (schd_reply r)) as [[E ->]|[E ->]]; cbn [mbind result_bind];
      [right|by left].
    split; [done|]. unfold record_job. destruct (m1 !! _); [right|left]; eauto.
Qed.

(** X10: what a [JOBN] branch that succeeds does to the models, when they
    are heaps: the last command sent is the [SCHD] for a candidate [s]; the
    model of [s] gains the one entry [(start + j_est, j_cores)] with a start
    not before the submission; apart from that, heaps only lose entries that
    ended by the submission time; servers outside the candidate list are
    not touched; no model is dropped and no capacity changes. *)
Theorem JOBN_records_one_job (info : SystemInfo) (args : Args) (m : SchedMap)
    (j : Job) (r : Replies) (m' : SchedMap) :
  models_ok m →
  (handle_JOBN info args m j r).2 = Ok m' →
  ∃ s start,
    s ∈ candidates r ∧
    last (handle_JOBN info args m j r).1 = Some (SCHD (job_id j) (row_type s) (row_id s)) ∧
    submit j ≤ start ∧
    models_ok m' ∧ keeps_models m m' ∧
    (∀ k, k ∉ map row_key (candidates r) → m' !! k = m !! k) ∧
    (∀ k, k ≠ row_key s → pruned_or_same (submit j) (heap_of m k) (heap_of m' k)) ∧
    (∃ h, pruned_or_same (submit j) (heap_of m (row_key s)) h ∧
          heap_of m' (row_key s) ≡ₚ (start + j_est j, j_cores j) :: h).
Proof.
  intros Hm. rewrite handle_JOBN_decides. cbn [fst snd]. intros Hres.
  assert (Hok : models_ok m') by (by eapply decide_placement_ok).
  destruct (decide_placement_cases info args m j (candidates r) (schd_reply r))
    as [(e & E & _)|(s & start & m1 & Hs & Hge & E & Hcase)];
    rewrite E in Hres |- *; cbn [fst snd] in Hres |- *; [done|].
  destruct (expect_ok (schd_reply r)); [|done]. cbn [mbind result_bind] in Hres.
  apply record_job_effect in Hres as (sched & Hk & ->). fold (row_key s) in *.
  exists s, start. split; [done|]. split.
  { rewrite app_comm_cons. apply last_snoc. }
  split; [done|]. split; [done|].
  assert (K1 : keeps_models m1
            (<[row_key s := (add_job sched start (j_cores j) (j_est j)).2]> m1)).
  { apply keeps_models_insert. intros s0 E0. by simplify_eq. }
  assert (A : heap_of m1 (row_key s) = heap sched).
  { unfold heap_of. by rewrite Hk. }
  destruct Hcase as [(_ & -> & ->)|(best & Hf & Hall)].
  - split; [done|]. split; [|split].
    + intros k Hk'. apply lookup_insert_ne. intros <-. apply Hk'. by apply elem_of_map_1.
    + intros k Hne. rewrite heap_of_insert_ne by done. apply pruned_or_same_refl.
    + exists (heap sched). split; [by left|].
      rewrite heap_of_insert. apply add_job_perm.
  - destruct (consider_all_frame _ _ _ _ _ _ _ _ _ Hall) as (K & _ & F & _).
    pose proof (consider_all_heaps _ _ _ _ _ _ _ _ _ Hm Hall) as P.
    split; [by eapply keeps_models_trans|]. split; [|split].
    + intros k Hk'. rewrite lookup_insert_ne; [by apply F|].
      intros <-. apply Hk'. by apply elem_of_map_1.
    + intros k Hne. rewrite heap_of_insert_ne by done. apply P.
    + exists (heap sched). split; [rewrite <- A; apply P|].
      rewrite heap_of_insert. apply add_job_perm.
Qed.

Lemma models_ok_scenarioB prior : models_ok (scenarioB_models prior).
Proof.
  apply map_Forall_insert_2; [apply heap_inv_nil|].
  apply map_Forall_insert_2; [by apply heap_ok_inv|]. apply map_Forall_empty.
Qed.

Lemma JOBN_records_one_job_witness :
  let r := mkReplies [scenarioB_big; scenarioB_small] [] "OK" in
  let m := scenarioB_models (300, 4) in
  ∃ s start,
    s ∈ candidates r ∧
    last (handle_JOBN (scenarioB_info scenarioB_rates) default_args m scenarioB_job r).1
      = Some (SCHD 7 (row_type s) (row_id s)) ∧
    100 ≤ start ∧
    (∃ h, pruned_or_same 100 (heap_of m (row_key s)) h ∧
          heap_of {[ ("big", 0) := mkServerSched 8 [(210, 2)];
                     ("small", 0) := mkServerSched 4 [(300, 4)] ]} (row_key s)
          ≡ₚ (start + 50, 2) :: h).
Proof.
  intros r m.
  destruct (JOBN_records_one_job (scenarioB_info scenarioB_rates) default_args m
              scenarioB_job r
              {[ ("big", 0) := mkServerSched 8 [(210, 2)];
                 ("small", 0) := mkServerSched 4 [(300, 4)] ]}
              (models_ok_scenarioB (300, 4)))
    as (s & start & H1 & H2 & H3 & _ & _ & _ & _ & H4).
  - vm_compute. exact eq_refl.
  - exists s, start. split; [done|]. split; [done|]. split; [done|]. done.
Defined.

Lemma consider_Ok info args now j est m best s :
  float_of_int (j_est j) = Ok est →
  ∃ m' b, consider info args now j (m, best) s = Ok (m', Some b).
Proof.
  intros Hest. unfold consider. destruct (earliest_start_for _ _ _) as [start sched].
  rewrite Hest. cbn [mbind result_bind]. destruct best as [b|]; [|by eauto].
  destruct (cand_ltb _ b); by eauto.
Qed.

Lemma consider_all_Ok info args now j est caps : ∀ m best,
  float_of_int (j_est j) = Ok est →
  ∃ m' best', consider_all info args now j caps (m, best) = Ok (m', best').
Proof.
  induction caps as [|s caps IH]; intros m best Hest; cbn [consider_all]; [by eauto|].
  destruct (consider_Ok info args now j est m best s Hest) as (m1 & b1 & ->).
  cbn [mbind result_bind]. by apply IH.
Qed.

(** X11: the [JOBN] branch records the job, whatever the models, when
    there is a candidate, the reply to [SCHD] is [OK], the estimate converts
    to a float, and every immediately runnable candidate is tracked (the
    general path creates the models it misses). *)
Theorem handle_JOBN_succeeds (info : SystemInfo) (args : Args) (m : SchedMap)
    (j : Job) (r : Replies) (est : float) :
  candidates r ≠ [] →
  schd_reply r = "OK" →
  float_of_int (j_est j) = Ok est →
  (∀ s, s ∈ candidates r → is_instant j s = true → is_Some (m !! row_key s)) →
  ∃ m', (handle_JOBN info args m j r).2 = Ok m'.
Proof.
  intros Hne Hreply Hest Htracked. rewrite handle_JOBN_decides. cbn [snd].
  destruct (decide_placement_cases info args m j (candidates r) (schd_reply r))
    as [(e & E & He)|(s & start & m1 & Hs & _ & -> & Hcase)].
  - exfalso. destruct He as [->|[-> ?]]; [|done].
    unfold decide_placement in E.
    destruct (filter _ (candidates r)) as [|s0 instant];
      [|by destruct (py_min _ _) as [[? ?] ?]].
    destruct (consider_all_Ok info args (submit j) j est (candidates r) m None Hest)
      as (m1 & b1 & E1). rewrite E1 in E. by destruct b1.
  - cbn [snd]. rewrite Hreply. change (expect_ok "OK") with (Ok tt).
    cbn [mbind result_bind]. unfold record_job. fold (row_key s).
    assert (T : is_Some (m1 !! row_key s)).
    { destruct Hcase as [(Hi & -> & _)|(best & _ & Hall)]; [by apply Htracked|].
      by apply (consider_all_frame _ _ _ _ _ _ _ _ _ Hall). }
    destruct T as [sched ->]. eauto.
Qed.

Lemma handle_JOBN_succeeds_witness :
  ∃ m', (handle_JOBN (scenarioB_info scenarioB_rates) default_args
           {[ ("big", 0) := ServerSched_init 8 ]} scenarioB_job
           (mkReplies [scenarioB_big; scenarioB_small] [] "OK")).2 = Ok m'.
Proof.
  apply (handle_JOBN_succeeds (scenarioB_info scenarioB_rates) default_args
           {[ ("big", 0) := ServerSched_init 8 ]} scenarioB_job
           (mkReplies [scenarioB_big; scenarioB_small] [] "OK") 50%float).
  - discriminate.
  - reflexivity.
  - vm_compute. exact eq_refl.
  - intros s Hs Hi. exfalso. cbn [candidates capable_rows] in Hs.
    apply elem_of_cons in Hs as [->|Hs]; [discriminate Hi|].
    apply elem_of_cons in Hs as [->|Hs]; [discriminate Hi|].
    by apply elem_of_nil in Hs.
Defined.
Lemma handle_JCPL_keeps m t stype sid : keeps_models m (handle_JCPL m t stype sid).
Proof.
  unfold handle_JCPL. destruct (m !! (stype, sid)) as [sched|] eqn:E;
    [|apply keeps_models_refl].
  apply keeps_models_insert. intros s0 E0. by simplify_eq.
Qed.

Lemma decide_placement_keeps info args m j caps reply m' :
  (decide_placement info args m j caps reply).2 = Ok m' → keeps_models m m'.
Proof.
  destruct (decide_placement_cases info args m j caps reply)
    as [(e & -> & _)|(s & start & m1 & _ & _ & -> & Hcase)]; cbn [snd]; [done|].
  destruct (expect_ok reply); [|done]. cbn [mbind result_bind].
  intros (sched & Hk & ->)%record_job_effect.
  assert (K1 : keeps_models m1
            (<[(row_type s, row_id s) := (add_job sched start (j_cores j) (j_est j)).2]> m1)).
  { apply keeps_models_insert. intros s0 E0. by simplify_eq. }
  destruct Hcase as [(_ & -> & _)|(best & _ & Hall)]; [done|].
  eapply keeps_models_trans; [|done]. by apply (consider_all_frame _ _ _ _ _ _ _ _ _ Hall).
Qed.

Lemma step_keeps info args st ev sent st' :
  step info args st ev = (sent, Ok (Some st')) →
  keeps_models (sched_by_srv st) (sched_by_srv st').
Proof.
  destruct ev as [j r|t job stype sid| |]; cbn [step].
  - rewrite handle_JOBN_decides.
    destruct (decide_placement _ _ _ _ _ _) as [s1 [m'|]] eqn:E; cbn [fst snd]; [|done].
    cbn [mbind result_bind]. intros [= _ <-]. cbn [sched_by_srv].
    eapply decide_placement_keeps. by rewrite E.
  - intros [= _ <-]. apply handle_JCPL_keeps.
  - done.
  - intros [= _ <-]. apply keeps_models_refl.
Qed.

(** Every state the loop reaches holds heaps, and every model the loop
    started with. *)
Lemma run_inv info args evs : ∀ st sent st',
  models_ok (sched_by_srv st) →
  run info args st evs = (sent, Ok (Some st')) →
  models_ok (sched_by_srv st') ∧ keeps_models (sched_by_srv st) (sched_by_srv st').
Proof.
  induction evs as [|ev evs IH]; intros st sent st' Hm; cbn [run].
  { intros [= _ <-]. split; [done|apply keeps_models_refl]. }
  destruct (step info args st ev) as [s1 [[st1|]|]] eqn:E; [|done..].
  destruct (run info args st1 evs) as [s2 r2] eqn:E2. intros [= _ ->].
  destruct (IH st1 s2 st' (step_models_ok _ _ _ _ _ _ Hm E) E2) as [Hm' K].
  split; [done|]. eapply keeps_models_trans; [|done]. by eapply step_keeps.
Qed.

Lemma init_models_fold info rows : ∀ (m : SchedMap) k,
  match fold_left
          (λ sched_by_srv s,
             <[(row_type s, row_id s) := ServerSched_init (total_cores_of info s)]>
               sched_by_srv) rows m !! k with
  | Some sched =>
      m !! k = Some sched ∨
      ∃ s, s ∈ rows ∧ row_key s = k ∧ sched = ServerSched_init (total_cores_of info s)
  | None => m !! k = None ∧ k ∉ map row_key rows
  end.
Proof.
  induction rows as [|s rows IH]; intros m k; cbn [fold_left].
  { destruct (m !! k); [by left|]. split; [done|]. by intros ?%elem_of_nil. }
  specialize (IH (<[(row_type s, row_id s) := ServerSched_init (total_cores_of info s)]> m) k).
  fold (row_key s) in *. destruct (fold_left _ _ _ !! k) as [sched|].
  - destruct IH as [E|(s' & Hs' & Ek & ->)].
    + destruct (decide (row_key s = k)) as [<-|Hne].
      * rewrite lookup_insert_eq in E. injection E as <-. right. exists s.
        split; [left|done].
      * rewrite lookup_insert_ne in E by done. by left.
    + right. exists s'. split; [by right|done].
  - destruct IH as [E Hk]. destruct (decide (row_key s = k)) as [<-|Hne].
    + by rewrite lookup_insert_eq in E.
    + rewrite lookup_insert_ne in E by done. split; [done|].
      cbn [map]. by apply not_elem_of_cons.
Qed.

(** X8: the dictionary built from the first [GETS All] tracks exactly the
    [(type, id)] pairs listed; each model starts with no entry and with the
    capacity of a listed row of that pair (the catalog's core count for the
    type, the reported cores when the catalog lacks the type). *)
Theorem init_models_lookup (info : SystemInfo) (rows : list ServerRow) (k : string * Z) :
  match init_models info rows !! k with
  | Some sched =>
      heap sched = [] ∧
      ∃ s, s ∈ rows ∧ row_key s = k ∧ cores_total sched = total_cores_of info s
  | None => k ∉ map row_key rows
  end.
Proof.
  pose proof (init_models_fold info rows ∅ k) as H. unfold init_models.
  destruct (fold_left _ _ _ !! k) as [sched|].
  - destruct H as [E|(s & Hs & Ek & ->)]; [by rewrite lookup_empty in E|].
    split; [done|]. by exists s.
  - by destruct H.
Qed.

(** X14: in every state the loop reaches from the initial models, every
    tracked heap satisfies the heap invariant, and every server of the first
    [GETS All] is still tracked with the capacity it started with. *)
Theorem run_keeps_models (info : SystemInfo) (args : Args) (rows : list ServerRow)
    (evs : list event) (sent : list command) (st : State) :
  run info args (main_init info rows) evs = (sent, Ok (Some st)) →
  map_Forall (λ _ sched, heap_ok (heap sched) = true) (sched_by_srv st) ∧
  ∀ s, s ∈ rows →
    ∃ sched s0, sched_by_srv st !! row_key s = Some sched ∧
      s0 ∈ rows ∧ row_key s0 = row_key s ∧ cores_total sched = total_cores_of info s0.
Proof.
  intros Hrun.
  destruct (run_inv info args evs (main_init info rows) sent st (init_models_ok info rows) Hrun)
    as [Hm K].
  split.
  - intros k sched E. apply heap_ok_inv. by apply (Hm k sched E).
  - intros s Hs. pose proof (init_models_lookup info rows (row_key s)) as H.
    destruct (init_models info rows !! row_key s) as [sched0|] eqn:E.
    + destruct H as [_ (s0 & Hs0 & Ek & Ec)].
      destruct (K _ _ E) as (sched & E' & Ec'). exists sched, s0.
      split; [done|]. split; [done|]. split; [done|congruence].
    + exfalso. apply H. by apply elem_of_map_1.
Qed.

Lemma run_keeps_models_witness :
  let info := scenarioB_info scenarioB_rates in
  let rows := [scenarioB_big; scenarioB_small] in
  let evs := [JOBN scenarioB_job (mkReplies rows [] "OK"); OTHER;
              JCPL 150 7 "small" 0] in
  ∃ sched s0,
    ({[ ("big", 0) := mkServerSched 8 []; ("small", 0) := mkServerSched 4 [] ]}
       : SchedMap) !! row_key scenarioB_small = Some sched ∧
    s0 ∈ rows ∧ row_key s0 = row_key scenarioB_small ∧
    cores_total sched = total_cores_of info s0.
Proof.
  intros info rows evs.
  destruct (run_keeps_models info default_args rows evs
              [GETS_Capable 2 100 100; SCHD 7 "small" 0]
              (mkState {[ ("big", 0) := mkServerSched 8 [];
                          ("small", 0) := mkServerSched 4 [] ]} 150)) as [_ H].
  - vm_compute. exact eq_refl.
  - apply (H scenarioB_small). right. left.
Defined.

(** X13: a [JCPL] event for a tracked server sends nothing, replaces that
    server's model alone, keeps its capacity, and removes from it exactly the
    entries that end by the event's time, whichever job completed; [now]
    takes the event's time. *)
Theorem JCPL_prunes_named_model (info : SystemInfo) (args : Args) (st : State)
    (t job : Z) (stype : string) (sid : Z) (sched : ServerSched) :
  sched_by_srv st !! (stype, sid) = Some sched →
  heap_ok (heap sched) = true →
  ∃ sched',
    step info args st (JCPL t job stype sid)
      = ([], Ok (Some (mkState (<[(stype, sid) := sched']> (sched_by_srv st)) t))) ∧
    cores_total sched' = cores_total sched ∧
    heap sched' ≡ₚ filter (ends_after t) (heap sched) ∧
    heap_ok (heap sched') = true.
Proof.
  intros Hk Hh%heap_ok_inv. exists (prune_to_time sched t).
  cbn [step]. unfold handle_JCPL. rewrite Hk. split; [done|]. split; [done|].
  destruct (prune_to_time_spec sched t Hh) as [Hi Hp]. split; [done|].
  by apply heap_ok_inv.
Qed.

Lemma JCPL_prunes_named_model_witness :
  ∃ sched',
    step (scenarioB_info scenarioB_rates) default_args
         (mkState (scenarioB_models (300, 4)) 100) (JCPL 300 3 "small" 0)
      = ([], Ok (Some (mkState (<[("small", 0) := sched']> (scenarioB_models (300, 4))) 300))) ∧
    cores_total sched' = 4 ∧
    heap sched' ≡ₚ filter (ends_after 300) [(300, 4)] ∧
    heap_ok (heap sched') = true.
Proof.
  apply (JCPL_prunes_named_model (scenarioB_info scenarioB_rates) default_args
           (mkState (scenarioB_models (300, 4)) 100) 300 3 "small" 0
           (mkServerSched 4 [(300, 4)])).
  - reflexivity.
  - reflexivity.
Defined.
(** * The transport *)

(** ** Text *)

Lemma string_app_cons a s1 s2 : String a s1 +:+ s2 = String a (s1 +:+ s2).
Proof. done. Qed.

Lemma string_app_nil_r s : s +:+ "" = s.
Proof. induction s as [|a s IH]; [done|]. by rewrite string_app_cons, IH. Qed.

Lemma string_app_assoc s1 s2 s3 : (s1 +:+ s2) +:+ s3 = s1 +:+ (s2 +:+ s3).
Proof. induction s1 as [|a s1 IH]; [done|]. by rewrite !string_app_cons, IH. Qed.

Lemma string_app_length s1 s2 :
  String.length (s1 +:+ s2) = (String.length s1 + String.length s2)%nat.
Proof.
  induction s1 as [|a s1 IH]; [done|]. rewrite string_app_cons. cbn [String.length].
  by rewrite IH.
Qed.

Lemma one_line_cons a s :
  one_line (String a s) = true ↔ a ≠ wire.LF ∧ one_line s = true.
Proof.
  cbn [one_line]. rewrite andb_true_iff, negb_true_iff.
  destruct (Ascii.eqb_spec a wire.LF); intuition congruence.
Qed.

Lemma readline_of_split s :
  s = (wire.readline_of s).1 +:+ (wire.readline_of s).2.
Proof.
  induction s as [|a s IH]; [done|]. cbn [wire.readline_of].
  destruct (Ascii.eqb a wire.LF); [done|].
  destruct (wire.readline_of s) as [line rest]. cbn [fst snd] in *.
  by rewrite string_app_cons, <- IH.
Qed.

Lemma readline_of_empty s : (wire.readline_of s).1 = "" → s = "".
Proof.
  destruct s as [|a s]; [done|]. cbn [wire.readline_of].
  destruct (Ascii.eqb a wire.LF); [done|]. by destruct (wire.readline_of s).
Qed.

(** A line and its newline, then anything: the line is what is read. *)
Lemma readline_of_line line rest :
  one_line line = true →
  wire.readline_of (line +:+ wire.nl +:+ rest) = (line +:+ wire.nl, rest).
Proof.
  induction line as [|a line IH]; [done|].
  intros [Ha Hl]%one_line_cons. rewrite string_app_cons. cbn [wire.readline_of].
  destruct (Ascii.eqb_spec a wire.LF); [done|]. by rewrite IH.
Qed.

(** A last line with no newline after it is read whole. *)
Lemma readline_of_tail line :
  one_line line = true → wire.readline_of line = (line, "").
Proof.
  induction line as [|a line IH]; [done|].
  intros [Ha Hl]%one_line_cons. cbn [wire.readline_of].
  destruct (Ascii.eqb_spec a wire.LF); [done|]. by rewrite IH.
Qed.

Lemma rstrip_nl_one_line line : one_line line = true → wire.rstrip_nl line = line.
Proof.
  induction line as [|a line IH]; [done|].
  intros [Ha Hl]%one_line_cons. cbn [wire.rstrip_nl]. rewrite IH by done.
  destruct line; [|done]. by destruct (Ascii.eqb_spec a wire.LF).
Qed.

Lemma rstrip_nl_line line : one_line line = true → wire.rstrip_nl (line +:+ wire.nl) = line.
Proof.
  induction line as [|a line IH]; [done|].
  intros [Ha Hl]%one_line_cons. rewrite string_app_cons. cbn [wire.rstrip_nl].
  rewrite IH by done. destruct line; [|done]. by destruct (Ascii.eqb_spec a wire.LF).
Qed.

Lemma line_nl_nonempty line : line +:+ wire.nl ≠ "".
Proof. by destruct line. Qed.

(** ** Sequencing *)

Lemma bind_return {A B} (m : wire.io A) (k : A → wire.io B) c a c' :
  m c = (wire.Return a, c') → (m ≫= k) c = k a c'.
Proof. intros H. unfold mbind, wire.io_bind. by rewrite H. Qed.

Lemma bind_throw {A B} (m : wire.io A) (k : A → wire.io B) c e c' :
  m c = (wire.Throw e, c') → (m ≫= k) c = (wire.Throw e, c').
Proof. intros H. unfold mbind, wire.io_bind. by rewrite H. Qed.

Lemma bind_unfold {A B} (m : wire.io A) (k : A → wire.io B) c :
  (m ≫= k) c =
  match m c with
  | (wire.Return a, c') => k a c'
  | (wire.Throw e, c') => (wire.Throw e, c')
  end.
Proof. done. Qed.

Lemma bind_inv {A B} (m : wire.io A) (k : A → wire.io B) c b c' :
  (m ≫= k) c = (wire.Return b, c') →
  ∃ a c1, m c = (wire.Return a, c1) ∧ k a c1 = (wire.Return b, c').
Proof.
  unfold mbind, wire.io_bind. destruct (m c) as [[a|e] c1]; [|done]. by eauto.
Qed.

(** ** [send] and [recv_line] *)

Lemma send_spec line verbose c :
  wire.send line verbose c =
  (wire.Return tt,
   wire.mkConn (wire.fin c) (wire.fout c +:+ line +:+ wire.nl)
     (wire.stdout c +:+ echo verbose ">>" line)).
Proof.
  destruct c as [i o p]. destruct verbose; [done|].
  cbn. by rewrite string_app_nil_r.
Qed.

Lemma recv_line_spec line rest verbose c :
  one_line line = true →
  wire.fin c = line +:+ wire.nl +:+ rest →
  wire.recv_line verbose c =
  (wire.Return line,
   wire.mkConn rest (wire.fout c) (wire.stdout c +:+ echo verbose "<<" line)).
Proof.
  intros Hl Hin. destruct c as [i o p]. cbn [wire.fin wire.fout wire.stdout] in *. subst i.
  unfold wire.recv_line. erewrite bind_return;
    [|unfold wire.readline; cbn [wire.fin];
      by rewrite readline_of_line].
  destruct (String.eqb_spec (line +:+ wire.nl) "") as [E|_];
    [by apply line_nl_nonempty in E|].
  rewrite rstrip_nl_line by done. destruct verbose; [done|].
  cbn. by rewrite string_app_nil_r.
Qed.

Lemma recv_line_eof verbose c :
  wire.fin c = "" → wire.recv_line verbose c = (wire.Throw wire.ConnectionError, c).
Proof.
  intros Hin. destruct c as [i o p]. cbn [wire.fin] in Hin. by subst i.
Qed.

Lemma recv_line_tail line verbose c :
  one_line line = true → line ≠ "" →
  wire.fin c = line →
  wire.recv_line verbose c =
  (wire.Return line,
   wire.mkConn "" (wire.fout c) (wire.stdout c +:+ echo verbose "<<" line)).
Proof.
  intros Hl Hne Hin. destruct c as [i o p]. cbn [wire.fin wire.fout wire.stdout] in *. subst i.
  unfold wire.recv_line. erewrite bind_return;
    [|unfold wire.readline; cbn [wire.fin]; by rewrite readline_of_tail].
  destruct (String.eqb_spec line "") as [E|_]; [done|].
  rewrite rstrip_nl_one_line by done. destruct verbose; [done|].
  cbn. by rewrite string_app_nil_r.
Qed.

(** X15: [recv_line] undoes [send]: when a stream starts with what [send]
    wrote for a line that holds no newline, [recv_line] returns that very
    line and leaves what follows it. *)
Theorem send_recv_round_trip (line : string) (verbose verbose' : bool)
    (c peer : wire.Conn) (rest : string) :
  one_line line = true →
  wire.fin peer = (wire.fout (wire.send line verbose c).2) +:+ rest →
  wire.fout c = "" →
  (wire.recv_line verbose' peer).1 = wire.Return line ∧
  wire.fin (wire.recv_line verbose' peer).2 = rest.
Proof.
  intros Hl Hin Hout. rewrite send_spec in Hin. cbn [snd wire.fout] in Hin.
  rewrite Hout in Hin. change ("" +:+ line +:+ wire.nl) with (line +:+ wire.nl) in Hin.
  rewrite string_app_assoc in Hin.
  by rewrite (recv_line_spec line rest verbose' peer Hl Hin).
Qed.

Lemma unlines_cons_app l ls rest :
  unlines (l :: ls) +:+ rest = l +:+ wire.nl +:+ (unlines ls +:+ rest).
Proof. cbn [unlines]. by rewrite !string_app_assoc. Qed.

Lemma unlines_app ls1 ls2 rest :
  unlines (ls1 ++ ls2) +:+ rest = unlines ls1 +:+ (unlines ls2 +:+ rest).
Proof.
  induction ls1 as [|l ls1 IH]; [done|].
  by rewrite <- app_comm_cons, !unlines_cons_app, IH.
Qed.

Lemma recv_lines_spec verbose rows : ∀ rest c,
  Forall (λ l, one_line l = true) rows →
  wire.fin c = unlines rows +:+ rest →
  ∃ printed,
    wire.recv_lines verbose (length rows) c =
    (wire.Return rows, wire.mkConn rest (wire.fout c) printed).
Proof.
  induction rows as [|l rows IH]; intros rest c Hl Hin.
  { destruct c as [i o p]. cbn in Hin. subst i. by exists p. }
  apply Forall_cons in Hl as [Hl Hrows]. rewrite unlines_cons_app in Hin.
  cbn [length wire.recv_lines].
  erewrite bind_return by (by apply recv_line_spec).
  edestruct (IH rest) as [p Hp]; [done| |].
  2:{ erewrite bind_return by exact Hp. by exists p. }
  done.
Qed.

Section transport.

Variable split : string → list string.
Variable int : string → option Z.

Lemma int_item_spec (f : list string) (i : nat) x z :
  f !! i = Some x → int x = Some z → wire.int_item int f i = wire.Return z.
Proof.
  intros Hf Hx. unfold wire.int_item, wire.item, wire.to_int. rewrite Hf.
  cbn [mbind wire.outcome_bind]. by rewrite Hx.
Qed.

(** The exchange behind a [GETS] request, on a well-formed reply. *)
Lemma data_exchange {A} verbose (k : list string → wire.io A)
    header rows nstr more n rest c :
  Forall (λ l, one_line l = true) (header :: rows) →
  split header = "DATA" :: nstr :: more →
  int nstr = Some n →
  length rows = Z.to_nat n →
  wire.fin c = unlines (header :: rows ++ ["."]) +:+ rest →
  ∃ printed,
    (header ← wire.recv_line verbose;
     let parts := split header in
     p0 ← wire.pure (wire.item parts 0);
     if negb (String.eqb p0 "DATA") then wire.raise (wire.Raised RuntimeError)
     else
       n ← wire.pure (wire.int_item int parts 1);
       wire.send "OK" verbose;;
       rows ← wire.recv_lines verbose (Z.to_nat n);
       wire.send "OK" verbose;;
       dot ← wire.recv_line verbose;
       if negb (String.eqb dot ".") then wire.raise (wire.Raised RuntimeError)
       else k rows) c
    = k rows (wire.mkConn rest (wire.fout c +:+ unlines ["OK"; "OK"]) printed).
Proof.
  intros [Hh Hrows]%Forall_cons Hsplit Hint Hlen Hin.
  rewrite unlines_cons_app, unlines_app, (unlines_cons_app "." []) in Hin.
  change (unlines [] +:+ rest) with rest in Hin.
  erewrite bind_return by (by apply recv_line_spec). cbv zeta. rewrite Hsplit.
  erewrite bind_return by reflexivity. cbn [negb String.eqb Ascii.eqb Bool.eqb].
  erewrite bind_return
    by (unfold wire.pure;
        rewrite (int_item_spec _ 1%nat nstr n); [reflexivity|reflexivity|exact Hint]).
  erewrite bind_return by apply send_spec. rewrite <- Hlen.
  cbn [wire.fin wire.fout wire.stdout].
  lazymatch goal with
  | |- ∃ _, (_ ≫= _) ?cc = _ =>
      destruct (recv_lines_spec verbose rows ("." +:+ wire.nl +:+ rest) cc Hrows eq_refl)
        as [p Hp]
  end.
  cbn [wire.fin wire.fout wire.stdout] in Hp. erewrite bind_return by exact Hp.
  erewrite bind_return by apply send_spec. cbn [wire.fin wire.fout wire.stdout].
  erewrite bind_return by (apply (recv_line_spec "." rest); reflexivity).
  cbn [negb String.eqb Ascii.eqb Bool.eqb wire.fout wire.fin wire.stdout].
  eexists. f_equal. f_equal. cbn [unlines]. by rewrite !string_app_assoc.
Qed.

(** X16: [gets_all] and [gets_capable] on a well-formed reply: a header
    whose first word is [DATA] and whose second is the number [n], then
    [Z.to_nat n] rows, then [.].  They return the parsed rows, consume
    exactly the reply, and write the request followed by two [OK]. *)
Theorem gets_exchange (verbose : bool) (c : wire.Conn)
    (header : string) (rows : list string) (nstr : string) (more : list string)
    (n : Z) (parsed : list ServerRow) (rest : string) :
  Forall (λ l, one_line l = true) (header :: rows) →
  split header = "DATA" :: nstr :: more →
  int nstr = Some n →
  length rows = Z.to_nat n →
  wire.parse_rows split int rows = wire.Return parsed →
  wire.fin c = unlines (header :: rows ++ ["."]) +:+ rest →
  (∃ c', wire.gets_all split int verbose c = (wire.Return parsed, c') ∧
         wire.fin c' = rest ∧
         wire.fout c' = wire.fout c +:+ unlines ["GETS All"; "OK"; "OK"]) ∧
  (∀ cores mem disk,
     ∃ c', wire.gets_capable split int cores mem disk verbose c
             = (wire.Return parsed, c') ∧
           wire.fin c' = rest ∧
           wire.fout c' = wire.fout c +:+
             unlines [render (GETS_Capable cores mem disk); "OK"; "OK"]).
Proof.
  intros Hl Hsplit Hint Hlen Hparse Hin. split; [|intros cores mem disk].
  - unfold wire.gets_all. erewrite bind_return by apply send_spec.
    edestruct (data_exchange verbose (λ rows, wire.pure (wire.parse_rows split int rows)))
      as [p ->]; [done..|exact Hin|].
    unfold wire.pure. rewrite Hparse. eexists. split; [done|]. split; [done|].
    cbn [wire.fout unlines]. by rewrite !string_app_assoc.
  - unfold wire.gets_capable. erewrite bind_return by apply send_spec.
    edestruct (data_exchange verbose (λ rows, wire.pure (wire.parse_rows split int rows)))
      as [p ->]; [done..|exact Hin|].
    unfold wire.pure. rewrite Hparse. eexists. split; [done|]. split; [done|].
    cbn [wire.fout unlines render]. by rewrite !string_app_assoc.
Qed.

End transport.

(** ** Input is only consumed, output only appended *)

Lemma continues_refl c : continues c c.
Proof.
  split; [by exists ""|]. split; exists ""; by rewrite string_app_nil_r.
Qed.

Lemma continues_trans c1 c2 c3 : continues c1 c2 → continues c2 c3 → continues c1 c3.
Proof.
  intros ([r1 H1] & [w1 H2] & [p1 H3]) ([r2 H4] & [w2 H5] & [p2 H6]).
  split; [|split].
  - exists (r1 +:+ r2). by rewrite H1, H4, string_app_assoc.
  - exists (w1 +:+ w2). by rewrite H5, H2, string_app_assoc.
  - exists (p1 +:+ p2). by rewrite H6, H3, string_app_assoc.
Qed.

Lemma continues_length c c' :
  continues c c' → (String.length (wire.fin c') ≤ String.length (wire.fin c))%nat.
Proof. intros ([r ->] & _). rewrite string_app_length. lia. Qed.

Section preserving.

Variable R : wire.Conn → wire.Conn → Prop.
Hypothesis R_refl : ∀ c, R c c.
Hypothesis R_trans : ∀ c1 c2 c3, R c1 c2 → R c2 c3 → R c1 c3.

Lemma preserves_ret {A} (a : A) : preserves R (mret a).
Proof. intros c. apply R_refl. Qed.

Lemma preserves_raise {A} e : preserves R (@wire.raise A e).
Proof. intros c. apply R_refl. Qed.

Lemma preserves_pure {A} (r : wire.outcome A) : preserves R (wire.pure r).
Proof. intros c. apply R_refl. Qed.

Lemma preserves_bind {A B} (m : wire.io A) (k : A → wire.io B) :
  preserves R m → (∀ a, preserves R (k a)) → preserves R (m ≫= k).
Proof.
  intros Hm Hk c. unfold mbind, wire.io_bind. specialize (Hm c).
  destruct (m c) as [[a|e] c1]; cbn [snd] in *; [|done].
  eapply R_trans; [done|apply Hk].
Qed.

End preserving.

Ltac io_preserves R_refl R_trans :=
  repeat first
    [ assumption
    | match goal with
      | H : ∀ _, preserves _ _ |- _ => apply H
      | H : ∀ _ _, preserves _ _ |- _ => apply H
      | H : ∀ _ _ _, preserves _ _ |- _ => apply H
      | H : ∀ _ _ _ _, preserves _ _ |- _ => apply H
      | H : ∀ _ _ _ _ _, preserves _ _ |- _ => apply H
      end
    | apply (preserves_bind _ R_trans); [|intros ?]
    | apply (preserves_ret _ R_refl)
    | apply (preserves_raise _ R_refl)
    | apply (preserves_pure _ R_refl)
    | match goal with
      | |- preserves _ (match ?x with _ => _ end) => destruct x
      | |- preserves _ (let (_, _) := ?x in _) => destruct x
      end ].

Ltac io_continues := io_preserves continues_refl continues_trans.

Lemma print_continues a b : preserves continues (wire.print a b).
Proof.
  intros [i o p]. split; [by exists ""|]. split; [exists ""; by rewrite string_app_nil_r|].
  by eexists.
Qed.

Lemma write_continues s : preserves continues (wire.write s).
Proof.
  intros [i o p]. split; [by exists ""|]. split; [by eexists|].
  exists "". by rewrite string_app_nil_r.
Qed.

Lemma readline_continues : preserves continues wire.readline.
Proof.
  intros [i o p]. unfold wire.readline. cbn [wire.fin wire.fout wire.stdout].
  pose proof (readline_of_split i) as H. destruct (wire.readline_of i) as [line rest].
  split; [by exists line|]. split; exists ""; by rewrite string_app_nil_r.
Qed.

Lemma send_continues line verbose : preserves continues (wire.send line verbose).
Proof.
  pose proof print_continues. pose proof write_continues.
  unfold wire.send. io_continues.
Qed.

Lemma recv_line_continues verbose : preserves continues (wire.recv_line verbose).
Proof.
  pose proof print_continues. pose proof readline_continues.
  unfold wire.recv_line. io_continues.
Qed.

Lemma expect_ok_continues verbose : preserves continues (wire.expect_ok verbose).
Proof.
  pose proof recv_line_continues. unfold wire.expect_ok. io_continues.
Qed.

Lemma recv_lines_continues verbose n : preserves continues (wire.recv_lines verbose n).
Proof.
  pose proof recv_line_continues.
  induction n as [|n IH]; cbn [wire.recv_lines]; io_continues.
Qed.

Section transport_continues.

Variable split : string → list string.
Variable int : string → option Z.

Lemma gets_all_continues verbose : preserves continues (wire.gets_all split int verbose).
Proof.
  pose proof send_continues. pose proof recv_line_continues.
  pose proof recv_lines_continues.
  unfold wire.gets_all. io_continues.
Qed.

Lemma gets_capable_continues c m d verbose :
  preserves continues (wire.gets_capable split int c m d verbose).
Proof.
  pose proof send_continues. pose proof recv_line_continues.
  pose proof recv_lines_continues.
  unfold wire.gets_capable. io_continues.
Qed.

Lemma schd_continues job stype sid verbose :
  preserves continues (wire.schd job stype sid verbose).
Proof.
  pose proof send_continues. pose proof expect_ok_continues.
  unfold wire.schd. io_continues.
Qed.

Lemma on_JOBN_continues info args verbose m parts :
  preserves continues (wire.on_JOBN split int info args verbose m parts).
Proof.
  pose proof gets_all_continues. pose proof gets_capable_continues.
  pose proof schd_continues.
  unfold wire.on_JOBN. io_continues.
Qed.

Lemma on_JCPL_continues m parts : preserves continues (wire.on_JCPL int m parts).
Proof. unfold wire.on_JCPL. io_continues. Qed.

Lemma turn_continues info args verbose st :
  preserves continues (wire.turn split int info args verbose st).
Proof.
  pose proof send_continues. pose proof recv_line_continues.
  pose proof on_JOBN_continues. pose proof on_JCPL_continues.
  unfold wire.turn. io_continues.
Qed.

Lemma loop_continues fuel info args verbose : ∀ st,
  preserves continues (wire.loop split int fuel info args verbose st).
Proof.
  pose proof turn_continues.
  induction fuel as [|fuel IH]; intros st; cbn [wire.loop]; io_continues.
Qed.

End transport_continues.

(** ** Only lines of the protocol are written *)











Section transport_protocol.

Variable split : string → list string.
Variable int : string → option Z.
Variable user : string.








End transport_protocol.

(** ** The loop ends with the input *)

Lemma recv_line_progress verbose c line c' :
  wire.recv_line verbose c = (wire.Return line, c') →
  (String.length (wire.fin c') < String.length (wire.fin c))%nat.
Proof.
  destruct c as [i o p]. unfold wire.recv_line, wire.readline, mbind, wire.io_bind.
  cbn [wire.fin wire.fout wire.stdout].
  pose proof (readline_of_split i) as Hs.
  destruct (wire.readline_of i) as [l rest]. cbn [fst snd] in Hs.
  destruct (String.eqb_spec l "") as [|Hne]; [done|].
  assert (Hlen : (String.length rest < String.length i)%nat).
  { rewrite Hs, string_app_length. destruct l; [done|]. cbn [String.length]. lia. }
  destruct verbose; cbn; intros [= _ <-]; exact Hlen.
Qed.

Section transport_ends.

Variable split : string → list string.
Variable int : string → option Z.

Lemma turn_progress info args verbose st c next c' :
  wire.turn split int info args verbose st c = (wire.Return next, c') →
  (String.length (wire.fin c') < String.length (wire.fin c))%nat.
Proof.
  unfold wire.turn. intros (u & c1 & Hsend & H)%bind_inv.
  rewrite send_spec in Hsend. injection Hsend as _ <-.
  apply bind_inv in H as (line & c2 & Hrecv & H).
  apply recv_line_progress in Hrecv. cbn [wire.fin] in Hrecv.
  assert (Hc : continues c2 c').
  { match type of H with
    | ?m c2 = _ =>
        assert (Hp : preserves continues m);
          [|specialize (Hp c2); by rewrite H in Hp]
    end.
    pose proof send_continues. pose proof recv_line_continues.
    pose proof (on_JOBN_continues split int). pose proof (on_JCPL_continues int).
    io_continues. }
  apply continues_length in Hc. lia.
Qed.

(** With more fuel than input the loop ends by itself, and the same way
    for any such fuel. *)
Lemma loop_ends info args verbose fuel : ∀ fuel' st c,
  (String.length (wire.fin c) < fuel)%nat →
  (String.length (wire.fin c) < fuel')%nat →
  wire.loop split int fuel info args verbose st c
  = wire.loop split int fuel' info args verbose st c ∧
  ∀ st' c', wire.loop split int fuel info args verbose st c ≠ (wire.Return (Some st'), c').
Proof.
  induction fuel as [|fuel IH]; intros fuel' st c Hf Hf'; [lia|].
  destruct fuel' as [|fuel']; [lia|]. cbn [wire.loop].
  rewrite !bind_unfold.
  destruct (wire.turn split int info args verbose st c) as [[[st1|]|e] c1] eqn:E;
    [|done..].
  apply turn_progress in E. apply IH; lia.
Qed.

(** X22: on a finite input the session ends: with more turns allowed than
    the input has characters, [main] ends by [break] after [NONE] or by an
    exception, never for lack of turns, and allowing more turns changes
    nothing. *)
Theorem main_terminates (fuel : nat) (info : SystemInfo) (args : Args)
    (user : string) (verbose : bool) (c : wire.Conn) :
  (String.length (wire.fin c) < fuel)%nat →
  ((∃ c', wire.main split int fuel info args user verbose c = (wire.Return None, c')) ∨
   (∃ e c', wire.main split int fuel info args user verbose c = (wire.Throw e, c'))) ∧
  ∀ fuel', (fuel ≤ fuel')%nat →
    wire.main split int fuel' info args user verbose c
    = wire.main split int fuel info args user verbose c.
Proof.
  intros Hf.
  assert (H : ∀ fuel', (String.length (wire.fin c) < fuel')%nat →
     wire.main split int fuel' info args user verbose c
     = wire.main split int fuel info args user verbose c ∧
     ∀ st' c', wire.main split int fuel info args user verbose c
               ≠ (wire.Return (Some st'), c')).
  { intros fuel' Hf'. unfold wire.main.
    set (hs := (wire.send "HELO" verbose;; wire.expect_ok verbose;;
                wire.send ("AUTH " +:+ user) verbose;; wire.expect_ok verbose;;
                wire.gets_all split int verbose)).
    assert (Hhs : preserves continues hs).
    { pose proof send_continues. pose proof expect_ok_continues.
      pose proof (gets_all_continues split int). unfold hs. io_continues. }
    assert (E : ∀ n,
      (wire.send "HELO" verbose;; wire.expect_ok verbose;;
       wire.send ("AUTH " +:+ user) verbose;; wire.expect_ok verbose;;
       rows ← wire.gets_all split int verbose;
       wire.loop split int n info args verbose (main_init info rows)) c
      = (rows ← hs; wire.loop split int n info args verbose (main_init info rows)) c).
    { intros n. unfold hs, mbind, wire.io_bind.
      destruct (wire.send "HELO" verbose c) as [[?|?] c1]; [|done].
      destruct (wire.expect_ok verbose c1) as [[?|?] c2]; [|done].
      destruct (wire.send _ verbose c2) as [[?|?] c3]; [|done].
      destruct (wire.expect_ok verbose c3) as [[?|?] c4]; [|done].
      by destruct (wire.gets_all split int verbose c4) as [[?|?] c5]. }
    rewrite !E. unfold mbind, wire.io_bind. specialize (Hhs c).
    destruct (hs c) as [[rows|e] c1]; [|done]. cbn [snd] in Hhs.
    apply continues_length in Hhs.
    destruct (loop_ends info args verbose fuel fuel' (main_init info rows) c1)
      as [E' Hn]; [lia..|]. split; [by rewrite E'|exact Hn]. }
  split.
  - destruct (H fuel Hf) as [_ Hn].
    destruct (wire.main split int fuel info args user verbose c) as [[[st'|]|e] c'];
      [by destruct (Hn st' c')|left; eexists; reflexivity|right; do 2 eexists; reflexivity].
  - intros fuel' Hle. apply H. lia.
Qed.

End transport_ends.

(** ** [verbose] only prints *)

Lemma same_traffic_refl c : same_traffic c c.
Proof. done. Qed.

Lemma agree_ret {A} (a : A) : agree (mret a) (mret a).
Proof. by intros c c' Hs. Qed.

Lemma agree_raise {A} e : agree (@wire.raise A e) (wire.raise e).
Proof. by intros c c' Hs. Qed.

Lemma agree_pure {A} (r : wire.outcome A) : agree (wire.pure r) (wire.pure r).
Proof. by intros c c' Hs. Qed.

Lemma agree_bind {A B} (m m' : wire.io A) (k k' : A → wire.io B) :
  agree m m' → (∀ a, agree (k a) (k' a)) → agree (m ≫= k) (m' ≫= k').
Proof.
  intros Hm Hk c c' Hs. rewrite !bind_unfold. destruct (Hm c c' Hs) as [E S].
  destruct (m c) as [[a|e] c1], (m' c') as [[a'|e'] c1']; cbn [fst snd] in *;
    simplify_eq; [by apply Hk|done].
Qed.

Lemma agree_print_skip a b : agree (wire.print a b) (mret tt).
Proof. by intros [i o p] [i' o' p'] [Hi Ho]. Qed.

Lemma agree_write s : agree (wire.write s) (wire.write s).
Proof.
  intros [i o p] [i' o' p'] [Hi Ho]. cbn in *. subst. done.
Qed.

Lemma agree_readline : agree wire.readline wire.readline.
Proof.
  intros [i o p] [i' o' p'] [Hi Ho]. cbn in *. subst. unfold wire.readline.
  cbn [wire.fin wire.fout wire.stdout]. by destruct (wire.readline_of i').
Qed.

Ltac io_agree :=
  repeat first
    [ assumption
    | match goal with
      | H : ∀ _, agree _ _ |- _ => apply H
      | H : ∀ _ _, agree _ _ |- _ => apply H
      | H : ∀ _ _ _, agree _ _ |- _ => apply H
      | H : ∀ _ _ _ _, agree _ _ |- _ => apply H
      | H : ∀ _ _ _ _ _, agree _ _ |- _ => apply H
      end
    | apply agree_bind; [|intros ?]
    | apply agree_ret
    | apply agree_raise
    | apply agree_pure
    | match goal with
      | |- agree (match ?x with _ => _ end) (match ?x with _ => _ end) => destruct x
      | |- agree (let (_, _) := ?x in _) (let (_, _) := ?x in _) => destruct x
      end ].

Lemma send_quiet line : agree (wire.send line true) (wire.send line false).
Proof.
  unfold wire.send. apply agree_bind; [apply agree_print_skip|intros _; apply agree_write].
Qed.

Lemma recv_line_quiet : agree (wire.recv_line true) (wire.recv_line false).
Proof.
  unfold wire.recv_line. apply agree_bind; [apply agree_readline|intros line].
  destruct (String.eqb line ""); [apply agree_raise|].
  apply agree_bind; [apply agree_print_skip|intros _; apply agree_ret].
Qed.

Lemma expect_ok_quiet : agree (wire.expect_ok true) (wire.expect_ok false).
Proof. pose proof recv_line_quiet. unfold wire.expect_ok. io_agree. Qed.

Lemma recv_lines_quiet n : agree (wire.recv_lines true n) (wire.recv_lines false n).
Proof.
  pose proof recv_line_quiet. induction n as [|n IH]; cbn [wire.recv_lines]; io_agree.
Qed.

Section transport_quiet.

Variable split : string → list string.
Variable int : string → option Z.

Lemma gets_all_quiet :
  agree (wire.gets_all split int true) (wire.gets_all split int false).
Proof.
  pose proof send_quiet. pose proof recv_line_quiet. pose proof recv_lines_quiet.
  unfold wire.gets_all. io_agree.
Qed.

Lemma gets_capable_quiet c m d :
  agree (wire.gets_capable split int c m d true) (wire.gets_capable split int c m d false).
Proof.
  pose proof send_quiet. pose proof recv_line_quiet. pose proof recv_lines_quiet.
  unfold wire.gets_capable. io_agree.
Qed.

Lemma schd_quiet job stype sid :
  agree (wire.schd job stype sid true) (wire.schd job stype sid false).
Proof. pose proof send_quiet. pose proof expect_ok_quiet. unfold wire.schd. io_agree. Qed.

Lemma on_JOBN_quiet info args m parts :
  agree (wire.on_JOBN split int info args true m parts)
        (wire.on_JOBN split int info args false m parts).
Proof.
  pose proof gets_all_quiet. pose proof gets_capable_quiet. pose proof schd_quiet.
  unfold wire.on_JOBN. io_agree.
Qed.

Lemma on_JCPL_agree m parts : agree (wire.on_JCPL int m parts) (wire.on_JCPL int m parts).
Proof. unfold wire.on_JCPL. io_agree. Qed.

Lemma turn_quiet info args st :
  agree (wire.turn split int info args true st) (wire.turn split int info args false st).
Proof.
  pose proof send_quiet. pose proof recv_line_quiet.
  pose proof on_JOBN_quiet. pose proof on_JCPL_agree.
  unfold wire.turn. io_agree.
Qed.

Lemma loop_quiet fuel info args : ∀ st,
  agree (wire.loop split int fuel info args true st)
        (wire.loop split int fuel info args false st).
Proof.
  pose proof turn_quiet.
  induction fuel as [|fuel IH]; intros st; cbn [wire.loop]; io_agree.
Qed.

(** X23: [verbose] changes nothing but the echo: with and without it
    [main] ends the same way, having read and written the same. *)
Theorem quiet_changes_only_the_echo (fuel : nat) (info : SystemInfo) (args : Args)
    (user : string) (c : wire.Conn) :
  (wire.main split int fuel info args user true c).1
  = (wire.main split int fuel info args user false c).1 ∧
  wire.fin (wire.main split int fuel info args user true c).2
  = wire.fin (wire.main split int fuel info args user false c).2 ∧
  wire.fout (wire.main split int fuel info args user true c).2
  = wire.fout (wire.main split int fuel info args user false c).2.
Proof.
  assert (H : agree (wire.main split int fuel info args user true)
                    (wire.main split int fuel info args user false)).
  { pose proof send_quiet. pose proof expect_ok_quiet.
    pose proof gets_all_quiet. pose proof loop_quiet.
    unfold wire.main. io_agree. }
  destruct (H c c (same_traffic_refl c)) as [E [E1 E2]]. done.
Qed.

End transport_quiet.

(** ** A turn of the loop against the handlers *)

Lemma step_JOBN_result info args st j r :
  (step info args st (JOBN j r)).2 =
  (m ← (decide_placement info args (sched_by_srv st) j (candidates r) (schd_reply r)).2;
   Ok (Some (mkState m (submit j)))).
Proof. cbn [step]. by rewrite handle_JOBN_decides. Qed.

Section transport_turn.

Variable split : string → list string.
Variable int : string → option Z.

Lemma pure_int_item (f : list string) (i : nat) x z (c : wire.Conn) :
  f !! i = Some x → int x = Some z →
  wire.pure (wire.int_item int f i) c = (wire.Return z, c).
Proof. intros Hf Hx. unfold wire.pure. by rewrite (int_item_spec int f i x z). Qed.

(** After [REDY] and the event line, the turn goes by the line's first
    word. *)
Lemma turn_after_line info args verbose st c line c1 :
  (wire.send "REDY" verbose;; wire.recv_line verbose) c = (wire.Return line, c1) →
  wire.turn split int info args verbose st c =
  (kind ← wire.pure (wire.item (split line) 0);
   if String.eqb kind "JOBN"
   then wire.on_JOBN split int info args verbose (sched_by_srv st) (split line)
   else if String.eqb kind "JCPL" then wire.on_JCPL int (sched_by_srv st) (split line)
   else if String.eqb kind "NONE" then
     wire.send "QUIT" verbose;;
     _ ← wire.recv_line verbose;
     mret None
   else mret (Some st)) c1.
Proof.
  intros (u & c0 & Hs & Hr)%bind_inv. unfold wire.turn.
  erewrite bind_return by exact Hs. by erewrite bind_return by exact Hr.
Qed.

(** [SCHD] and its reply. *)
Lemma schd_spec job stype sid verbose reply rest c :
  one_line reply = true →
  wire.fin c = reply +:+ wire.nl +:+ rest →
  ∃ printed,
    wire.schd job stype sid verbose c =
    (lift_unit reply,
     wire.mkConn rest (wire.fout c +:+ render (SCHD job stype sid) +:+ wire.nl) printed).
Proof.
  intros Hl Hin. unfold wire.schd. erewrite bind_return by apply send_spec.
  unfold wire.expect_ok.
  erewrite bind_return by (by apply (recv_line_spec reply rest)).
  unfold lift_unit, expect_ok. cbn [wire.fout wire.fin wire.stdout].
  destruct (String.eqb reply "OK"); by eexists.
Qed.

(** X18: a turn of the loop on the streams does what the event-level
    [step] says, for a [JOBN] line: when the line's six fields are the
    numbers of the job [j], [gets_capable] returns [caps] (and [gets_all],
    called only when [caps] is empty, returns [cands]), and a reply line
    follows, the turn ends as [step] does on [JOBN j] with those replies; it
    writes the lines of the commands the decision sends and reads the reply
    only when an [SCHD] was sent. *)
Theorem turn_JOBN_refines_step (info : SystemInfo) (args : Args) (verbose : bool)
    (st : State) (c c1 c2 c3 : wire.Conn) (line f1 f2 f3 f4 f5 f6 : string)
    (more : list string) (j : Job) (caps cands : list ServerRow)
    (reply rest : string) :
  (wire.send "REDY" verbose;; wire.recv_line verbose) c = (wire.Return line, c1) →
  split line = "JOBN" :: f1 :: f2 :: f3 :: f4 :: f5 :: f6 :: more →
  int f1 = Some (job_id j) → int f2 = Some (submit j) →
  int f3 = Some (j_cores j) → int f4 = Some (j_mem j) →
  int f5 = Some (j_disk j) → int f6 = Some (j_est j) →
  wire.gets_capable split int (j_cores j) (j_mem j) (j_disk j) verbose c1
    = (wire.Return caps, c2) →
  match caps with
  | [] => wire.gets_all split int verbose
  | _ => mret caps
  end c2 = (wire.Return cands, c3) →
  one_line reply = true →
  wire.fin c3 = reply +:+ wire.nl +:+ rest →
  let r := mkReplies caps cands reply in
  let sent := (decide_placement info args (sched_by_srv st) j cands reply).1 in
  ∃ c',
    wire.turn split int info args verbose st c
      = (wire.lift (step info args st (JOBN j r)).2, c') ∧
    wire.fout c' = wire.fout c3 +:+ unlines (map render sent) ∧
    wire.fin c' = match sent with [] => wire.fin c3 | _ => rest end.
Proof.
  intros Hline Hsplit H1 H2 H3 H4 H5 H6 Hcap Hcands Hl Hin r sent.
  rewrite (turn_after_line _ _ _ _ _ _ _ Hline), Hsplit.
  erewrite bind_return by reflexivity.
  change (String.eqb "JOBN" "JOBN") with true. cbv iota. unfold wire.on_JOBN.
  erewrite bind_return by (by eapply pure_int_item).
  erewrite bind_return by (by eapply pure_int_item).
  erewrite bind_return by (by eapply pure_int_item).
  erewrite bind_return by (by eapply pure_int_item).
  erewrite bind_return by (by eapply pure_int_item).
  erewrite bind_return by (by eapply pure_int_item).
  cbv zeta.
  replace (mkJob (job_id j) (submit j) (j_cores j) (j_mem j) (j_disk j) (j_est j))
    with j by (by destruct j).
  erewrite bind_return by exact Hcap.
  erewrite bind_return by exact Hcands.
  assert (Ec : candidates r = cands).
  { unfold candidates, r. cbn [capable_rows all_rows]. destruct caps; [done|].
    by injection Hcands as ->. }
  rewrite step_JOBN_result, Ec. subst sent. cbn [schd_reply r].
  unfold decide_placement.
  destruct (filter (λ s, is_instant j s = true) cands) as [|s0 instant'].
  - destruct (consider_all info args (submit j) j cands (sched_by_srv st, None))
      as [[m1 [b|]]|e]; cbn [fst snd mbind result_bind wire.lift].
    + erewrite bind_return by reflexivity.
      destruct (schd_spec (job_id j) (c_type b) (c_id b) verbose reply rest c3 Hl Hin)
        as [p Hp].
      rewrite bind_unfold, Hp. unfold lift_unit, expect_ok.
      destruct (String.eqb reply "OK"); cbn [mbind result_bind wire.lift].
      * rewrite bind_unfold. unfold wire.pure.
        destruct (record_job m1 (c_type b) (c_id b) (c_start b) j) as [m2|e];
          cbn [mbind result_bind wire.lift wire.fout wire.fin map unlines];
          eexists; (split; [reflexivity|]);
          cbn [wire.fout wire.fin]; by rewrite string_app_nil_r.
      * eexists. split; [reflexivity|]. cbn [wire.fout wire.fin map unlines].
        by rewrite string_app_nil_r.
    + erewrite bind_return by reflexivity. eexists. split; [reflexivity|].
      cbn [map unlines]. by rewrite string_app_nil_r.
    + erewrite bind_throw by reflexivity. eexists. split; [reflexivity|].
      cbn [map unlines]. by rewrite string_app_nil_r.
  - destruct (py_min _ _) as [[? stype] sid]. cbn [fst snd].
    destruct (schd_spec (job_id j) stype sid verbose reply rest c3 Hl Hin) as [p Hp].
    rewrite bind_unfold, Hp. unfold lift_unit, expect_ok.
    destruct (String.eqb reply "OK"); cbn [mbind result_bind wire.lift].
    + rewrite bind_unfold. unfold wire.pure.
      destruct (record_job (sched_by_srv st) stype sid (submit j) j) as [m2|e];
        cbn [mbind result_bind wire.lift wire.fout wire.fin map unlines];
        eexists; (split; [reflexivity|]);
        cbn [wire.fout wire.fin]; by rewrite string_app_nil_r.
    + eexists. split; [reflexivity|]. cbn [wire.fout wire.fin map unlines].
      by rewrite string_app_nil_r.
Qed.

End transport_turn.

Section transport_events.

Variable split : string → list string.
Variable int : string → option Z.

(** X19: a turn of the loop on the streams does what the event-level
    [step] says, for an event line other than [JOBN]: a [JCPL] line (whose
    job field is not even parsed), [NONE] (which sends [QUIT] and reads one
    more line), and any other first word (which only loops). *)
Theorem turn_refines_step (info : SystemInfo) (args : Args) (verbose : bool)
    (st : State) (c c1 : wire.Conn) (line : string) :
  (wire.send "REDY" verbose;; wire.recv_line verbose) c = (wire.Return line, c1) →
  (∀ ft fj stype fid more t sid job,
     split line = "JCPL" :: ft :: fj :: stype :: fid :: more →
     int ft = Some t → int fid = Some sid →
     wire.turn split int info args verbose st c
     = (wire.lift (step info args st (JCPL t job stype sid)).2, c1)) ∧
  (∀ more bye rest,
     split line = "NONE" :: more →
     one_line bye = true → wire.fin c1 = bye +:+ wire.nl +:+ rest →
     ∃ c', wire.turn split int info args verbose st c
             = (wire.lift (step info args st NONE).2, c') ∧
           wire.fin c' = rest ∧
           wire.fout c' = wire.fout c1 +:+ render QUIT +:+ wire.nl) ∧
  (∀ kind more,
     split line = kind :: more →
     kind ≠ "JOBN" → kind ≠ "JCPL" → kind ≠ "NONE" →
     wire.turn split int info args verbose st c
     = (wire.lift (step info args st OTHER).2, c1)).
Proof.
  intros Hline. rewrite (turn_after_line split int _ _ _ _ _ _ _ Hline).
  split; [|split].
  - intros ft fj stype fid more t sid job Hsplit Ht Hid. rewrite Hsplit.
    erewrite bind_return by reflexivity.
    change (String.eqb "JCPL" "JOBN") with false.
    change (String.eqb "JCPL" "JCPL") with true. cbv iota. unfold wire.on_JCPL.
    erewrite bind_return by (by eapply pure_int_item).
    erewrite bind_return by reflexivity.
    erewrite bind_return by (by eapply pure_int_item). done.
  - intros more bye rest Hsplit Hl Hin. rewrite Hsplit.
    erewrite bind_return by reflexivity.
    change (String.eqb "NONE" "JOBN") with false.
    change (String.eqb "NONE" "JCPL") with false.
    change (String.eqb "NONE" "NONE") with true. cbv iota.
    erewrite bind_return by apply send_spec.
    erewrite bind_return by (by apply (recv_line_spec bye rest)).
    eexists. split; [reflexivity|]. done.
  - intros kind more Hsplit H1 H2 H3. rewrite Hsplit.
    erewrite bind_return by reflexivity.
    apply String.eqb_neq in H1, H2, H3. by rewrite H1, H2, H3.
Qed.

(** X20: how a turn fails before it decides anything: at the end of the
    input [REDY] is still written and [ConnectionError] raised; a blank
    event line raises [IndexError]; after [NONE], [QUIT] is written and an
    input that has ended raises [ConnectionError]; a [JOBN] or [JCPL] line
    with no field after its first word raises [IndexError]. *)
Theorem turn_failures (info : SystemInfo) (args : Args) (verbose : bool)
    (st : State) (c : wire.Conn) :
  (wire.fin c = "" →
   ∃ c', wire.turn split int info args verbose st c
           = (wire.Throw wire.ConnectionError, c') ∧
         wire.fout c' = wire.fout c +:+ "REDY" +:+ wire.nl) ∧
  (∀ line c1,
     (wire.send "REDY" verbose;; wire.recv_line verbose) c = (wire.Return line, c1) →
     (split line = [] →
      wire.turn split int info args verbose st c = (wire.Throw wire.IndexError, c1)) ∧
     (∀ more, split line = "NONE" :: more → wire.fin c1 = "" →
        ∃ c', wire.turn split int info args verbose st c
                = (wire.Throw wire.ConnectionError, c') ∧
              wire.fout c' = wire.fout c1 +:+ "QUIT" +:+ wire.nl) ∧
     (∀ k fields, split line = k :: fields → (k = "JOBN" ∨ k = "JCPL") →
        fields !! 0%nat = None →
        wire.turn split int info args verbose st c = (wire.Throw wire.IndexError, c1))).
Proof.
  split.
  - intros Hin. unfold wire.turn. erewrite bind_return by apply send_spec.
    erewrite bind_throw by (by apply recv_line_eof). eexists. split; [reflexivity|done].
  - intros line c1 Hline. rewrite (turn_after_line split int _ _ _ _ _ _ _ Hline).
    split; [|split].
    + intros Hsplit. rewrite Hsplit. by erewrite bind_throw by reflexivity.
    + intros more Hsplit Hin. rewrite Hsplit. erewrite bind_return by reflexivity.
      change (String.eqb "NONE" "JOBN") with false.
      change (String.eqb "NONE" "JCPL") with false.
      change (String.eqb "NONE" "NONE") with true. cbv iota.
      erewrite bind_return by apply send_spec.
      erewrite bind_throw by (by apply recv_line_eof).
      eexists. split; [reflexivity|done].
    + intros k fields Hsplit Hk Hf. rewrite Hsplit. erewrite bind_return by reflexivity.
      destruct fields as [|f fields]; [|done].
      destruct Hk as [-> | ->].
      * change (String.eqb "JOBN" "JOBN") with true. cbv iota. unfold wire.on_JOBN.
        by erewrite bind_throw by reflexivity.
      * change (String.eqb "JCPL" "JOBN") with false.
        change (String.eqb "JCPL" "JCPL") with true. cbv iota. unfold wire.on_JCPL.
        by erewrite bind_throw by reflexivity.
Qed.

(** The exchange behind a [GETS] request, on a header that is no [DATA n]. *)
Lemma bad_header_exchange {A} verbose (k : list string → wire.io A) header rest c :
  one_line header = true →
  wire.fin c = header +:+ wire.nl +:+ rest →
  ∃ printed,
    (header ← wire.recv_line verbose;
     let parts := split header in
     p0 ← wire.pure (wire.item parts 0);
     if negb (String.eqb p0 "DATA") then wire.raise (wire.Raised RuntimeError)
     else
       n ← wire.pure (wire.int_item int parts 1);
       wire.send "OK" verbose;;
       rows ← wire.recv_lines verbose (Z.to_nat n);
       wire.send "OK" verbose;;
       dot ← wire.recv_line verbose;
       if negb (String.eqb dot ".") then wire.raise (wire.Raised RuntimeError)
       else k rows) c
    = match split header with
      | [] => (wire.Throw wire.IndexError, wire.mkConn rest (wire.fout c) printed)
      | p0 :: more =>
          if String.eqb p0 "DATA" then
            match more with
            | [] => (wire.Throw wire.IndexError, wire.mkConn rest (wire.fout c) printed)
            | nstr :: _ =>
                match int nstr with
                | None =>
                    (wire.Throw wire.ValueError, wire.mkConn rest (wire.fout c) printed)
                | Some n =>
                    (wire.send "OK" verbose;;
                     rows ← wire.recv_lines verbose (Z.to_nat n);
                     wire.send "OK" verbose;;
                     dot ← wire.recv_line verbose;
                     if negb (String.eqb dot ".")
                     then wire.raise (wire.Raised RuntimeError)
                     else k rows) (wire.mkConn rest (wire.fout c) printed)
                end
            end
          else (wire.Throw (wire.Raised RuntimeError),
                wire.mkConn rest (wire.fout c) printed)
      end.
Proof.
  intros Hl Hin. erewrite bind_return by (by apply recv_line_spec). cbv zeta.
  eexists. destruct (split header) as [|p0 more].
  { by erewrite bind_throw by reflexivity. }
  erewrite bind_return by reflexivity.
  destruct (String.eqb p0 "DATA"); cbn [negb]; [|done].
  destruct more as [|nstr more].
  { by erewrite bind_throw by reflexivity. }
  unfold wire.pure, wire.int_item, wire.item, wire.to_int.
  cbn [lookup list_lookup mbind wire.outcome_bind].
  rewrite bind_unfold. by destruct (int nstr).
Qed.

(** X17: [gets_all] and [gets_capable] on a header that is not [DATA n]:
    [IndexError] for a blank header or a lone [DATA], [RuntimeError] for
    another first word, [ValueError] when [n] is no number; in each case the
    header alone has been consumed and the request alone written, no
    [OK]. *)
Theorem gets_bad_header (verbose : bool) (c : wire.Conn) (header rest : string)
    (e : wire.failure) :
  one_line header = true →
  wire.fin c = header +:+ wire.nl +:+ rest →
  match split header with
  | [] => Some wire.IndexError
  | p0 :: more =>
      if String.eqb p0 "DATA" then
        match more with
        | [] => Some wire.IndexError
        | nstr :: _ =>
            match int nstr with
            | Some _ => None
            | None => Some wire.ValueError
            end
        end
      else Some (wire.Raised RuntimeError)
  end = Some e →
  (∃ c', wire.gets_all split int verbose c = (wire.Throw e, c') ∧
         wire.fin c' = rest ∧
         wire.fout c' = wire.fout c +:+ "GETS All" +:+ wire.nl) ∧
  (∀ cores mem disk,
     ∃ c', wire.gets_capable split int cores mem disk verbose c = (wire.Throw e, c') ∧
           wire.fin c' = rest ∧
           wire.fout c' = wire.fout c +:+ render (GETS_Capable cores mem disk) +:+ wire.nl).
Proof.
  intros Hl Hin He. split; [|intros cores mem disk].
  - unfold wire.gets_all. erewrite bind_return by apply send_spec.
    edestruct (bad_header_exchange verbose
                 (λ rows, wire.pure (wire.parse_rows split int rows)))
      as [p ->]; [exact Hl|exact Hin|].
    destruct (split header) as [|p0 more]; [injection He as <-; by eexists|].
    destruct (String.eqb p0 "DATA"); [|injection He as <-; by eexists].
    destruct more as [|nstr more]; [injection He as <-; by eexists|].
    destruct (int nstr); [done|injection He as <-; by eexists].
  - unfold wire.gets_capable. erewrite bind_return by apply send_spec.
    edestruct (bad_header_exchange verbose
                 (λ rows, wire.pure (wire.parse_rows split int rows)))
      as [p ->]; [exact Hl|exact Hin|].
    destruct (split header) as [|p0 more]; [injection He as <-; by eexists|].
    destruct (String.eqb p0 "DATA"); [|injection He as <-; by eexists].
    destruct more as [|nstr more]; [injection He as <-; by eexists|].
    destruct (int nstr); [done|injection He as <-; by eexists].
Qed.

Lemma expect_ok_spec reply rest verbose c :
  one_line reply = true →
  wire.fin c = reply +:+ wire.nl +:+ rest →
  wire.expect_ok verbose c =
  (if String.eqb reply "OK" then wire.Return tt else wire.Throw (wire.Raised RuntimeError),
   wire.mkConn rest (wire.fout c) (wire.stdout c +:+ echo verbose "<<" reply)).
Proof.
  intros Hl Hin. unfold wire.expect_ok.
  erewrite bind_return by (by apply (recv_line_spec reply rest)).
  by destruct (String.eqb reply "OK").
Qed.

(** X24: the handshake of [main]: [HELO] is written and the first reply
    read; unless it is [OK] nothing more is written and [RuntimeError] is
    raised; else [AUTH user] is written and the second reply read, and
    unless that is [OK], [RuntimeError] is raised; else the session goes on
    with [GETS All] and the loop, from the models that reply gives. *)
Theorem main_handshake (fuel : nat) (info : SystemInfo) (args : Args)
    (user : string) (verbose : bool) (c : wire.Conn) (r1 r2 rest : string) :
  one_line r1 = true → one_line r2 = true →
  wire.fin c = unlines [r1; r2] +:+ rest →
  ∃ c',
    wire.fout c' = wire.fout c +:+
      (if String.eqb r1 "OK" then unlines ["HELO"; "AUTH " +:+ user]
       else unlines ["HELO"]) ∧
    wire.fin c' = (if String.eqb r1 "OK" then rest else r2 +:+ wire.nl +:+ rest) ∧
    wire.main split int fuel info args user verbose c =
      if String.eqb r1 "OK" && String.eqb r2 "OK"
      then (rows ← wire.gets_all split int verbose;
            wire.loop split int fuel info args verbose (main_init info rows)) c'
      else (wire.Throw (wire.Raised RuntimeError), c').
Proof.
  intros Hl1 Hl2 Hin. rewrite unlines_cons_app, unlines_cons_app in Hin.
  change (unlines [] +:+ rest) with rest in Hin.
  unfold wire.main. erewrite bind_return by apply send_spec.
  rewrite bind_unfold, (expect_ok_spec r1 (r2 +:+ wire.nl +:+ rest)) by done.
  destruct (String.eqb r1 "OK"); cbn [negb andb].
  - erewrite bind_return by apply send_spec.
    rewrite bind_unfold, (expect_ok_spec r2 rest) by done.
    destruct (String.eqb r2 "OK"); cbn [negb].
    + eexists. split; [|split; [|reflexivity]]; cbn [wire.fout wire.fin unlines]; [|done].
      by rewrite ?string_app_assoc, ?string_app_nil_r.
    + eexists. split; [|split; [|reflexivity]]; cbn [wire.fout wire.fin unlines]; [|done].
      by rewrite ?string_app_assoc, ?string_app_nil_r.
  - eexists. split; [|split; [|reflexivity]]; cbn [wire.fout wire.fin unlines]; [|done].
    by rewrite ?string_app_assoc, ?string_app_nil_r.
Qed.

End transport_events.

Section transport_rows.

Variable split : string → list string.
Variable int : string → option Z.

Lemma outcome_bind_return {A B} (r : wire.outcome A) (k : A → wire.outcome B) b :
  r ≫= k = wire.Return b → ∃ a, r = wire.Return a ∧ k a = wire.Return b.
Proof. destruct r as [a|e]; [|done]. by exists a. Qed.

Lemma item_return f i x : wire.item f i = wire.Return x → f !! i = Some x.
Proof. unfold wire.item. by destruct (f !! i); intros [= ->]. Qed.

Lemma int_item_return f i z :
  wire.int_item int f i = wire.Return z → ∃ x, f !! i = Some x ∧ int x = Some z.
Proof.
  unfold wire.int_item. intros (x & Hx%item_return & Hz)%outcome_bind_return.
  exists x. split; [done|]. unfold wire.to_int in Hz. by destruct (int x); simplify_eq.
Qed.

(** X25: [parse_server_row] returns a row exactly for a line of at least
    nine fields whose fields 1 and 3 to 8 are numbers; fields after the
    ninth are ignored; on any other line it raises. *)
Theorem parse_server_row_accepts (line : string) (s : ServerRow) :
  wire.parse_server_row split int line = wire.Return s ↔
  ∃ f1 f3 f4 f5 f6 f7 f8 extra,
    split line = row_type s :: f1 :: row_state s :: f3 :: f4 :: f5 :: f6 :: f7 :: f8 :: extra ∧
    int f1 = Some (row_id s) ∧ int f3 = Some (row_curStartTime s) ∧
    int f4 = Some (row_cores s) ∧ int f5 = Some (row_mem s) ∧
    int f6 = Some (row_disk s) ∧ int f7 = Some (row_wJobs s) ∧
    int f8 = Some (row_rJobs s).
Proof.
  unfold wire.parse_server_row. cbv zeta. split.
  - intros (ty & H0%item_return & H)%outcome_bind_return.
    apply outcome_bind_return in H as (id & (f1 & H1 & I1)%int_item_return & H).
    apply outcome_bind_return in H as (state & H2%item_return & H).
    apply outcome_bind_return in H as (cst & (f3 & H3 & I3)%int_item_return & H).
    apply outcome_bind_return in H as (cores & (f4 & H4 & I4)%int_item_return & H).
    apply outcome_bind_return in H as (mem & (f5 & H5 & I5)%int_item_return & H).
    apply outcome_bind_return in H as (disk & (f6 & H6 & I6)%int_item_return & H).
    apply outcome_bind_return in H as (wj & (f7 & H7 & I7)%int_item_return & H).
    apply outcome_bind_return in H as (rj & (f8 & H8 & I8)%int_item_return & H).
    injection H as <-. cbn.
    destruct (split line) as [|? [|? [|? [|? [|? [|? [|? [|? [|? extra]]]]]]]]];
      try done.
    cbn in *. simplify_eq. by exists f1, f3, f4, f5, f6, f7, f8, extra.
  - intros (f1 & f3 & f4 & f5 & f6 & f7 & f8 & extra & -> & I1 & I3 & I4 & I5 & I6 & I7 & I8).
    cbn [wire.item lookup list_lookup mbind wire.outcome_bind].
    do 7 (erewrite int_item_spec; [|reflexivity|eassumption];
          cbn [mbind wire.outcome_bind wire.item lookup list_lookup]).
    cbn [mbind wire.outcome_bind]. by destruct s.
Qed.

End transport_rows.

(** ** The theorems on a session *)

Lemma send_recv_round_trip_witness :
  (wire.recv_line false (wire.mkConn ("REDY" +:+ wire.nl +:+ "JOBN") "" "")).1
    = wire.Return "REDY" ∧
  wire.fin (wire.recv_line false (wire.mkConn ("REDY" +:+ wire.nl +:+ "JOBN") "" "")).2
    = "JOBN".
Proof.
  apply (send_recv_round_trip "REDY" true false (wire.mkConn "" "" "")
           (wire.mkConn ("REDY" +:+ wire.nl +:+ "JOBN") "" "") "JOBN"); reflexivity.
Defined.

Lemma gets_exchange_witness :
  ∃ c', wire.gets_all ascii_split ascii_int false
          (wire.mkConn (unlines ("DATA 2 124" :: example_rows ++ ["."]) +:+ "REDY") "" "")
        = (wire.Return example_parsed, c') ∧
        wire.fin c' = "REDY" ∧
        wire.fout c' = "" +:+ unlines ["GETS All"; "OK"; "OK"].
Proof.
  apply (gets_exchange ascii_split ascii_int false
           (wire.mkConn (unlines ("DATA 2 124" :: example_rows ++ ["."]) +:+ "REDY") "" "")
           "DATA 2 124" example_rows "2" ["124"] 2 example_parsed "REDY").
  - repeat constructor.
  - reflexivity.
  - reflexivity.
  - reflexivity.
  - vm_compute. reflexivity.
  - reflexivity.
Defined.

Lemma gets_bad_header_witness :
  ∃ c', wire.gets_all ascii_split ascii_int false
          (wire.mkConn ("ERR unknown" +:+ wire.nl +:+ "REDY") "" "")
        = (wire.Throw (wire.Raised RuntimeError), c') ∧
        wire.fin c' = "REDY" ∧
        wire.fout c' = "" +:+ "GETS All" +:+ wire.nl.
Proof.
  apply (gets_bad_header ascii_split ascii_int false
           (wire.mkConn ("ERR unknown" +:+ wire.nl +:+ "REDY") "" "")
           "ERR unknown" "REDY" (wire.Raised RuntimeError)); reflexivity.
Defined.

Lemma main_terminates_witness :
  ∃ c', wire.main ascii_split ascii_int 300 (scenarioB_info scenarioB_rates) default_args
          "me" false (wire.mkConn example_session "" "")
        = (wire.Return None, c').
Proof.
  destruct (main_terminates ascii_split ascii_int 300 (scenarioB_info scenarioB_rates)
              default_args "me" false (wire.mkConn example_session "" ""))
    as [[H|[e [c' H]]] _].
  - apply Nat.ltb_lt. vm_compute. reflexivity.
  - exact H.
  - exfalso. revert H. vm_compute. discriminate.
Defined.

Lemma main_handshake_witness :
  ∃ c', wire.fout c' = "" +:+ unlines ["HELO"] ∧
        wire.fin c' = "OK" +:+ wire.nl +:+ "" ∧
        wire.main ascii_split ascii_int 5 (scenarioB_info scenarioB_rates) default_args
          "me" false (wire.mkConn (unlines ["DENIED"; "OK"] +:+ "") "" "")
        = (wire.Throw (wire.Raised RuntimeError), c').
Proof.
  apply (main_handshake ascii_split ascii_int 5 (scenarioB_info scenarioB_rates)
           default_args "me" false (wire.mkConn (unlines ["DENIED"; "OK"] +:+ "") "" "")
           "DENIED" "OK" ""); reflexivity.
Defined.

Lemma turn_refines_step_witness :
  let st := mkState (scenarioB_models (300, 4)) 100 in
  wire.turn ascii_split ascii_int (scenarioB_info scenarioB_rates) default_args false st
    (wire.mkConn (unlines ["JCPL 300 7 small 0"]) "" "")
  = (wire.lift (step (scenarioB_info scenarioB_rates) default_args st
                  (JCPL 300 7 "small" 0)).2,
     wire.mkConn "" (unlines ["REDY"]) "").
Proof.
  intros st.
  eapply (proj1 (turn_refines_step ascii_split ascii_int (scenarioB_info scenarioB_rates)
                   default_args false st
                   (wire.mkConn (unlines ["JCPL 300 7 small 0"]) "" "")
                   (wire.mkConn "" (unlines ["REDY"]) "") "JCPL 300 7 small 0" eq_refl)
            "300" "7" "small" "0" [] 300 0 7); reflexivity.
Defined.

Lemma turn_JOBN_refines_step_witness :
  let info := scenarioB_info scenarioB_rates in
  let st := main_init info example_parsed in
  let r := mkReplies [mkRow "small" 0 "idle" 0 4 4000 16000 0 0]
                     [mkRow "small" 0 "idle" 0 4 4000 16000 0 0] "OK" in
  ∃ c', wire.turn ascii_split ascii_int info default_args false st
          (wire.mkConn (unlines example_job_lines +:+ "NONE") "" "")
        = (wire.lift (step info default_args st (JOBN scenarioB_job r)).2, c') ∧
        wire.fin c' = "NONE".
Proof.
  intros info st r.
  edestruct (turn_JOBN_refines_step ascii_split ascii_int info default_args false st
               (wire.mkConn (unlines example_job_lines +:+ "NONE") "" ""))
    with (line := "JOBN 7 100 2 100 100 50") (f1 := "7") (f2 := "100") (f3 := "2")
         (f4 := "100") (f5 := "100") (f6 := "50") (more := @nil string)
         (j := scenarioB_job)
         (caps := [mkRow "small" 0 "idle" 0 4 4000 16000 0 0])
         (cands := [mkRow "small" 0 "idle" 0 4 4000 16000 0 0])
         (reply := "OK") (rest := "NONE")
    as (c' & H1 & _ & H3).
  - vm_compute. reflexivity.
  - reflexivity.
  - reflexivity.
  - reflexivity.
  - reflexivity.
  - reflexivity.
  - reflexivity.
  - reflexivity.
  - vm_compute. reflexivity.
  - vm_compute. reflexivity.
  - reflexivity.
  - reflexivity.
  - exists c'. split; [exact H1|exact H3].
Defined.
